(** * progressbar: a shallow embedding of
    [vendor/github.com/schollz/progressbar/progressbar.go]

    The Go package keeps a counter, derives a percentage and a bar width from
    it with float64 arithmetic, and redraws one line on an [io.Writer].  The
    embedding follows the source function by function:

    - Go's [int] is the 64-bit two's complement integer, a [Z] with its
      wrap-around written out ([GoInt]);
    - [float64] is IEEE 754 binary64 as specified by the Standard Library's
      [SpecFloat] ([Float64]);
    - a call either returns or panics ([outcome]); the panics come from
      [strings.Repeat], which also fails when it cannot get the memory for
      its result, and from a nil writer;
    - the clock and the writers live in a [world] that every effectful
      function threads through. *)

From Stdlib Require Import ZArith List String Ascii Bool Lia.
From Stdlib Require Import DecimalString.
From Stdlib Require Import SpecFloat.
From Stdlib Require Import QArith Qpower Lqa.
From Stdlib Require Import Sorted Permutation.
Import ListNotations.

Local Open Scope string_scope.
Local Open Scope Z_scope.

(** ** Go's [int] on a 64-bit platform *)

Module GoInt.

Definition min_int : Z := - 2 ^ 63.
Definition max_int : Z := 2 ^ 63 - 1.

(** Two's complement wrap-around of an exact result. *)
Definition wrap (z : Z) : Z := (z + 2 ^ 63) mod 2 ^ 64 - 2 ^ 63.

Definition add (a b : Z) : Z := wrap (a + b).
Definition sub (a b : Z) : Z := wrap (a - b).
Definition mul (a b : Z) : Z := wrap (a * b).

Definition in_range (z : Z) : bool := (min_int <=? z) && (z <=? max_int).

End GoInt.

(** ** [float64] *)

Module Float64.

Definition prec : Z := 53.
Definition emax : Z := 1024.

Definition float64 : Type := spec_float.

Definition add : float64 -> float64 -> float64 := SFadd prec emax.
Definition sub : float64 -> float64 -> float64 := SFsub prec emax.
Definition mul : float64 -> float64 -> float64 := SFmul prec emax.
Definition div : float64 -> float64 -> float64 := SFdiv prec emax.

(** [float64(n)] for an integer [n]: rounded to the nearest float, ties to
    even.  Integer constants such as [100] convert the same way. *)
Definition of_int (n : Z) : float64 := binary_normalize prec emax n 0 false.

(** The integer part of a finite float (the fraction is discarded). *)
Definition trunc (x : float64) : option Z :=
  match x with
  | S754_zero _ => Some 0
  | S754_finite s m e => Some (cond_Zopp s (Z.shiftl (Z.pos m) e))
  | S754_infinity _ | S754_nan => None
  end.

(** What the language leaves to the implementation, and what the machine
    grants.  What a conversion to [int] yields when the value does not fit
    is implementation-specific in Go; the platform supplies it.  So it does
    the largest number of bytes one allocation can get, [max_alloc]: a
    request for more does not return, either because the runtime refuses it
    (beyond its own limit [make] panics with "makeslice: len out of range")
    or because the machine has not got the memory (the program dies).  A
    machine that runs the program at all grants a page. *)
Class Platform : Type :=
  { out_of_range : float64 -> Z;
    max_alloc : Z;
    max_alloc_page : 4096 <= max_alloc }.

(** [int(x)] for a float [x]. *)
Definition to_int `{Platform} (x : float64) : Z :=
  match trunc x with
  | Some z => if GoInt.in_range z then z else GoInt.wrap (out_of_range x)
  | None => GoInt.wrap (out_of_range x)
  end.

(** The amd64 instruction returns the smallest integer on every value that
    does not fit.  The runtime addresses 2^48 bytes, and refuses a larger
    allocation; the machine is taken to have the memory below that. *)
Definition amd64 : Platform :=
  {| out_of_range := fun _ => GoInt.min_int;
     max_alloc := 2 ^ 48;
     max_alloc_page := proj1 (Z.leb_le 4096 (2 ^ 48)) eq_refl |}.

(** The arm64 instruction saturates, and sends a NaN to zero. *)
Definition arm64 : Platform :=
  {| out_of_range := fun x =>
       match x with
       | S754_nan => 0
       | S754_infinity true | S754_finite true _ _ => GoInt.min_int
       | _ => GoInt.max_int
       end;
     max_alloc := 2 ^ 48;
     max_alloc_page := proj1 (Z.leb_le 4096 (2 ^ 48)) eq_refl |}.

End Float64.

Import Float64.

(** ** Calls that return or panic *)

Inductive outcome (A : Type) : Type :=
| Returned (a : A)
| Panicked (msg : string).

Arguments Returned {A} a.
Arguments Panicked {A} msg.

(** ** Package [strings] *)

Module strings.

Definition len (s : string) : Z := Z.of_nat (String.length s).

Fixpoint replicate (n : nat) (s : string) : string :=
  match n with
  | O => ""
  | S k => s ++ replicate k s
  end.

(** [strings.Repeat] panics on a negative count and when the length of the
    result overflows [int].  It then allocates the result, of
    [len s * count] bytes, before it fills it: when the platform does not
    grant that much the call does not return, which is recorded as the
    panic of [make]. *)
Definition Repeat `{Platform} (s : string) (count : Z) : outcome string :=
  if count <? 0 then Panicked "strings: negative Repeat count"
  else if GoInt.max_int <? len s * count
       then Panicked "strings: Repeat output length overflow"
       else if max_alloc <? len s * count
            then Panicked "runtime error: makeslice: len out of range"
            else Returned (replicate (Z.to_nat count) s).

End strings.

(** ** Package [fmt]: the verbs of the one format string in use *)

Module fmt.

Definition decimal (z : Z) : string := NilZero.string_of_int (Z.to_int z).

(** [%4d]: decimal, right-justified in at least four columns. *)
Definition d4 (z : Z) : string :=
  let s := decimal z in
  strings.replicate (4 - String.length s) " " ++ s.

End fmt.

(** ** Package [time] *)

Module time.

(** An instant, in nanoseconds from a fixed origin. *)
Definition Time : Type := Z.

(** A [Duration] is an [int64] count of nanoseconds. *)
Definition Duration : Type := Z.

Definition Microsecond : Duration := 1000.
Definition Millisecond : Duration := 1000000.
Definition Second : Duration := 1000000000.

(** [t.Sub(u)] saturates at the largest and smallest duration. *)
Definition Sub (t u : Time) : Duration :=
  let d := t - u in
  if d <? GoInt.min_int then GoInt.min_int
  else if GoInt.max_int <? d then GoInt.max_int
  else d.

(** [d.Seconds()]: [float64(d / Second) + float64(d % Second) / 1e9]. *)
Definition Seconds (d : Duration) : float64 :=
  Float64.add (of_int (Z.quot d Second))
              (Float64.div (of_int (Z.rem d Second)) (of_int 1000000000)).

Definition digit (v : Z) : string :=
  String (ascii_of_nat (48 + Z.to_nat (v mod 10))) "".

(** [fmtFrac]: the last [prec] decimal digits of [v] as a fraction without
    trailing zeros, and [v / 10^prec]. *)
Fixpoint fmtFrac_loop (prec : nat) (v : Z) (print : bool) (acc : string)
  : string * Z * bool :=
  match prec with
  | O => (acc, v, print)
  | S k =>
      let print' := print || negb (v mod 10 =? 0) in
      fmtFrac_loop k (v / 10) print'
                   (if print' then digit v ++ acc else acc)
  end.

Definition fmtFrac (v : Z) (prec : nat) : string * Z :=
  let '(acc, v', print) := fmtFrac_loop prec v false "" in
  (if print then "." ++ acc else acc, v').

Definition fmtInt (v : Z) : string := fmt.decimal v.

(** [d.String()], such as [1h2m3s], [1.5s], [0s]. *)
Definition String_ (d : Duration) : string :=
  let u := Z.abs d in
  let body :=
    if u <? Second then
      if u =? 0 then "0s"
      else
        let '(prec, unit) :=
          if u <? Microsecond then (0%nat, "ns")
          else if u <? Millisecond then (3%nat, "µs")
          else (6%nat, "ms") in
        let '(frac, u') := fmtFrac u prec in
        fmtInt u' ++ frac ++ unit
    else
      let '(frac, u1) := fmtFrac u 9 in
      let secs := fmtInt (u1 mod 60) in
      let u2 := u1 / 60 in
      let mins := if 0 <? u2 then fmtInt (u2 mod 60) ++ "m" else "" in
      let u3 := u2 / 60 in
      let hours := if (0 <? u2) && (0 <? u3) then fmtInt u3 ++ "h" else "" in
      hours ++ mins ++ secs ++ frac ++ "s" in
  if d <? 0 then "-" ++ body else body.

End time.

(** ** Errors, writers and the world *)

(** An [error] is identified by its message. *)
Record error : Type := errors_New { Error : string }.

(** [io.Writer]: what a write returns and how it changes the writer.
    [is_os_File] tells whether the writer is an [os.File], whose [Sync] the
    renderer calls. *)
Class Writer (W : Type) : Type :=
  { WriteString : W -> string -> W * option error;
    is_os_File : W -> bool;
    Sync : W -> W * option error }.

(** An interface value of type [io.Writer]: nil, or the object at an
    address. *)
Inductive io_Writer : Type :=
| nil_Writer
| Writer_at (addr : nat).

Definition os_Stdout : io_Writer := Writer_at 1.

Inductive event : Type :=
| ev_WriteString (addr : nat) (s : string)
| ev_Sync (addr : nat).

(** The world outside the tracker: the readings the clock will give, how
    many were taken, the writers in memory, and the calls made on them. *)
Record world (W : Type) : Type :=
  { clock : nat -> time.Time;
    ticks : nat;
    sinks : nat -> W;
    events : list event }.

Arguments clock {W} w _.
Arguments ticks {W} w.
Arguments sinks {W} w _.
Arguments events {W} w.

(** Three writers to run the model on. *)
Inductive sink : Type :=
| Buffer (data : string)
| ClosedPipe
| File (data : string) (sync_error : option error).

#[export] Instance sink_Writer : Writer sink :=
  { WriteString k s :=
      match k with
      | Buffer d => (Buffer (d ++ s), None)
      | ClosedPipe => (ClosedPipe, Some (errors_New "io: read/write on closed pipe"))
      | File d e => (File (d ++ s) e, None)
      end;
    is_os_File k := match k with File _ _ => true | _ => false end;
    Sync k := match k with File _ e => (k, e) | _ => (k, None) end }.

(** ** Package [progressbar] *)

Module progressbar.

Record state : Type :=
  { currentNum : Z;
    currentPercent : Z;
    lastPercent : Z;
    currentSaucerSize : Z;
    lastShown : time.Time;
    startTime : time.Time }.

Record Theme : Type :=
  { Saucer : string;
    SaucerPadding : string;
    BarStart : string;
    BarEnd : string }.

Record config : Type :=
  { max : Z;
    width : Z;
    writer : io_Writer;
    theme : Theme;
    renderWithBlankState : bool }.

(** The lock is left out: calls are taken one at a time. *)
Record ProgressBar : Type :=
  { p_state : state;
    p_config : config }.

(** The options the package exports. *)
Inductive Option : Type :=
| OptionSetWidth (s : Z)
| OptionSetTheme (t : Theme)
| OptionSetWriter (w : io_Writer)
| OptionSetRenderBlankState (r : bool).

Definition set_config (p : ProgressBar) (c : config) : ProgressBar :=
  {| p_state := p_state p; p_config := c |}.

Definition apply_Option (p : ProgressBar) (o : Option) : ProgressBar :=
  let c := p_config p in
  match o with
  | OptionSetWidth s =>
      set_config p {| max := max c; width := s; writer := writer c;
                      theme := theme c;
                      renderWithBlankState := renderWithBlankState c |}
  | OptionSetTheme t =>
      set_config p {| max := max c; width := width c; writer := writer c;
                      theme := t;
                      renderWithBlankState := renderWithBlankState c |}
  | OptionSetWriter w =>
      set_config p {| max := max c; width := width c; writer := w;
                      theme := theme c;
                      renderWithBlankState := renderWithBlankState c |}
  | OptionSetRenderBlankState r =>
      set_config p {| max := max c; width := width c; writer := writer c;
                      theme := theme c;
                      renderWithBlankState := r |}
  end.

Definition defaultTheme : Theme :=
  {| Saucer := "█"; SaucerPadding := " "; BarStart := "|"; BarEnd := "|" |}.

Definition carriage_return : string := String (ascii_of_nat 13) "".

(** The line [fmt.Sprintf] builds from
    ["\r%4d%% %s%s%s%s [%s:%s]            "]. *)
Definition Sprintf_line (percent : Z) (barStart saucers padding barEnd
                         elapsed left : string) : string :=
  carriage_return ++ fmt.d4 percent ++ "% " ++ barStart ++ saucers
    ++ padding ++ barEnd ++ " [" ++ elapsed ++ ":" ++ left
    ++ "]            ".

Definition max_zero : error := errors_New "max must be greater than 0".
Definition exceeds_max : error := errors_New "current number exceeds max".

Section WithWriter.

Context {W : Type} {writer_W : Writer W} {platform : Platform}.

(** Effectful code: the world goes in and comes out, with a result or a
    panic. *)
Definition M (A : Type) : Type := world W -> world W * outcome A.

Definition ret {A : Type} (a : A) : M A := fun w => (w, Returned a).

Definition bind {A B : Type} (m : M A) (k : A -> M B) : M B :=
  fun w =>
    match m w with
    | (w', Returned a) => k a w'
    | (w', Panicked msg) => (w', Panicked msg)
    end.

Definition lift {A : Type} (o : outcome A) : M A := fun w => (w, o).

Notation "x <- m ;; k" := (bind m (fun x => k))
  (at level 61, m at next level, right associativity).

(** [time.Now()] takes the next reading of the clock. *)
Definition time_Now : M time.Time :=
  fun w =>
    ({| clock := clock w; ticks := S (ticks w); sinks := sinks w;
        events := events w |},
     Returned (clock w (ticks w))).

Definition time_Since (t : time.Time) : M time.Duration :=
  now <- time_Now ;; ret (time.Sub now t).

Definition update_sink (w : world W) (a : nat) (k : W) (e : event)
  : world W :=
  {| clock := clock w; ticks := ticks w;
     sinks := fun b => if Nat.eqb b a then k else sinks w b;
     events := (events w ++ [e])%list |}.

(** [io.WriteString(w, s)]; a nil writer is dereferenced. *)
Definition io_WriteString (wr : io_Writer) (s : string)
  : M (option error) :=
  match wr with
  | nil_Writer =>
      lift (Panicked
        "runtime error: invalid memory address or nil pointer dereference")
  | Writer_at a =>
      fun w =>
        let '(k, err) := WriteString (sinks w a) s in
        (update_sink w a k (ev_WriteString a s), Returned err)
  end.

(** The tail of the renderer: [Sync] when the writer is an [os.File],
    nil otherwise. *)
Definition sync_if_File (wr : io_Writer) : M (option error) :=
  match wr with
  | nil_Writer => ret None
  | Writer_at a =>
      fun w =>
        if is_os_File (sinks w a) then
          let '(k, err) := Sync (sinks w a) in
          (update_sink w a k (ev_Sync a), Returned err)
        else (w, Returned None)
  end.

Definition getBlankState : M state :=
  now <- time_Now ;;
  ret {| currentNum := 0; currentPercent := 0; lastPercent := 0;
         currentSaucerSize := 0; lastShown := now; startTime := now |}.

(** [(time.Duration(x) * time.Second).String()] *)
Definition whole_seconds (x : float64) : string :=
  time.String_ (GoInt.mul (to_int x) time.Second).

Definition renderProgressBar (c : config) (s : state) : M (option error) :=
  leftTime <-
    (if 0 <? currentNum s then
       d <- time_Since (startTime s) ;;
       ret (Float64.mul
              (Float64.div (time.Seconds d) (of_int (currentNum s)))
              (Float64.sub (of_int (max c)) (of_int (currentNum s))))
     else ret (S754_zero false)) ;;
  saucers <- lift (strings.Repeat (Saucer (theme c))
                                  (currentSaucerSize s)) ;;
  padding <- lift (strings.Repeat (SaucerPadding (theme c))
                     (GoInt.sub (width c) (currentSaucerSize s))) ;;
  d <- time_Since (startTime s) ;;
  let str :=
    Sprintf_line (currentPercent s) (BarStart (theme c)) saucers padding
                 (BarEnd (theme c))
                 (whole_seconds (time.Seconds d))
                 (whole_seconds leftTime) in
  err <- io_WriteString (writer c) str ;;
  match err with
  | Some e => ret (Some e)
  | None => sync_if_File (writer c)
  end.

Definition RenderBlank (p : ProgressBar) : M (option error) :=
  renderProgressBar (p_config p) (p_state p).

(** [NewOptions]: the result of the blank render is dropped, a panic of
    it is not. *)
Definition NewOptions (max_ : Z) (options : list Option) : M ProgressBar :=
  blank <- getBlankState ;;
  let b := {| p_state := blank;
              p_config := {| max := max_; width := 40;
                             writer := os_Stdout; theme := defaultTheme;
                             renderWithBlankState := false |} |} in
  let b := fold_left apply_Option options b in
  if renderWithBlankState (p_config b)
  then _ <- RenderBlank b ;; ret b
  else ret b.

Definition New (max_ : Z) : M ProgressBar := NewOptions max_ [].

(** The methods below change the tracker in place, also when they
    panic: they give back the tracker next to the outcome. *)
Definition Reset (p : ProgressBar) (w : world W)
  : world W * ProgressBar :=
  match getBlankState w with
  | (w', Returned s) => (w', {| p_state := s; p_config := p_config p |})
  | (w', Panicked _) => (w', p)
  end.

Definition set_currentNum (s : state) (v : Z) : state :=
  {| currentNum := v; currentPercent := currentPercent s;
     lastPercent := lastPercent s;
     currentSaucerSize := currentSaucerSize s;
     lastShown := lastShown s; startTime := startTime s |}.

Definition set_currentSaucerSize (s : state) (v : Z) : state :=
  {| currentNum := currentNum s; currentPercent := currentPercent s;
     lastPercent := lastPercent s; currentSaucerSize := v;
     lastShown := lastShown s; startTime := startTime s |}.

Definition set_currentPercent (s : state) (v : Z) : state :=
  {| currentNum := currentNum s; currentPercent := v;
     lastPercent := lastPercent s;
     currentSaucerSize := currentSaucerSize s;
     lastShown := lastShown s; startTime := startTime s |}.

Definition set_lastPercent (s : state) (v : Z) : state :=
  {| currentNum := currentNum s; currentPercent := currentPercent s;
     lastPercent := v; currentSaucerSize := currentSaucerSize s;
     lastShown := lastShown s; startTime := startTime s |}.

Definition Add (p : ProgressBar) (num : Z) (w : world W)
  : world W * ProgressBar * outcome (option error) :=
  let c := p_config p in
  if max c =? 0 then (w, p, Returned (Some max_zero))
  else
    let s := set_currentNum (p_state p)
                            (GoInt.add (currentNum (p_state p)) num) in
    let percent := Float64.div (of_int (currentNum s)) (of_int (max c)) in
    let s := set_currentSaucerSize s
               (to_int (Float64.mul percent (of_int (width c)))) in
    let s := set_currentPercent s
               (to_int (Float64.mul percent (of_int 100))) in
    let updateBar :=
      negb (currentPercent s =? lastPercent s) && (0 <? currentPercent s) in
    let s := set_lastPercent s (currentPercent s) in
    let p' := {| p_state := s; p_config := c |} in
    if max c <? currentNum s then (w, p', Returned (Some exceeds_max))
    else if updateBar then
           let '(w', r) := renderProgressBar c s w in (w', p', r)
         else (w, p', Returned None).

End WithWriter.

End progressbar.

Import progressbar.

(** ** Notions the statements are written with *)

(** *** Values of floats and rounding to nearest, ties to even

    The theorems on [float64] results go through the rational value of a
    float.  [rounds_to v r] says that [r] is [v > 0] rounded to 53 bits, to
    the nearest and to even on a tie, the exponent range being left
    unbounded. *)

Definition bpow (e : Z) : Q := (2 ^ e)%Q.

Definition SF2Q (z : float64) : Q :=
  match z with
  | S754_finite s m e => inject_Z (cond_Zopp s (Z.pos m)) * bpow e
  | _ => 0
  end.

(** [x] lies in [[m, m + 1)], at the place [l] tells. *)
Definition inbetween_int (m : Z) (x : Q) (l : location) : Prop :=
  match l with
  | loc_Exact => (x == inject_Z m)%Q
  | loc_Inexact Lt => (inject_Z m < x /\ x < inject_Z m + (1 # 2))%Q
  | loc_Inexact Eq => (x == inject_Z m + (1 # 2))%Q
  | loc_Inexact Gt => (inject_Z m + (1 # 2) < x /\ x < inject_Z m + 1)%Q
  end.

Definition inbetween_rec (mrs : shr_record) (x : Q) : Prop :=
  inbetween_int (shr_m mrs) x (loc_of_shr_record mrs).

Definition nearest_even (x : Q) (n : Z) : Prop :=
  (inject_Z n - (1 # 2) <= x /\ x <= inject_Z n + (1 # 2))%Q /\
  ((x == inject_Z n - (1 # 2) \/ x == inject_Z n + (1 # 2))%Q ->
   Z.even n = true).

Definition rounds_to (v r : Q) : Prop :=
  exists (e n : Z) (x : Q),
    (v == x * bpow e)%Q /\
    (inject_Z (2 ^ 52) <= x /\ x < inject_Z (2 ^ 53))%Q /\
    nearest_even x n /\
    (r == inject_Z n * bpow e)%Q.

(** A positive float with a full mantissa and its exponent in [[lo, hi]]. *)
Definition pos_normal (z : float64) (lo hi : Z) : Prop :=
  exists m e, z = S754_finite false m e /\ Z.pos (digits2_pos m) = 53 /\
              lo <= e <= hi.

(** [float64(n) / float64(mx)], and that quotient times [float64(c)]: the
    two expressions [Add] converts to [int], with [c] the width or 100. *)
Definition ratio (n mx : Z) : float64 := Float64.div (of_int n) (of_int mx).

Definition scaled (n mx c : Z) : float64 := Float64.mul (ratio n mx) (of_int c).

(** The largest integer not above the value of a float. *)
Definition floor (x : float64) : option Z :=
  match x with
  | S754_zero _ => Some 0
  | S754_finite s m e => Some (Z.shiftl (cond_Zopp s (Z.pos m)) e)
  | S754_infinity _ | S754_nan => None
  end.

(** The conversion to [int] of a float is defined by the language: the
    float is finite and its integer part fits. *)
Definition fits_int (x : float64) : bool :=
  match trunc x with
  | Some z => GoInt.in_range z
  | None => false
  end.

(** *** Trackers and what a call did *)

Definition sum (nums : list Z) : Z := fold_right Z.add 0 nums.

(** The call wrote a line: the events grew by a write, and perhaps by what
    follows one. *)
Definition rendered {W : Type} (w w' : world W) : Prop :=
  exists a s rest, events w' = (events w ++ ev_WriteString a s :: rest)%list.

(** Neither [strings.Repeat] of the renderer panics and the writer is not
    nil. *)
Definition render_ok `{Platform} (c : config) (s : state) : bool :=
  match writer c,
        strings.Repeat (Saucer (theme c)) (currentSaucerSize s),
        strings.Repeat (SaucerPadding (theme c))
                       (GoInt.sub (width c) (currentSaucerSize s)) with
  | Writer_at _, Returned _, Returned _ => true
  | _, _, _ => false
  end.

Definition blank (s : state) : Prop :=
  currentNum s = 0 /\ currentPercent s = 0 /\ lastPercent s = 0 /\
  currentSaucerSize s = 0.

Section Trackers.

Context {W : Type} {writer_W : Writer W} {platform : Platform}.

(** The trackers a program can hold: made by [NewOptions] with an [int] for
    [max], then advanced and reset.  [RenderBlank] leaves the tracker as it
    is. *)
Inductive reachable : ProgressBar -> Prop :=
| reach_NewOptions (max_ : Z) (options : list Option) (w w' : world W)
    (p : ProgressBar) :
    GoInt.in_range max_ = true ->
    NewOptions max_ options w = (w', Returned p) ->
    reachable p
| reach_Add (p : ProgressBar) (num : Z) (w w' : world W) (p' : ProgressBar)
    (r : outcome (option error)) :
    reachable p -> Add p num w = (w', p', r) -> reachable p'
| reach_Reset (p : ProgressBar) (w w' : world W) (p' : ProgressBar) :
    reachable p -> Reset p w = (w', p') -> reachable p'.

(** What holds of every such tracker. *)
Definition consistent (p : ProgressBar) : Prop :=
  let s := p_state p in
  let c := p_config p in
  GoInt.in_range (max c) = true /\
  GoInt.in_range (currentNum s) = true /\
  lastPercent s = currentPercent s /\
  (max c <> 0 -> currentPercent s = to_int (scaled (currentNum s) (max c) 100)) /\
  (max c = 0 -> currentNum s = 0).

(** The state [Add] leaves when [max] is not zero. *)
Definition advanced (p : ProgressBar) (num : Z) : state :=
  let n := GoInt.add (currentNum (p_state p)) num in
  let mx := max (p_config p) in
  {| currentNum := n;
     currentPercent := to_int (scaled n mx 100);
     lastPercent := to_int (scaled n mx 100);
     currentSaucerSize := to_int (scaled n mx (width (p_config p)));
     lastShown := lastShown (p_state p);
     startTime := startTime (p_state p) |}.

(** The tracker after a call of [Add]. *)
Definition after_Add (p : ProgressBar) (num : Z) (w : world W) : ProgressBar :=
  snd (fst (Add p num w)).

(** Successive calls of [Add], with the percentage each one leaves. *)
Fixpoint AddAll (p : ProgressBar) (nums : list Z) (w : world W)
  : world W * ProgressBar * list Z :=
  match nums with
  | [] => (w, p, [])
  | num :: rest =>
      let '(w1, p1, _) := Add p num w in
      let '(w2, p2, percents) := AddAll p1 rest w1 in
      (w2, p2, currentPercent (p_state p1) :: percents)
  end.

(** *** Claims as the specification words them, where the code differs *)


(** The percentage and the width are floors of the exact quotients. *)
Definition percent_is_exact_floor (p : ProgressBar) (num : Z) (w : world W)
  : Prop :=
  let '(_, p', r) := Add p num w in
  0 < max (p_config p) -> r = Returned None ->
  currentPercent (p_state p')
    = currentNum (p_state p') * 100 / max (p_config p) /\
  currentSaucerSize (p_state p')
    = currentNum (p_state p') * width (p_config p) / max (p_config p).

(** The same with the quotients computed in [float64] and then floored. *)
Definition percent_is_float_floor (p : ProgressBar) (num : Z) (w : world W)
  : Prop :=
  let '(_, p', r) := Add p num w in
  0 < max (p_config p) -> r = Returned None ->
  Some (currentPercent (p_state p'))
    = floor (scaled (currentNum (p_state p')) (max (p_config p)) 100) /\
  Some (currentSaucerSize (p_state p'))
    = floor (scaled (currentNum (p_state p')) (max (p_config p))
                    (width (p_config p))).

(** An advance by a non-negative amount never lowers the percentage. *)
Definition percent_never_decreases (p : ProgressBar) (num : Z) (w : world W)
  : Prop :=
  reachable p -> 0 < max (p_config p) -> 0 <= num ->
  currentPercent (p_state p) <= currentPercent (p_state (after_Add p num w)).


(** Rendering a bar fuller than its width, or of negative fill, panics. *)
Definition overfull_render_panics (c : config) (s : state) (w : world W)
  : Prop :=
  width c < currentSaucerSize s \/ currentSaucerSize s < 0 ->
  exists w' msg, renderProgressBar c s w = (w', Panicked msg).

(** [RenderBlank] after an advance beyond the maximum panics. *)
Definition render_after_excess_panics (p : ProgressBar) (num : Z)
  (w : world W) : Prop :=
  let '(w1, p1, r) := Add p num w in
  r = Returned (Some exceeds_max) ->
  exists w2 msg, RenderBlank p1 w1 = (w2, Panicked msg).

End Trackers.

(** *** Worlds and trackers to run the model on *)

(** Every writer is an empty buffer; the clock gives one reading a second. *)
Definition quiet_world : world sink :=
  {| clock := fun n => 1000000000 * Z.of_nat n; ticks := 0;
     sinks := fun _ => Buffer ""; events := [] |}.


(** The tracker [NewOptions] builds before it renders. *)
Definition fresh (max_ : Z) (options : list Option) : ProgressBar :=
  fold_left apply_Option options
    {| p_state := {| currentNum := 0; currentPercent := 0; lastPercent := 0;
                     currentSaucerSize := 0; lastShown := 0; startTime := 0 |};
       p_config := {| max := max_; width := 40; writer := os_Stdout;
                      theme := defaultTheme;
                      renderWithBlankState := false |} |}.

(** *** Runs of calls, options and the pieces of a rendered line *)

Definition is_write (e : event) : bool :=
  match e with
  | ev_WriteString _ _ => true
  | ev_Sync _ => false
  end.

(** The writer a call was made on. *)
Definition addr_of (e : event) : nat :=
  match e with
  | ev_WriteString a _ => a
  | ev_Sync a => a
  end.

(** The number of lines written among the calls made on the writers. *)
Definition writes (evs : list event) : Z :=
  Z.of_nat (List.length (filter is_write evs)).

(** The field of the configuration an option sets. *)
Definition field_of (o : Option) : nat :=
  match o with
  | OptionSetWidth _ => 0
  | OptionSetTheme _ => 1
  | OptionSetWriter _ => 2
  | OptionSetRenderBlankState _ => 3
  end.


(** [o'] sets another field than [o]. *)
Definition other_field (o o' : Option) : bool :=
  negb (Nat.eqb (field_of o') (field_of o)).

(** Half the distance between two neighbouring floats, relative to their
    size: the largest relative error of one rounding. *)
Definition eps : Q := 1 # 9007199254740992.

Section Runs.

Context {W : Type} {writer_W : Writer W} {platform : Platform}.



(** Successive calls of [Add], with what each one returned. *)
Fixpoint run (p : ProgressBar) (nums : list Z) (w : world W)
  : world W * ProgressBar * list (outcome (option error)) :=
  match nums with
  | [] => (w, p, [])
  | num :: rest =>
      let '(w1, p1, r) := Add p num w in
      let '(w2, p2, rs) := run p1 rest w1 in
      (w2, p2, r :: rs)
  end.

(** The world once the clock was read [n] more times. *)
Definition later (w : world W) (n : nat) : world W :=
  {| clock := clock w; ticks := (ticks w + n)%nat; sinks := sinks w;
     events := events w |}.

(** The renderer reads the clock for the time to go when the count is
    positive, and then once more for the time elapsed. *)
Definition readings (s : state) : nat := if 0 <? currentNum s then 2 else 1.

(** The time elapsed at the last of these readings. *)
Definition elapsed_of (s : state) (w : world W) : time.Duration :=
  time.Sub (clock w (ticks w + readings s - 1)%nat) (startTime s).

(** The time to go, in seconds, from the first of them. *)
Definition leftTime_of (c : config) (s : state) (w : world W) : float64 :=
  if 0 <? currentNum s then
    Float64.mul
      (Float64.div (time.Seconds (time.Sub (clock w (ticks w)) (startTime s)))
                   (of_int (currentNum s)))
      (Float64.sub (of_int (max c)) (of_int (currentNum s)))
  else S754_zero false.

(** The line the renderer writes for the state [s] when the world is [w]
    at the call, provided it does not panic. *)
Definition line_of (c : config) (s : state) (w : world W) : string :=
  Sprintf_line (currentPercent s) (BarStart (theme c))
    (strings.replicate (Z.to_nat (currentSaucerSize s)) (Saucer (theme c)))
    (strings.replicate
       (Z.to_nat (GoInt.sub (width c) (currentSaucerSize s)))
       (SaucerPadding (theme c)))
    (BarEnd (theme c))
    (whole_seconds (time.Seconds (elapsed_of s w)))
    (whole_seconds (leftTime_of c s w)).

(** The three derived fields are those of the count. *)
Definition in_sync (p : ProgressBar) : Prop :=
  let s := p_state p in
  let c := p_config p in
  lastPercent s = currentPercent s /\
  currentPercent s = to_int (scaled (currentNum s) (max c) 100) /\
  currentSaucerSize s = to_int (scaled (currentNum s) (max c) (width c)).

End Runs.

(** ** Rounding: what the float operations compute

    [SpecFloat] computes on mantissas and exponents.  This part relates the
    results to rational values: every operation [Add] uses returns the
    exact result rounded to the nearest float, ties to even
    ([binary_round_aux_correct] and the lemmas on each operation), and that
    rounding is monotone ([rounds_to_mono]).  The floats met here are far
    from the ends of the exponent range, so the lemmas stay in the normal
    range. *)

(** Literals under [inject_Z], for [lra]. *)
Ltac Qliterals :=
  change (inject_Z 0) with 0%Q in *;
  change (inject_Z 1) with 1%Q in *;
  change (inject_Z 2) with 2%Q in *.

(** *** Powers of two *)

Lemma bpow_pos e : (0 < bpow e)%Q.
Proof. apply Qpower_0_lt. reflexivity. Qed.

Lemma bpow_add a b : (bpow (a + b) == bpow a * bpow b)%Q.
Proof. apply Qpower_plus. discriminate. Qed.

Lemma bpow_succ a : (bpow (a + 1) == 2 * bpow a)%Q.
Proof. rewrite bpow_add. unfold bpow at 2. simpl. ring. Qed.

Lemma bpow_le a b : a <= b -> (bpow a <= bpow b)%Q.
Proof. intros. apply Qpower_le_compat_l; [assumption|discriminate]. Qed.

Lemma bpow_lt a b : a < b -> (bpow a < bpow b)%Q.
Proof. intros. apply Qpower_lt_compat_l; [assumption|reflexivity]. Qed.

Lemma bpow_inject e : 0 <= e -> (bpow e == inject_Z (2 ^ e))%Q.
Proof. intros. unfold bpow. rewrite Zpower_Qpower by assumption. reflexivity. Qed.

Lemma bpow_step a b : a < b -> (2 * bpow a <= bpow b)%Q.
Proof. intros. rewrite <- bpow_succ. apply bpow_le. lia. Qed.

(** *** The nearest integer *)

Lemma inject_Z_succ_le a b : a < b -> (inject_Z a + 1 <= inject_Z b)%Q.
Proof.
  intros. replace 1%Q with (inject_Z 1) by reflexivity.
  rewrite <- inject_Z_plus, <- Zle_Qle. lia.
Qed.

Lemma nearest_even_mono x1 x2 n1 n2 :
  nearest_even x1 n1 -> nearest_even x2 n2 -> (x1 <= x2)%Q -> n1 <= n2.
Proof.
  intros [[L1 U1] T1] [[L2 U2] T2] Hx.
  destruct (Z_le_gt_dec n1 n2) as [|Hgt]; [assumption|exfalso].
  assert (Hs : (inject_Z n2 + 1 <= inject_Z n1)%Q) by (apply inject_Z_succ_le; lia).
  assert (E1 : (x1 == inject_Z n1 - (1 # 2))%Q) by lra.
  assert (E2 : (x2 == inject_Z n2 + (1 # 2))%Q) by lra.
  assert (En : n1 = n2 + 1).
  { apply inject_Z_injective. rewrite inject_Z_plus. change (inject_Z 1) with 1%Q. lra. }
  subst n1.
  specialize (T1 (or_introl E1)). specialize (T2 (or_intror E2)).
  rewrite Z.even_add in T1. rewrite T2 in T1. discriminate.
Qed.

Lemma nearest_even_refl m : nearest_even (inject_Z m) m.
Proof. split; [lra|]. intros [E|E]; lra. Qed.

Lemma nearest_even_bounds x n a b :
  nearest_even x n -> (inject_Z a <= x)%Q -> (x <= inject_Z b)%Q -> a <= n <= b.
Proof.
  intros [[L U] _] Ha Hb. split.
  - destruct (Z_le_gt_dec a n); [assumption|exfalso].
    assert (inject_Z n + 1 <= inject_Z a)%Q by (apply inject_Z_succ_le; lia). lra.
  - destruct (Z_le_gt_dec n b); [assumption|exfalso].
    assert (inject_Z b + 1 <= inject_Z n)%Q by (apply inject_Z_succ_le; lia). lra.
Qed.

(** *** Rounding is monotone, and exact on floats *)

Lemma rounds_to_mono v1 v2 r1 r2 :
  rounds_to v1 r1 -> rounds_to v2 r2 -> (v1 <= v2)%Q -> (r1 <= r2)%Q.
Proof.
  intros (e1 & n1 & x1 & Hv1 & [Lx1 Ux1] & N1 & Hr1)
         (e2 & n2 & x2 & Hv2 & [Lx2 Ux2] & N2 & Hr2) Hv.
  pose proof (bpow_pos e1) as P1. pose proof (bpow_pos e2) as P2.
  assert (B1 : 2 ^ 52 <= n1 <= 2 ^ 53).
  { apply (nearest_even_bounds x1); auto. lra. }
  assert (B2 : 2 ^ 52 <= n2 <= 2 ^ 53).
  { apply (nearest_even_bounds x2); auto. lra. }
  rewrite Hr1, Hr2.
  destruct (Z.lt_trichotomy e1 e2) as [Hlt | [Heq | Hgt]].
  - pose proof (bpow_step _ _ Hlt) as S.
    destruct B1 as [_ B1]. destruct B2 as [B2 _].
    rewrite Zle_Qle in B1, B2.
    apply Qle_trans with (inject_Z (2 ^ 53) * bpow e1)%Q.
    + apply Qmult_le_compat_r; lra.
    + apply Qle_trans with (inject_Z (2 ^ 52) * bpow e2)%Q.
      * change (inject_Z (2 ^ 53)) with (2 * inject_Z (2 ^ 52))%Q.
        rewrite <- Qmult_assoc, (Qmult_comm 2), <- Qmult_assoc.
        apply Qmult_le_l; [reflexivity|]. lra.
      * apply Qmult_le_compat_r; lra.
  - subst e2.
    assert (x1 <= x2)%Q.
    { apply Qmult_le_r with (z := bpow e1); [assumption|].
      rewrite <- Hv1, <- Hv2. assumption. }
    pose proof (nearest_even_mono _ _ _ _ N1 N2 H) as Hn.
    rewrite Zle_Qle in Hn.
    apply Qmult_le_compat_r; lra.
  - exfalso.
    pose proof (bpow_step _ _ Hgt) as S.
    assert (x2 * bpow e2 < inject_Z (2 ^ 53) * bpow e2)%Q.
    { apply Qmult_lt_compat_r; assumption. }
    assert (inject_Z (2 ^ 52) * bpow e1 <= x1 * bpow e1)%Q.
    { apply Qmult_le_compat_r; lra. }
    assert (inject_Z (2 ^ 53) * bpow e2 <= inject_Z (2 ^ 52) * bpow e1)%Q.
    { change (inject_Z (2 ^ 53)) with (2 * inject_Z (2 ^ 52))%Q.
      rewrite <- Qmult_assoc, (Qmult_comm 2), <- Qmult_assoc.
      apply Qmult_le_l; [reflexivity|]. lra. }
    lra.
Qed.

Lemma rounds_to_representable m e :
  2 ^ 52 <= m < 2 ^ 53 ->
  rounds_to (inject_Z m * bpow e) (inject_Z m * bpow e).
Proof.
  intros [L U]. exists e, m, (inject_Z m).
  split; [reflexivity|]. split.
  - rewrite <- Zle_Qle, <- Zlt_Qlt. lia.
  - split; [apply nearest_even_refl | reflexivity].
Qed.

Lemma rounds_to_unique v r1 r2 :
  rounds_to v r1 -> rounds_to v r2 -> (r1 == r2)%Q.
Proof.
  intros H1 H2. apply Qle_antisym.
  - apply (rounds_to_mono v v); auto. lra.
  - apply (rounds_to_mono v v); auto. lra.
Qed.

(** *** Binary digits *)

Lemma digits2_pos_bounds m :
  2 ^ (Z.pos (digits2_pos m) - 1) <= Z.pos m < 2 ^ Z.pos (digits2_pos m).
Proof.
  induction m as [p IH | p IH |]; cbn [digits2_pos].
  - rewrite Pos2Z.inj_succ, (Pos2Z.inj_xI p).
    replace (Z.succ (Z.pos (digits2_pos p)) - 1)
      with (Z.succ (Z.pos (digits2_pos p) - 1)) by lia.
    rewrite !Z.pow_succ_r by lia. lia.
  - rewrite Pos2Z.inj_succ, (Pos2Z.inj_xO p).
    replace (Z.succ (Z.pos (digits2_pos p)) - 1)
      with (Z.succ (Z.pos (digits2_pos p) - 1)) by lia.
    rewrite !Z.pow_succ_r by lia. lia.
  - cbn. lia.
Qed.

Lemma digits2_pos_unique m d :
  2 ^ (d - 1) <= Z.pos m < 2 ^ d -> Z.pos (digits2_pos m) = d.
Proof.
  intros [L U]. pose proof (digits2_pos_bounds m) as [L' U'].
  set (d' := Z.pos (digits2_pos m)) in *.
  assert (0 < d') by (unfold d'; lia).
  assert (0 < d).
  { destruct (Z_lt_le_dec 0 d); [assumption|].
    exfalso. destruct (Z.eq_dec d 0) as [->|].
    - cbn in U. lia.
    - rewrite Z.pow_neg_r in U by lia. lia. }
  destruct (Z.lt_trichotomy d' d) as [Hlt|[Heq|Hgt]]; [exfalso|assumption|exfalso].
  - assert (2 ^ d' <= 2 ^ (d - 1)) by (apply Z.pow_le_mono_r; lia). lia.
  - assert (2 ^ d <= 2 ^ (d' - 1)) by (apply Z.pow_le_mono_r; lia). lia.
Qed.

(** *** Shifting right under a round bit and a sticky bit *)

Lemma inbetween_int_ext m x y l :
  (x == y)%Q -> inbetween_int m x l -> inbetween_int m y l.
Proof.
  intros E. destruct l as [|[| |]]; cbn; intros; lra.
Qed.

Lemma loc_of_shr_record_of_loc m l :
  loc_of_shr_record (shr_record_of_loc m l) = l.
Proof. destruct l as [|[| |]]; reflexivity. Qed.

Lemma shr_m_of_loc m l : shr_m (shr_record_of_loc m l) = m.
Proof. destruct l as [|[| |]]; reflexivity. Qed.

Lemma shr_1_spec mrs x :
  0 <= shr_m mrs -> inbetween_rec mrs x ->
  inbetween_rec (shr_1 mrs) (x * bpow (-1)) /\ shr_m (shr_1 mrs) = shr_m mrs / 2.
Proof.
  destruct mrs as [m r s]. unfold inbetween_rec. cbn [shr_m].
  intros Hm H. change (bpow (-1)) with (1 # 2)%Q.
  destruct m as [|[p|p|]|p]; try lia.
  - split; [|reflexivity].
    destruct r, s; cbn [shr_1 loc_of_shr_record inbetween_int orb shr_m] in *;
      Qliterals; lra.
  - split.
    + assert (E : (inject_Z (Z.pos p~1) == 2 * inject_Z (Z.pos p) + 1)%Q).
      { rewrite (Pos2Z.inj_xI p), inject_Z_plus, inject_Z_mult. reflexivity. }
      destruct r, s; cbn [shr_1 loc_of_shr_record inbetween_int orb shr_m] in *; lra.
    + cbn [shr_1 shr_m]. destruct (r || s); cbn [shr_m]; rewrite (Pos2Z.inj_xI p);
        apply Z.div_unique with (r := 1); lia.
  - split.
    + assert (E : (inject_Z (Z.pos p~0) == 2 * inject_Z (Z.pos p))%Q).
      { rewrite (Pos2Z.inj_xO p), inject_Z_mult. reflexivity. }
      destruct r, s; cbn [shr_1 loc_of_shr_record inbetween_int orb shr_m] in *; lra.
    + cbn [shr_1 shr_m]. destruct (r || s); cbn [shr_m]; rewrite (Pos2Z.inj_xO p);
        apply Z.div_unique with (r := 0); lia.
  - split; [|reflexivity].
    destruct r, s; cbn [shr_1 loc_of_shr_record inbetween_int orb shr_m] in *;
      Qliterals; lra.
Qed.

Lemma shr_iter_spec p : forall mrs x,
  0 <= shr_m mrs -> inbetween_rec mrs x ->
  inbetween_rec (SpecFloat.iter_pos shr_1 p mrs) (x * bpow (- Z.pos p)) /\
  shr_m (SpecFloat.iter_pos shr_1 p mrs) = shr_m mrs / 2 ^ Z.pos p.
Proof.
  induction p as [p IH | p IH |]; intros mrs x Hm H; cbn [SpecFloat.iter_pos].
  - destruct (shr_1_spec mrs x Hm H) as [H1 M1].
    assert (Hm1 : 0 <= shr_m (shr_1 mrs)) by (rewrite M1; apply Z.div_pos; lia).
    destruct (IH _ _ Hm1 H1) as [H2 M2].
    assert (Hm2 : 0 <= shr_m (SpecFloat.iter_pos shr_1 p (shr_1 mrs))).
    { rewrite M2. apply Z.div_pos; [assumption|]. apply Z.pow_pos_nonneg; lia. }
    destruct (IH _ _ Hm2 H2) as [H3 M3].
    split.
    + eapply inbetween_int_ext; [|exact H3].
      rewrite <- !Qmult_assoc, <- !bpow_add.
      replace (-1 + (- Z.pos p + - Z.pos p)) with (- Z.pos p~1) by lia. reflexivity.
    + rewrite M3, M2, M1, !Z.div_div by (try apply Z.pow_pos_nonneg; lia).
      f_equal. rewrite (Pos2Z.inj_xI p).
      replace (2 * Z.pos p + 1) with (1 + Z.pos p + Z.pos p) by lia.
      rewrite !Z.pow_add_r by lia. lia.
  - destruct (IH _ _ Hm H) as [H2 M2].
    assert (Hm2 : 0 <= shr_m (SpecFloat.iter_pos shr_1 p mrs)).
    { rewrite M2. apply Z.div_pos; [assumption|]. apply Z.pow_pos_nonneg; lia. }
    destruct (IH _ _ Hm2 H2) as [H3 M3].
    split.
    + eapply inbetween_int_ext; [|exact H3].
      rewrite <- !Qmult_assoc, <- !bpow_add.
      replace (- Z.pos p + - Z.pos p) with (- Z.pos p~0) by lia. reflexivity.
    + rewrite M3, M2, !Z.div_div by (try apply Z.pow_pos_nonneg; lia).
      f_equal. rewrite (Pos2Z.inj_xO p).
      replace (2 * Z.pos p) with (Z.pos p + Z.pos p) by lia.
      rewrite !Z.pow_add_r by lia. lia.
  - destruct (shr_1_spec mrs x Hm H) as [H1 M1]. split; assumption.
Qed.

(** [shr] by a non-negative amount. *)
Lemma shr_spec mrs e n x :
  0 <= n -> 0 <= shr_m mrs -> inbetween_rec mrs x ->
  inbetween_rec (fst (shr mrs e n)) (x * bpow (- n)) /\
  shr_m (fst (shr mrs e n)) = shr_m mrs / 2 ^ n /\
  snd (shr mrs e n) = e + n.
Proof.
  intros Hn Hm H. destruct n as [|p|p]; [| |lia]; cbn [shr fst snd].
  - split; [|split].
    + eapply inbetween_int_ext; [|exact H]. change (bpow (-0)) with 1%Q. ring.
    + rewrite Z.pow_0_r, Z.div_1_r. reflexivity.
    + lia.
  - destruct (shr_iter_spec p mrs x Hm H) as [H1 M1]. auto.
Qed.

Lemma round_nearest_even_spec mrs x :
  inbetween_rec mrs x ->
  let n := round_nearest_even (shr_m mrs) (loc_of_shr_record mrs) in
  nearest_even x n /\ shr_m mrs <= n <= shr_m mrs + 1.
Proof.
  destruct mrs as [m r s]. unfold inbetween_rec, nearest_even. cbn [shr_m].
  assert (E : (inject_Z (m + 1) == inject_Z m + 1)%Q)
    by (rewrite inject_Z_plus; reflexivity).
  destruct r, s; cbn [loc_of_shr_record inbetween_int round_nearest_even]; intros H.
  - split; [|lia]. rewrite E. split; [lra|]. intros [T|T]; lra.
  - destruct (Z.even m) eqn:Ev.
    + split; [|lia]. split; [lra|]. intros _. assumption.
    + split; [|lia]. rewrite E. split; [lra|]. intros _.
      rewrite Z.even_add, Ev. reflexivity.
  - split; [|lia]. split; [lra|]. intros [T|T]; lra.
  - split; [|lia]. split; [lra|]. intros [T|T]; lra.
Qed.

Lemma inbetween_int_bounds m x l :
  inbetween_int m x l -> (inject_Z m <= x /\ x < inject_Z m + 1)%Q.
Proof. destruct l as [|[| |]]; cbn; intros; lra. Qed.

Lemma fexp_normal e : -1021 <= e -> fexp prec emax e = e - 53.
Proof. intros. unfold fexp, emin, prec, emax. lia. Qed.

Lemma pow2_split a b : 0 <= a -> 0 <= b -> 2 ^ (a + b) = 2 ^ a * 2 ^ b.
Proof. intros. apply Z.pow_add_r; assumption. Qed.

(** The rounding step shared by all operations, in the normal range. *)
Lemma binary_round_aux_correct s p ex lx x d :
  Z.pos (digits2_pos p) = d -> 53 <= d ->
  inbetween_int (Z.pos p) x lx ->
  -1074 <= ex + d - 53 < 971 ->
  exists m e,
    binary_round_aux prec emax s (Z.pos p) ex lx = S754_finite s m e /\
    Z.pos (digits2_pos m) = 53 /\
    ex + d - 53 <= e <= ex + d - 52 /\
    rounds_to (x * bpow ex) (inject_Z (Z.pos m) * bpow e).
Proof.
  intros Hd Hd53 Hx He.
  pose proof (digits2_pos_bounds p) as Hp. rewrite Hd in Hp.
  unfold binary_round_aux, shr_fexp.
  cbn [Zdigits2]. rewrite Hd.
  rewrite fexp_normal by lia.
  replace (d + ex - 53 - ex) with (d - 53) by lia.
  assert (Hrec : inbetween_rec (shr_record_of_loc (Z.pos p) lx) x).
  { unfold inbetween_rec. rewrite shr_m_of_loc, loc_of_shr_record_of_loc. assumption. }
  assert (Hm0 : 0 <= shr_m (shr_record_of_loc (Z.pos p) lx)).
  { rewrite shr_m_of_loc. lia. }
  destruct (shr_spec _ ex (d - 53) x ltac:(lia) Hm0 Hrec) as (H1 & M1 & E1).
  destruct (shr (shr_record_of_loc (Z.pos p) lx) ex (d - 53)) as [mrs1 e1].
  cbn [fst snd] in H1, M1, E1. rewrite shr_m_of_loc in M1.
  set (x1 := (x * bpow (- (d - 53)))%Q) in *.
  assert (Hm1 : 2 ^ 52 <= shr_m mrs1 < 2 ^ 53).
  { rewrite M1. split.
    - apply Z.div_le_lower_bound; [apply Z.pow_pos_nonneg; lia|].
      rewrite <- pow2_split by lia. replace (d - 53 + 52) with (d - 1) by lia. lia.
    - apply Z.div_lt_upper_bound; [apply Z.pow_pos_nonneg; lia|].
      rewrite <- pow2_split by lia. replace (d - 53 + 53) with d by lia. lia. }
  destruct (round_nearest_even_spec mrs1 x1 H1) as [Hn Hnb].
  set (n := round_nearest_even (shr_m mrs1) (loc_of_shr_record mrs1)) in *.
  destruct (inbetween_int_bounds _ _ _ H1) as [Lx1 Ux1].
  assert (Hx1 : (inject_Z (2 ^ 52) <= x1 /\ x1 < inject_Z (2 ^ 53))%Q).
  { destruct Hm1 as [A B]. rewrite Zle_Qle in A.
    assert (B' : shr_m mrs1 + 1 <= 2 ^ 53) by lia.
    rewrite Zle_Qle, inject_Z_plus in B'. change (inject_Z 1) with 1%Q in B'.
    split; lra. }
  assert (Hv : (x * bpow ex == x1 * bpow e1)%Q).
  { unfold x1. rewrite <- Qmult_assoc, <- bpow_add.
    replace (- (d - 53) + e1) with ex by lia. reflexivity. }
  destruct (Z.eq_dec n (2 ^ 53)) as [Hn53 | Hn53].
  - (* the mantissa reached 2^53: one more shift *)
    rewrite Hn53.
    change (Zdigits2 (2 ^ 53)) with 54.
    rewrite fexp_normal by lia.
    replace (54 + e1 - 53 - e1) with 1 by lia.
    cbn [shr shr_record_of_loc SpecFloat.iter_pos shr_1 shr_m Z.pow Z.pow_pos
         Pos.iter Z.mul Pos.mul].
    replace (e1 + 1 <=? emax - prec) with true
      by (symmetry; apply Z.leb_le; unfold emax, prec; lia).
    eexists _, _. split; [reflexivity|].
    split; [reflexivity|]. split; [lia|].
    exists e1, n, x1.
    split; [assumption|]. split; [assumption|]. split; [assumption|].
    replace n with (2 ^ 53). rewrite bpow_succ.
    change (inject_Z (2 ^ 53)) with (2 * inject_Z (2 ^ 52))%Q.
    change (Z.pos 4503599627370496) with (2 ^ 52). ring.
  - assert (Hn' : 2 ^ 52 <= n < 2 ^ 53) by lia.
    destruct n as [|q|q] eqn:En; try lia.
    assert (Hdq : Z.pos (digits2_pos q) = 53) by (apply digits2_pos_unique; lia).
    cbn [Zdigits2]. rewrite Hdq.
    rewrite fexp_normal by lia.
    replace (53 + e1 - 53 - e1) with 0 by lia.
    cbn [shr shr_record_of_loc shr_m].
    replace (e1 <=? emax - prec) with true
      by (symmetry; apply Z.leb_le; unfold emax, prec; lia).
    exists q, e1. split; [reflexivity|]. split; [assumption|]. split; [lia|].
    exists e1, (Z.pos q), x1.
    split; [assumption|]. split; [assumption|]. split; [assumption|]. reflexivity.
Qed.

(** *** Conversion from integers *)

Lemma Pos_iter_xO p k : Z.pos (Pos.iter xO p k) = Z.pos p * 2 ^ Z.pos k.
Proof.
  induction k as [|k IH] using Pos.peano_ind.
  - cbn [Pos.iter]. rewrite (Pos2Z.inj_xO p). change (2 ^ 1) with 2. lia.
  - rewrite Pos.iter_succ, (Pos2Z.inj_xO (Pos.iter xO p k)), IH, Pos2Z.inj_succ.
    rewrite Z.pow_succ_r by lia. lia.
Qed.

Lemma digits2_pos_le_64 p : Z.pos p < 2 ^ 64 -> 1 <= Z.pos (digits2_pos p) <= 64.
Proof.
  intros H. pose proof (digits2_pos_bounds p) as [L U].
  split; [lia|].
  destruct (Z_le_gt_dec (Z.pos (digits2_pos p)) 64); [assumption|exfalso].
  assert (2 ^ 64 <= 2 ^ (Z.pos (digits2_pos p) - 1)) by (apply Z.pow_le_mono_r; lia).
  lia.
Qed.

Lemma binary_round_int_correct s p :
  Z.pos p < 2 ^ 64 ->
  exists m e,
    binary_round prec emax s p 0 = S754_finite s m e /\
    Z.pos (digits2_pos m) = 53 /\ -52 <= e <= 12 /\
    rounds_to (inject_Z (Z.pos p)) (inject_Z (Z.pos m) * bpow e).
Proof.
  intros Hp. pose proof (digits2_pos_le_64 p Hp) as Hd.
  pose proof (digits2_pos_bounds p) as Hb.
  set (d := Z.pos (digits2_pos p)) in *.
  unfold binary_round, shl_align.
  rewrite Z.add_0_r. fold d. rewrite fexp_normal by lia.
  rewrite Z.sub_0_r.
  destruct (d - 53) as [|k|k] eqn:Ek.
  - destruct (binary_round_aux_correct s p 0 loc_Exact (inject_Z (Z.pos p)) d)
      as (m & e & R & D & E & H); try reflexivity; try lia.
    exists m, e. split; [exact R|]. split; [exact D|]. split; [lia|].
    destruct H as (e0 & n & x & Hv & Hx & Hn & Hr).
    exists e0, n, x. split; [|auto]. rewrite <- Hv. change (bpow 0) with 1%Q. ring.
  - destruct (binary_round_aux_correct s p 0 loc_Exact (inject_Z (Z.pos p)) d)
      as (m & e & R & D & E & H); try reflexivity; try lia.
    exists m, e. split; [exact R|]. split; [exact D|]. split; [lia|].
    destruct H as (e0 & n & x & Hv & Hx & Hn & Hr).
    exists e0, n, x. split; [|auto]. rewrite <- Hv. change (bpow 0) with 1%Q. ring.
  - pose proof (Pos_iter_xO p k) as Hk.
    assert (Hdk : Z.pos (digits2_pos (Pos.iter xO p k)) = 53).
    { apply digits2_pos_unique. rewrite Hk.
      replace 53 with (d + Z.pos k) by lia.
      replace (d + Z.pos k - 1) with (d - 1 + Z.pos k) by lia.
      rewrite !pow2_split by lia.
      assert (0 < 2 ^ Z.pos k) by (apply Z.pow_pos_nonneg; lia). nia. }
    destruct (binary_round_aux_correct s (Pos.iter xO p k) (d - 53) loc_Exact
                (inject_Z (Z.pos (Pos.iter xO p k))) 53)
      as (m & e & R & D & E & H); try reflexivity; try assumption; try lia.
    rewrite Ek in R.
    exists m, e. split; [exact R|]. split; [exact D|]. split; [lia|].
    destruct H as (e0 & n & x & Hv & Hx & Hn & Hr).
    exists e0, n, x. split; [|auto]. rewrite <- Hv.
    rewrite Hk, inject_Z_mult, <- Qmult_assoc.
    rewrite <- bpow_inject by lia. rewrite <- bpow_add.
    replace (Z.pos k + (d - 53)) with 0 by lia. change (bpow 0) with 1%Q. ring.
Qed.

(** *** Multiplication *)

Lemma digits2_pos_mul mx my :
  Z.pos (digits2_pos mx) = 53 -> Z.pos (digits2_pos my) = 53 ->
  105 <= Z.pos (digits2_pos (mx * my)) <= 106.
Proof.
  intros Hx Hy.
  pose proof (digits2_pos_bounds mx) as Bx. rewrite Hx in Bx.
  pose proof (digits2_pos_bounds my) as By. rewrite Hy in By.
  pose proof (digits2_pos_bounds (mx * my)) as B.
  rewrite Pos2Z.inj_mul in B.
  set (d := Z.pos (digits2_pos (mx * my))) in *.
  assert (0 < d) by (unfold d; lia).
  assert (L : 2 ^ 104 <= Z.pos mx * Z.pos my).
  { change (2 ^ 104) with (2 ^ 52 * 2 ^ 52). change (53 - 1) with 52 in *. nia. }
  assert (U : Z.pos mx * Z.pos my < 2 ^ 106).
  { change (2 ^ 106) with (2 ^ 53 * 2 ^ 53). nia. }
  split.
  - destruct (Z_le_gt_dec 105 d); [assumption|exfalso].
    assert (2 ^ d <= 2 ^ 104) by (apply Z.pow_le_mono_r; lia). lia.
  - destruct (Z_le_gt_dec d 106); [assumption|exfalso].
    assert (2 ^ 106 <= 2 ^ (d - 1)) by (apply Z.pow_le_mono_r; lia). lia.
Qed.

Lemma SFmul_correct sx mx ex sy my ey :
  Z.pos (digits2_pos mx) = 53 -> Z.pos (digits2_pos my) = 53 ->
  -1126 <= ex + ey < 865 ->
  exists m e,
    SFmul prec emax (S754_finite sx mx ex) (S754_finite sy my ey)
      = S754_finite (xorb sx sy) m e /\
    Z.pos (digits2_pos m) = 53 /\
    ex + ey + 52 <= e <= ex + ey + 54 /\
    rounds_to ((inject_Z (Z.pos mx) * bpow ex) * (inject_Z (Z.pos my) * bpow ey))
              (inject_Z (Z.pos m) * bpow e).
Proof.
  intros Hx Hy He. cbn [SFmul].
  pose proof (digits2_pos_mul mx my Hx Hy) as Hd.
  destruct (binary_round_aux_correct (xorb sx sy) (mx * my) (ex + ey) loc_Exact
              (inject_Z (Z.pos (mx * my))) (Z.pos (digits2_pos (mx * my))))
    as (m & e & R & D & E & H); try reflexivity; try lia.
  exists m, e. split; [exact R|]. split; [exact D|]. split; [lia|].
  destruct H as (e0 & n & x & Hv & Hxx & Hn & Hr).
  exists e0, n, x. split; [|auto]. rewrite <- Hv.
  rewrite Pos2Z.inj_mul, inject_Z_mult, bpow_add. ring.
Qed.

(** *** Division *)

Lemma inject_Z_pos_gt0 p : (0 < inject_Z (Z.pos p))%Q.
Proof. change 0%Q with (inject_Z 0). rewrite <- Zlt_Qlt. lia. Qed.

Lemma new_location_correct nb q r x :
  0 < nb -> 0 <= r < nb ->
  (x * inject_Z nb == inject_Z (q * nb + r))%Q ->
  inbetween_int q x (new_location nb r).
Proof.
  intros Hnb Hr Hx.
  assert (Pnb : (0 < inject_Z nb)%Q).
  { change 0%Q with (inject_Z 0). rewrite <- Zlt_Qlt. assumption. }
  rewrite inject_Z_plus, inject_Z_mult in Hx.
  set (f := (x - inject_Z q)%Q).
  assert (Hf : (f * inject_Z nb == inject_Z r)%Q) by (unfold f; lra).
  assert (cmp_lt : forall a b : Z, a * r < b * nb -> (inject_Z a * f < inject_Z b)%Q).
  { intros a b H. apply Qmult_lt_r with (z := inject_Z nb); [assumption|].
    rewrite <- Qmult_assoc, Hf, <- !inject_Z_mult, <- Zlt_Qlt. assumption. }
  assert (cmp_gt : forall a b : Z, b * nb < a * r -> (inject_Z b < inject_Z a * f)%Q).
  { intros a b H. apply Qmult_lt_r with (z := inject_Z nb); [assumption|].
    rewrite <- Qmult_assoc, Hf, <- !inject_Z_mult, <- Zlt_Qlt. assumption. }
  assert (cmp_eq : forall a b : Z, b * nb = a * r -> (inject_Z b == inject_Z a * f)%Q).
  { intros a b H. apply Qmult_inj_r with (z := inject_Z nb); [lra|].
    rewrite <- Qmult_assoc, Hf, <- !inject_Z_mult, H. reflexivity. }
  assert (F1 : 0 < r -> (0 < f)%Q).
  { intros H. pose proof (cmp_gt 1 0 ltac:(lia)) as G. Qliterals. lra. }
  assert (F2 : (f < 1)%Q).
  { pose proof (cmp_lt 1 1 ltac:(lia)) as G. Qliterals. lra. }
  assert (F0 : r = 0 -> (f == 0)%Q).
  { intros H. pose proof (cmp_eq 1 0 ltac:(lia)) as G. Qliterals. lra. }
  pose proof (cmp_eq 2 1) as Geq. pose proof (cmp_lt 2 1) as Glt.
  pose proof (cmp_gt 2 1) as Ggt.
  Qliterals. unfold new_location.
  destruct (Z.even nb) eqn:Ev.
  - unfold new_location_even.
    destruct (Z.eqb_spec r 0) as [R0 | R0].
    + specialize (F0 R0). cbn [inbetween_int]. unfold f in *. lra.
    + specialize (F1 ltac:(lia)).
      destruct (Z.compare_spec (2 * r) nb) as [C|C|C]; cbn [inbetween_int].
      * specialize (Geq ltac:(lia)). unfold f in *; lra.
      * specialize (Glt ltac:(lia)). unfold f in *; lra.
      * specialize (Ggt ltac:(lia)). unfold f in *; lra.
  - unfold new_location_odd.
    destruct (Z.eqb_spec r 0) as [R0 | R0].
    + specialize (F0 R0). cbn [inbetween_int]. unfold f in *. lra.
    + specialize (F1 ltac:(lia)).
      assert (Hodd : 2 * r <> nb).
      { intros E. rewrite <- E, Z.even_mul in Ev. discriminate. }
      destruct (Z.compare_spec (2 * r + 1) nb) as [C|C|C]; cbn [inbetween_int].
      * specialize (Glt ltac:(lia)). unfold f in *; lra.
      * specialize (Glt ltac:(lia)). unfold f in *; lra.
      * specialize (Ggt ltac:(lia)). unfold f in *; lra.
Qed.

Lemma bpow_opp e : (bpow (- e) * bpow e == 1)%Q.
Proof. rewrite <- bpow_add. replace (- e + e) with 0 by lia. reflexivity. Qed.

Lemma SFdiv_correct sx mx ex sy my ey :
  Z.pos (digits2_pos mx) = 53 -> Z.pos (digits2_pos my) = 53 ->
  -1021 <= ex - ey < 1021 ->
  exists m e,
    SFdiv prec emax (S754_finite sx mx ex) (S754_finite sy my ey)
      = S754_finite (xorb sx sy) m e /\
    Z.pos (digits2_pos m) = 53 /\
    ex - ey - 53 <= e <= ex - ey - 51 /\
    rounds_to ((inject_Z (Z.pos mx) * bpow ex) / (inject_Z (Z.pos my) * bpow ey))
              (inject_Z (Z.pos m) * bpow e).
Proof.
  intros Hx Hy He. cbn [SFdiv]. unfold SFdiv_core_binary.
  cbn [Zdigits2]. rewrite Hx, Hy.
  replace (53 + ex - (53 + ey)) with (ex - ey) by lia.
  rewrite fexp_normal by lia.
  replace (Z.min (ex - ey - 53) (ex - ey)) with (ex - ey - 53) by lia.
  replace (ex - ey - (ex - ey - 53)) with 53 by lia.
  rewrite Z.shiftl_mul_pow2 by lia.
  pose proof (digits2_pos_bounds mx) as Bx. rewrite Hx in Bx.
  pose proof (digits2_pos_bounds my) as By. rewrite Hy in By.
  change (53 - 1) with 52 in *.
  pose proof (Z.div_eucl_eq (Z.pos mx * 2 ^ 53) (Z.pos my) ltac:(lia)) as Hqr.
  pose proof (Z.mod_pos_bound (Z.pos mx * 2 ^ 53) (Z.pos my) ltac:(lia)) as Hrb.
  unfold Z.modulo in Hrb.
  destruct (Z.div_eucl (Z.pos mx * 2 ^ 53) (Z.pos my)) as [q r].
  assert (Hq : 2 ^ 52 <= q < 2 ^ 54).
  { change (2 ^ 54) with (2 * 2 ^ 53) in *. split; nia. }
  destruct q as [|q|q]; try lia.
  set (x := (inject_Z (Z.pos mx * 2 ^ 53) / inject_Z (Z.pos my))%Q).
  assert (Hloc : inbetween_int (Z.pos q) x (new_location (Z.pos my) r)).
  { apply new_location_correct; [lia|assumption|].
    unfold x. rewrite Hqr. rewrite (Z.mul_comm (Z.pos my)).
    field. pose proof (inject_Z_pos_gt0 my). lra. }
  assert (Hdq : 53 <= Z.pos (digits2_pos q) <= 54).
  { pose proof (digits2_pos_bounds q) as B.
    set (d := Z.pos (digits2_pos q)) in *.
    assert (0 < d) by (unfold d; lia).
    split.
    - destruct (Z_le_gt_dec 53 d); [assumption|exfalso].
      assert (2 ^ d <= 2 ^ 52) by (apply Z.pow_le_mono_r; lia). lia.
    - destruct (Z_le_gt_dec d 54); [assumption|exfalso].
      assert (2 ^ 54 <= 2 ^ (d - 1)) by (apply Z.pow_le_mono_r; lia). lia. }
  destruct (binary_round_aux_correct (xorb sx sy) q (ex - ey - 53)
              (new_location (Z.pos my) r) x (Z.pos (digits2_pos q)))
    as (m & e & R & D & E & H); try reflexivity; try assumption; try lia.
  exists m, e. split; [exact R|]. split; [exact D|]. split; [lia|].
  destruct H as (e0 & n & x0 & Hv & Hxx & Hn & Hr).
  exists e0, n, x0. split; [|auto]. rewrite <- Hv.
  unfold x. rewrite inject_Z_mult.
  replace (ex - ey - 53) with (ex + (- ey + -53)) by lia.
  rewrite !bpow_add.
  pose proof (bpow_opp ey) as Oy. pose proof (bpow_pos ey) as Py.
  pose proof (inject_Z_pos_gt0 my) as Pm.
  change (bpow (-53)) with (/ inject_Z (2 ^ 53))%Q.
  assert (Ey : (bpow (- ey) == / bpow ey)%Q).
  { apply Qmult_inj_r with (z := bpow ey); [lra|]. rewrite Oy. field. lra. }
  rewrite Ey. field. split; [|split; lra].
  change (inject_Z (2 ^ 53)) with (9007199254740992 # 1)%Q. lra.
Qed.

(** *** The operations on positive floats *)




Lemma rounds_to_ext v v' r r' :
  (v == v')%Q -> (r == r')%Q -> rounds_to v r -> rounds_to v' r'.
Proof.
  intros Ev Er (e & n & x & Hv & Hx & Hn & Hr).
  exists e, n, x. rewrite <- Ev, <- Er. auto.
Qed.

Lemma pos_normal_pos z lo hi : pos_normal z lo hi -> (0 < SF2Q z)%Q.
Proof.
  intros (m & e & -> & _ & _). cbn [SF2Q cond_Zopp].
  apply Qmult_lt_0_compat; [apply inject_Z_pos_gt0 | apply bpow_pos].
Qed.

Lemma pos_normal_weaken z lo hi lo' hi' :
  pos_normal z lo hi -> lo' <= lo -> hi <= hi' -> pos_normal z lo' hi'.
Proof.
  intros (m & e & H & D & E) L U. exists m, e. repeat split; try assumption; lia.
Qed.

Lemma of_int_pos_normal n :
  0 < n < 2 ^ 64 ->
  pos_normal (of_int n) (-52) 12 /\ rounds_to (inject_Z n) (SF2Q (of_int n)).
Proof.
  intros Hn. destruct n as [|p|p]; try lia.
  unfold of_int. cbn [binary_normalize].
  destruct (binary_round_int_correct false p ltac:(lia)) as (m & e & R & D & E & H).
  rewrite R. split; [|exact H].
  exists m, e. repeat split; try assumption; try lia.
Qed.

Lemma div_pos_normal x y lx hx ly hy :
  pos_normal x lx hx -> pos_normal y ly hy ->
  -1021 <= lx - hy -> hx - ly < 1021 ->
  pos_normal (Float64.div x y) (lx - hy - 53) (hx - ly - 51) /\
  rounds_to (SF2Q x / SF2Q y) (SF2Q (Float64.div x y)).
Proof.
  intros (mx & ex & -> & Dx & Ex) (my & ey & -> & Dy & Ey) L U.
  destruct (SFdiv_correct false mx ex false my ey Dx Dy ltac:(lia))
    as (m & e & R & D & E & H).
  unfold Float64.div. rewrite R. split; [|exact H].
  exists m, e. repeat split; try assumption; try lia.
Qed.

Lemma mul_pos_normal x y lx hx ly hy :
  pos_normal x lx hx -> pos_normal y ly hy ->
  -1126 <= lx + ly -> hx + hy < 865 ->
  pos_normal (Float64.mul x y) (lx + ly + 52) (hx + hy + 54) /\
  rounds_to (SF2Q x * SF2Q y) (SF2Q (Float64.mul x y)).
Proof.
  intros (mx & ex & -> & Dx & Ex) (my & ey & -> & Dy & Ey) L U.
  destruct (SFmul_correct false mx ex false my ey Dx Dy ltac:(lia))
    as (m & e & R & D & E & H).
  unfold Float64.mul. rewrite R. split; [|exact H].
  exists m, e. repeat split; try assumption; try lia.
Qed.

(** *** The integer part *)

Lemma shiftl_floor m e :
  (inject_Z (Z.shiftl (Z.pos m) e) <= inject_Z (Z.pos m) * bpow e /\
   inject_Z (Z.pos m) * bpow e < inject_Z (Z.shiftl (Z.pos m) e) + 1)%Q.
Proof.
  destruct (Z_le_gt_dec 0 e) as [He | He].
  - rewrite Z.shiftl_mul_pow2 by assumption.
    rewrite inject_Z_mult, bpow_inject by assumption. split; lra.
  - rewrite Z.shiftl_div_pow2 by lia.
    set (k := - e). assert (Hk : 0 < k) by (unfold k; lia).
    assert (P : 0 < 2 ^ k) by (apply Z.pow_pos_nonneg; lia).
    pose proof (Z.div_mod (Z.pos m) (2 ^ k) ltac:(lia)) as Hdm.
    pose proof (Z.mod_pos_bound (Z.pos m) (2 ^ k) P) as Hmb.
    set (t := Z.pos m / 2 ^ k) in *. set (r := Z.pos m mod 2 ^ k) in *.
    assert (Eb : (bpow e * inject_Z (2 ^ k) == 1)%Q).
    { rewrite <- bpow_inject by lia. rewrite <- bpow_add.
      replace (e + k) with 0 by (unfold k; lia). reflexivity. }
    pose proof (bpow_pos e) as Pe.
    assert (Em : (inject_Z (Z.pos m) * bpow e == inject_Z t + inject_Z r * bpow e)%Q).
    { rewrite Hdm, inject_Z_plus, inject_Z_mult.
      rewrite Qmult_plus_distr_l.
      setoid_replace (inject_Z (2 ^ k) * inject_Z t * bpow e)%Q
        with (inject_Z t * (bpow e * inject_Z (2 ^ k)))%Q by ring.
      rewrite Eb. ring. }
    assert (R0 : (0 <= inject_Z r * bpow e)%Q).
    { apply Qmult_le_0_compat; [|lra]. change 0%Q with (inject_Z 0).
      rewrite <- Zle_Qle. lia. }
    assert (R1 : (inject_Z r * bpow e < 1)%Q).
    { rewrite <- Eb. rewrite (Qmult_comm (bpow e)).
      apply Qmult_lt_compat_r; [assumption|]. rewrite <- Zlt_Qlt. lia. }
    rewrite Em. split; lra.
Qed.

Lemma trunc_pos_normal z lo hi :
  pos_normal z lo hi ->
  exists t, trunc z = Some t /\ 0 <= t /\
            (inject_Z t <= SF2Q z /\ SF2Q z < inject_Z t + 1)%Q.
Proof.
  intros (m & e & -> & D & E).
  exists (Z.shiftl (Z.pos m) e). cbn [trunc cond_Zopp SF2Q].
  split; [reflexivity|]. split.
  - apply Z.shiftl_nonneg. lia.
  - apply shiftl_floor.
Qed.

Lemma floor_mono t1 t2 r1 r2 :
  (inject_Z t1 <= r1)%Q -> (r2 < inject_Z t2 + 1)%Q -> (r1 <= r2)%Q -> t1 <= t2.
Proof.
  intros H1 H2 H.
  destruct (Z_le_gt_dec t1 t2); [assumption|exfalso].
  assert (inject_Z t2 + 1 <= inject_Z t1)%Q by (apply inject_Z_succ_le; lia). lra.
Qed.

(** *** The quotient scaled by a constant *)

Lemma ratio_pos_normal n mx :
  0 < n < 2 ^ 64 -> 0 < mx < 2 ^ 64 ->
  pos_normal (ratio n mx) (-117) 13 /\
  rounds_to (SF2Q (of_int n) / SF2Q (of_int mx)) (SF2Q (ratio n mx)).
Proof.
  intros Hn Hm.
  destruct (of_int_pos_normal n Hn) as [Nn _].
  destruct (of_int_pos_normal mx Hm) as [Nm _].
  destruct (div_pos_normal _ _ _ _ _ _ Nn Nm ltac:(lia) ltac:(lia)) as [N R].
  split; [|exact R]. eapply pos_normal_weaken; [exact N | lia | lia].
Qed.

Lemma scaled_pos_normal n mx c :
  0 < n < 2 ^ 64 -> 0 < mx < 2 ^ 64 -> 0 < c < 2 ^ 64 ->
  pos_normal (scaled n mx c) (-117) 79 /\
  rounds_to (SF2Q (ratio n mx) * SF2Q (of_int c)) (SF2Q (scaled n mx c)).
Proof.
  intros Hn Hm Hc.
  destruct (ratio_pos_normal n mx Hn Hm) as [Nr _].
  destruct (of_int_pos_normal c Hc) as [Nc _].
  destruct (mul_pos_normal _ _ _ _ _ _ Nr Nc ltac:(lia) ltac:(lia)) as [N R].
  split; [|exact R]. eapply pos_normal_weaken; [exact N | lia | lia].
Qed.

Lemma of_int_mono a b :
  0 < a <= b -> b < 2 ^ 64 -> (SF2Q (of_int a) <= SF2Q (of_int b))%Q.
Proof.
  intros Ha Hb.
  destruct (of_int_pos_normal a ltac:(lia)) as [_ Ra].
  destruct (of_int_pos_normal b ltac:(lia)) as [_ Rb].
  apply (rounds_to_mono _ _ _ _ Ra Rb). rewrite <- Zle_Qle. lia.
Qed.

Lemma Qdiv_le_compat_r a b c : (0 < c)%Q -> (a <= b)%Q -> (a / c <= b / c)%Q.
Proof.
  intros Hc H. unfold Qdiv. apply Qmult_le_compat_r; [assumption|].
  apply Qlt_le_weak, Qinv_lt_0_compat. assumption.
Qed.

Lemma ratio_mono a b mx :
  0 < a <= b -> b < 2 ^ 64 -> 0 < mx < 2 ^ 64 ->
  (SF2Q (ratio a mx) <= SF2Q (ratio b mx))%Q.
Proof.
  intros Ha Hb Hm.
  destruct (ratio_pos_normal a mx ltac:(lia) Hm) as [_ Ra].
  destruct (ratio_pos_normal b mx ltac:(lia) Hm) as [_ Rb].
  destruct (of_int_pos_normal mx Hm) as [Nm _].
  apply (rounds_to_mono _ _ _ _ Ra Rb).
  apply Qdiv_le_compat_r; [eapply pos_normal_pos; exact Nm|].
  apply of_int_mono; assumption.
Qed.

Lemma scaled_mono a b mx c :
  0 < a <= b -> b < 2 ^ 64 -> 0 < mx < 2 ^ 64 -> 0 < c < 2 ^ 64 ->
  (SF2Q (scaled a mx c) <= SF2Q (scaled b mx c))%Q.
Proof.
  intros Ha Hb Hm Hc.
  destruct (scaled_pos_normal a mx c ltac:(lia) Hm Hc) as [_ Ra].
  destruct (scaled_pos_normal b mx c ltac:(lia) Hm Hc) as [_ Rb].
  destruct (of_int_pos_normal c Hc) as [Nc _].
  apply (rounds_to_mono _ _ _ _ Ra Rb).
  apply Qmult_le_compat_r; [apply ratio_mono; assumption|].
  apply Qlt_le_weak. eapply pos_normal_pos; exact Nc.
Qed.

(** Integers up to 2^53 convert exactly. *)
Lemma int_representable c :
  0 < c <= 2 ^ 53 -> rounds_to (inject_Z c) (inject_Z c).
Proof.
  intros Hc. destruct (Z.eq_dec c (2 ^ 53)) as [-> | Hne].
  - eapply rounds_to_ext; [| | apply (rounds_to_representable (2 ^ 52) 1); lia];
      change (bpow 1) with 2%Q; change (inject_Z (2 ^ 53)) with (inject_Z (2 ^ 52) * 2)%Q;
      reflexivity.
  - destruct c as [|p|p]; try lia.
    pose proof (digits2_pos_bounds p) as B.
    set (d := Z.pos (digits2_pos p)) in *.
    assert (0 < d) by (unfold d; lia).
    assert (d <= 53).
    { destruct (Z_le_gt_dec d 53); [assumption|exfalso].
      assert (2 ^ 53 <= 2 ^ (d - 1)) by (apply Z.pow_le_mono_r; lia). lia. }
    assert (E : (inject_Z (Z.pos p) == inject_Z (Z.pos p * 2 ^ (53 - d)) * bpow (d - 53))%Q).
    { rewrite inject_Z_mult, <- bpow_inject by lia.
      rewrite <- Qmult_assoc, <- bpow_add.
      replace (53 - d + (d - 53)) with 0 by lia. change (bpow 0) with 1%Q. ring. }
    eapply rounds_to_ext; [symmetry; exact E | symmetry; exact E |].
    apply rounds_to_representable.
    assert (P : 0 < 2 ^ (53 - d)) by (apply Z.pow_pos_nonneg; lia).
    replace (2 ^ 52) with (2 ^ (d - 1) * 2 ^ (53 - d))
      by (rewrite <- pow2_split by lia; f_equal; lia).
    replace (2 ^ 53) with (2 ^ d * 2 ^ (53 - d))
      by (rewrite <- pow2_split by lia; f_equal; lia).
    nia.
Qed.

Lemma of_int_exact c : 0 < c <= 2 ^ 53 -> (SF2Q (of_int c) == inject_Z c)%Q.
Proof.
  intros Hc. destruct (of_int_pos_normal c ltac:(lia)) as [_ R].
  apply (rounds_to_unique (inject_Z c)); [exact R | apply int_representable; exact Hc].
Qed.

Lemma ratio_le_1 n mx :
  0 < n <= mx -> mx < 2 ^ 64 -> (SF2Q (ratio n mx) <= 1)%Q.
Proof.
  intros Hn Hm.
  destruct (ratio_pos_normal n mx ltac:(lia) ltac:(lia)) as [_ R].
  destruct (of_int_pos_normal mx ltac:(lia)) as [Nm _].
  pose proof (pos_normal_pos _ _ _ Nm) as Pm.
  pose proof (of_int_mono n mx Hn Hm) as Hle.
  change 1%Q with (inject_Z 1).
  apply (rounds_to_mono _ _ _ _ R (int_representable 1 ltac:(lia))).
  change (inject_Z 1) with 1%Q.
  apply Qle_shift_div_r; [assumption|]. lra.
Qed.

Lemma scaled_le_c n mx c :
  0 < n <= mx -> mx < 2 ^ 64 -> 0 < c <= 2 ^ 53 ->
  (SF2Q (scaled n mx c) <= inject_Z c)%Q.
Proof.
  intros Hn Hm Hc.
  destruct (scaled_pos_normal n mx c ltac:(lia) ltac:(lia) ltac:(lia)) as [_ R].
  pose proof (ratio_le_1 n mx Hn Hm) as H1.
  pose proof (of_int_exact c Hc) as Ec.
  destruct (of_int_pos_normal c ltac:(lia)) as [Nc _].
  pose proof (pos_normal_pos _ _ _ Nc) as Pc.
  apply (rounds_to_mono _ _ _ _ R (int_representable c Hc)).
  rewrite <- Ec.
  setoid_replace (SF2Q (of_int c)) with (1 * SF2Q (of_int c))%Q at 2 by ring.
  apply Qmult_le_compat_r; lra.
Qed.

Lemma ratio_full mx : 0 < mx < 2 ^ 64 -> (SF2Q (ratio mx mx) == 1)%Q.
Proof.
  intros Hm.
  destruct (ratio_pos_normal mx mx Hm Hm) as [_ R].
  destruct (of_int_pos_normal mx Hm) as [Nm _].
  pose proof (pos_normal_pos _ _ _ Nm) as Pm.
  apply (rounds_to_unique 1).
  - eapply rounds_to_ext; [| reflexivity | exact R]. field. lra.
  - apply (int_representable 1). lia.
Qed.

Lemma scaled_full mx c :
  0 < mx < 2 ^ 64 -> 0 < c <= 2 ^ 53 -> (SF2Q (scaled mx mx c) == inject_Z c)%Q.
Proof.
  intros Hm Hc.
  destruct (scaled_pos_normal mx mx c Hm Hm ltac:(lia)) as [_ R].
  apply (rounds_to_unique (inject_Z c)).
  - eapply rounds_to_ext; [| reflexivity | exact R].
    rewrite (ratio_full mx Hm), (of_int_exact c Hc). ring.
  - apply int_representable. exact Hc.
Qed.

(** ** Integers and conversions *)

Lemma in_range_iff z :
  GoInt.in_range z = true <-> - 2 ^ 63 <= z <= 2 ^ 63 - 1.
Proof.
  unfold GoInt.in_range, GoInt.min_int, GoInt.max_int.
  rewrite andb_true_iff, !Z.leb_le. reflexivity.
Qed.

Lemma wrap_in_range z : GoInt.in_range (GoInt.wrap z) = true.
Proof.
  apply in_range_iff. unfold GoInt.wrap.
  pose proof (Z.mod_pos_bound (z + 2 ^ 63) (2 ^ 64) ltac:(lia)).
  change (2 ^ 64) with (2 * 2 ^ 63) in *. lia.
Qed.

Lemma wrap_id z : GoInt.in_range z = true -> GoInt.wrap z = z.
Proof.
  intros H. apply in_range_iff in H. unfold GoInt.wrap.
  rewrite Z.mod_small; [lia|]. change (2 ^ 64) with (2 * 2 ^ 63). lia.
Qed.

Lemma of_int_finite n :
  n <> 0 -> - 2 ^ 64 < n < 2 ^ 64 ->
  exists s m e, of_int n = S754_finite s m e.
Proof.
  intros Hn Hr. unfold of_int. destruct n as [|p|p]; [lia| |]; cbn [binary_normalize].
  - destruct (binary_round_int_correct false p ltac:(lia)) as (m & e & R & _).
    eauto.
  - destruct (binary_round_int_correct true p ltac:(lia)) as (m & e & R & _).
    eauto.
Qed.

Lemma of_int_zero_or_finite n :
  - 2 ^ 64 < n < 2 ^ 64 ->
  of_int n = S754_zero false \/ exists s m e, of_int n = S754_finite s m e.
Proof.
  intros Hr. destruct (Z.eq_dec n 0) as [-> | Hn]; [left; reflexivity|].
  right. apply of_int_finite; assumption.
Qed.

Lemma scaled_zero mx c :
  mx <> 0 -> - 2 ^ 64 < mx < 2 ^ 64 -> - 2 ^ 64 < c < 2 ^ 64 ->
  exists s, scaled 0 mx c = S754_zero s.
Proof.
  intros Hm Hmr Hc. unfold scaled, ratio.
  destruct (of_int_finite mx Hm Hmr) as (s & m & e & ->).
  change (of_int 0) with (S754_zero false).
  destruct (of_int_zero_or_finite c Hc) as [-> | (s' & m' & e' & ->)];
    cbn; eauto.
Qed.

Section Conversions.

Context {platform : Platform}.

Lemma to_int_fits x : fits_int x = true -> Some (to_int x) = trunc x.
Proof.
  unfold fits_int, to_int. destruct (trunc x) as [z|]; [|discriminate].
  intros ->. reflexivity.
Qed.

Lemma to_int_zero s : to_int (S754_zero s) = 0.
Proof. reflexivity. Qed.

Lemma to_int_scaled_zero mx c :
  mx <> 0 -> GoInt.in_range mx = true -> GoInt.in_range c = true ->
  to_int (scaled 0 mx c) = 0.
Proof.
  intros Hm Hmr Hc. apply in_range_iff in Hmr, Hc.
  destruct (scaled_zero mx c Hm) as [s ->]; [| |apply to_int_zero].
  - change (2 ^ 64) with (2 * 2 ^ 63). lia.
  - change (2 ^ 64) with (2 * 2 ^ 63). lia.
Qed.

End Conversions.

Lemma trunc_floor_pos_normal z lo hi : pos_normal z lo hi -> trunc z = floor z.
Proof. intros (m & e & -> & _). reflexivity. Qed.

(** In what follows [n] is a count, [mx] the maximum and [c] the width of
    the bar or 100. *)
Lemma scaled_nonneg_cases n mx c :
  0 <= n < 2 ^ 64 -> 0 < mx < 2 ^ 64 -> 0 <= c < 2 ^ 64 ->
  (exists s, scaled n mx c = S754_zero s) \/ pos_normal (scaled n mx c) (-117) 79.
Proof.
  intros Hn Hm Hc.
  destruct (Z.eq_dec n 0) as [-> | Hn0].
  - left. apply scaled_zero; lia.
  - destruct (Z.eq_dec c 0) as [-> | Hc0].
    + left. destruct (ratio_pos_normal n mx ltac:(lia) Hm) as [(m & e & R & _) _].
      unfold scaled. rewrite R. change (of_int 0) with (S754_zero false).
      cbn. eauto.
    + right. apply scaled_pos_normal; lia.
Qed.

Lemma trunc_scaled n mx c :
  0 <= n < 2 ^ 64 -> 0 < mx < 2 ^ 64 -> 0 <= c < 2 ^ 64 ->
  exists t, trunc (scaled n mx c) = Some t /\ floor (scaled n mx c) = Some t /\
            0 <= t /\
            (inject_Z t <= SF2Q (scaled n mx c) /\
             SF2Q (scaled n mx c) < inject_Z t + 1)%Q.
Proof.
  intros Hn Hm Hc.
  destruct (scaled_nonneg_cases n mx c Hn Hm Hc) as [[s E] | N].
  - rewrite E. exists 0. cbn [trunc floor SF2Q]. change (inject_Z 0) with 0%Q.
    split; [reflexivity|]. split; [reflexivity|]. split; [lia|]. split; lra.
  - destruct (trunc_pos_normal _ _ _ N) as (t & T & P & B).
    exists t. rewrite <- (trunc_floor_pos_normal _ _ _ N). auto.
Qed.

Lemma SF2Q_scaled_mono a b mx c :
  0 <= a <= b -> b < 2 ^ 64 -> 0 < mx < 2 ^ 64 -> 0 <= c < 2 ^ 64 ->
  (SF2Q (scaled a mx c) <= SF2Q (scaled b mx c))%Q.
Proof.
  intros Ha Hb Hm Hc.
  destruct (Z.eq_dec c 0) as [-> | Hc0].
  - destruct (scaled_nonneg_cases a mx 0 ltac:(lia) Hm ltac:(lia)) as [[s ->] | N];
      destruct (scaled_nonneg_cases b mx 0 ltac:(lia) Hm ltac:(lia)) as [[s' ->] | N'].
    + cbn. lra.
    + cbn [SF2Q]. apply Qlt_le_weak. eapply pos_normal_pos; exact N'.
    + exfalso. destruct N as (m & e & E & _). revert E. unfold scaled.
      change (of_int 0) with (S754_zero false).
      destruct (ratio a mx) as [| | |[]]; cbn; discriminate.
    + exfalso. destruct N as (m & e & E & _). revert E. unfold scaled.
      change (of_int 0) with (S754_zero false).
      destruct (ratio a mx) as [| | |[]]; cbn; discriminate.
  - destruct (Z.eq_dec a 0) as [-> | Ha0].
    + destruct (scaled_zero mx c ltac:(lia) ltac:(lia) ltac:(lia)) as [s ->].
      destruct (scaled_nonneg_cases b mx c ltac:(lia) Hm Hc) as [[s' ->] | N'].
      * cbn. lra.
      * cbn [SF2Q]. apply Qlt_le_weak. eapply pos_normal_pos; exact N'.
    + apply scaled_mono; lia.
Qed.

Section Percentages.

Context {platform : Platform}.

(** The percentage and the width grow with the count. *)
Lemma to_int_scaled_mono a b mx c :
  0 <= a <= b -> b < 2 ^ 64 -> 0 < mx < 2 ^ 64 -> 0 <= c < 2 ^ 64 ->
  fits_int (scaled b mx c) = true ->
  fits_int (scaled a mx c) = true /\
  0 <= to_int (scaled a mx c) <= to_int (scaled b mx c).
Proof.
  intros Ha Hb Hm Hc Fb.
  pose proof (SF2Q_scaled_mono a b mx c Ha Hb Hm Hc) as Hle.
  destruct (trunc_scaled a mx c ltac:(lia) Hm Hc) as (ta & Ta & _ & Pa & La & Ua).
  destruct (trunc_scaled b mx c ltac:(lia) Hm Hc) as (tb & Tb & _ & Pb & Lb & Ub).
  pose proof (floor_mono ta tb _ _ La Ub Hle) as Hab.
  assert (Rb : GoInt.in_range tb = true).
  { unfold fits_int in Fb. rewrite Tb in Fb. exact Fb. }
  assert (Ra : GoInt.in_range ta = true).
  { apply in_range_iff. apply in_range_iff in Rb. lia. }
  assert (Fa : fits_int (scaled a mx c) = true).
  { unfold fits_int. rewrite Ta. exact Ra. }
  split; [exact Fa|].
  pose proof (to_int_fits _ Fa) as Ea. pose proof (to_int_fits _ Fb) as Eb.
  rewrite Ta in Ea. rewrite Tb in Eb. injection Ea as ->. injection Eb as ->.
  lia.
Qed.

(** Up to the maximum the result stays within [0] and [c], and it is the
    floor of the float. *)
Lemma to_int_scaled_bounds n mx c :
  0 <= n <= mx -> 0 < mx < 2 ^ 64 -> 0 <= c <= 2 ^ 53 ->
  fits_int (scaled n mx c) = true /\
  0 <= to_int (scaled n mx c) <= c /\
  Some (to_int (scaled n mx c)) = floor (scaled n mx c).
Proof.
  intros Hn Hm Hc.
  assert (Hc64 : 0 <= c < 2 ^ 64).
  { change (2 ^ 64) with (2 ^ 11 * 2 ^ 53). lia. }
  destruct (trunc_scaled n mx c ltac:(lia) Hm Hc64) as (t & T & Fl & P & L & U).
  assert (Hv : (SF2Q (scaled n mx c) <= inject_Z c)%Q).
  { destruct (scaled_nonneg_cases n mx c ltac:(lia) Hm Hc64) as [[s E] | N].
    - rewrite E. cbn [SF2Q]. change 0%Q with (inject_Z 0). rewrite <- Zle_Qle. lia.
    - destruct (Z.eq_dec n 0) as [-> | Hn0].
      + exfalso. destruct (scaled_zero mx c ltac:(lia) ltac:(lia) ltac:(lia)) as [s E].
        destruct N as (m & e & E' & _). congruence.
      + destruct (Z.eq_dec c 0) as [-> | Hc0].
        * exfalso. destruct N as (m & e & E & _). revert E. unfold scaled.
          change (of_int 0) with (S754_zero false).
          destruct (ratio n mx) as [| | |[]]; cbn; discriminate.
        * apply scaled_le_c; lia. }
  assert (Htc : t <= c).
  { apply (floor_mono t c (SF2Q (scaled n mx c)) (inject_Z c) L); [lra | exact Hv]. }
  assert (R : GoInt.in_range t = true).
  { apply in_range_iff. change (2 ^ 63) with (2 ^ 10 * 2 ^ 53). lia. }
  assert (F : fits_int (scaled n mx c) = true).
  { unfold fits_int. rewrite T. exact R. }
  pose proof (to_int_fits _ F) as E. rewrite T in E. injection E as ->.
  split; [exact F|]. split; [lia|]. symmetry. exact Fl.
Qed.

(** At the maximum the bar is full. *)
Lemma to_int_scaled_full mx c :
  0 < mx < 2 ^ 64 -> 0 <= c <= 2 ^ 53 -> to_int (scaled mx mx c) = c.
Proof.
  intros Hm Hc.
  assert (Hc64 : 0 <= c < 2 ^ 64).
  { change (2 ^ 64) with (2 ^ 11 * 2 ^ 53). lia. }
  destruct (to_int_scaled_bounds mx mx c ltac:(lia) Hm Hc) as (F & [L U] & _).
  destruct (Z.eq_dec c 0) as [-> | Hc0]; [lia|].
  destruct (trunc_scaled mx mx c ltac:(lia) Hm Hc64) as (t & T & _ & P & Lt & Ut).
  pose proof (to_int_fits _ F) as E. rewrite T in E. injection E as E.
  rewrite E in *.
  rewrite (scaled_full mx c Hm ltac:(lia)) in Ut.
  destruct (Z_le_gt_dec c t); [lia|exfalso].
  assert (inject_Z t + 1 <= inject_Z c)%Q by (apply inject_Z_succ_le; lia). lra.
Qed.

End Percentages.

(** ** The renderer *)

Section Renderer.

Context {W : Type} {writer_W : Writer W} {platform : Platform}.

Lemma time_Since_events t (w : world W) :
  exists w' d, time_Since t w = (w', Returned d) /\ events w' = events w /\
               sinks w' = sinks w.
Proof. unfold time_Since, bind, time_Now, ret. cbn. eauto. Qed.

Lemma io_WriteString_at a s (w : world W) :
  exists w' err, io_WriteString (Writer_at a) s w = (w', Returned err) /\
                 events w' = (events w ++ [ev_WriteString a s])%list.
Proof.
  cbn [io_WriteString]. destruct (WriteString (sinks w a) s) as [k err].
  eexists _, _. split; reflexivity.
Qed.

Lemma sync_if_File_events wr (w : world W) :
  exists w' err, sync_if_File wr w = (w', Returned err) /\
                 exists rest, events w' = (events w ++ rest)%list.
Proof.
  destruct wr as [|a]; cbn [sync_if_File].
  - exists w, None. split; [reflexivity|]. exists []. symmetry. apply app_nil_r.
  - destruct (is_os_File (sinks w a)).
    + destruct (Sync (sinks w a)) as [k err].
      eexists _, _. split; [reflexivity|]. exists [ev_Sync a]. reflexivity.
    + exists w, None. split; [reflexivity|]. exists []. symmetry. apply app_nil_r.
Qed.

(** The time to go, computed before anything can panic. *)
Lemma leftTime_events c s (w : world W) :
  exists w' x,
    (if 0 <? currentNum s then
       bind (time_Since (startTime s)) (fun d =>
         ret (Float64.mul
                (Float64.div (time.Seconds d) (of_int (currentNum s)))
                (Float64.sub (of_int (max c)) (of_int (currentNum s)))))
     else ret (S754_zero false)) w = (w', Returned x) /\
    events w' = events w.
Proof.
  destruct (0 <? currentNum s).
  - unfold bind. destruct (time_Since_events (startTime s) w) as (w' & d & -> & E & _).
    unfold ret. eauto.
  - unfold ret. eauto.
Qed.

(** When nothing panics the renderer writes one line: the percentage, the
    bar between its borders, and two durations. *)
Lemma render_writes_line c s a saucers padding (w : world W) :
  writer c = Writer_at a ->
  strings.Repeat (Saucer (theme c)) (currentSaucerSize s) = Returned saucers ->
  strings.Repeat (SaucerPadding (theme c))
                 (GoInt.sub (width c) (currentSaucerSize s)) = Returned padding ->
  exists w' r elapsed left rest,
    renderProgressBar c s w = (w', Returned r) /\
    events w' =
      (events w ++
       ev_WriteString a (Sprintf_line (currentPercent s) (BarStart (theme c))
                           saucers padding (BarEnd (theme c)) elapsed left)
       :: rest)%list.
Proof.
  intros Hw Hs Hp. unfold renderProgressBar. rewrite Hw, Hs, Hp.
  unfold bind at 1.
  destruct (leftTime_events c s w) as (w1 & x & -> & E1).
  unfold bind at 1. unfold lift at 1.
  unfold bind at 1. unfold lift at 1.
  unfold bind at 1.
  destruct (time_Since_events (startTime s) w1) as (w2 & d & -> & E2 & _).
  unfold bind at 1.
  match goal with
  | |- context [io_WriteString (Writer_at a) ?str w2] =>
      destruct (io_WriteString_at a str w2) as (w3 & err & -> & E3)
  end.
  destruct err as [e|].
  - unfold ret. eexists _, _, _, _, []. split; [reflexivity|].
    rewrite E3, E2, E1. reflexivity.
  - destruct (sync_if_File_events (Writer_at a) w3) as (w4 & err & -> & rest & E4).
    eexists _, _, _, _, rest. split; [reflexivity|].
    rewrite E4, E3, E2, E1, <- app_assoc. reflexivity.
Qed.

Lemma render_ok_writes c s (w : world W) :
  render_ok c s = true ->
  exists w' r, renderProgressBar c s w = (w', Returned r) /\ rendered w w'.
Proof.
  unfold render_ok. intros Hok.
  destruct (writer c) as [|a] eqn:Hw; [discriminate|].
  destruct (strings.Repeat (Saucer (theme c)) (currentSaucerSize s))
    as [saucers|] eqn:Hs; [|discriminate].
  destruct (strings.Repeat (SaucerPadding (theme c))
              (GoInt.sub (width c) (currentSaucerSize s)))
    as [padding|] eqn:Hp; [|discriminate].
  destruct (render_writes_line c s a saucers padding w Hw Hs Hp)
    as (w' & r & elapsed & left & rest & E & Ev).
  exists w', r. split; [exact E|]. eexists _, _, _. exact Ev.
Qed.

(** Otherwise it panics before it writes. *)
Lemma render_not_ok_panics c s (w : world W) :
  render_ok c s = false ->
  exists w' msg, renderProgressBar c s w = (w', Panicked msg) /\
                 events w' = events w.
Proof.
  unfold render_ok, renderProgressBar. intros Hok.
  unfold bind at 1.
  destruct (leftTime_events c s w) as (w1 & x & -> & E1).
  unfold bind at 1. unfold lift at 1.
  destruct (strings.Repeat (Saucer (theme c)) (currentSaucerSize s))
    as [saucers|msg1].
  2: { eexists _, _. split; [reflexivity | exact E1]. }
  unfold bind at 1. unfold lift at 1.
  destruct (strings.Repeat (SaucerPadding (theme c))
              (GoInt.sub (width c) (currentSaucerSize s)))
    as [padding|msg2].
  2: { eexists _, _. split; [reflexivity | exact E1]. }
  destruct (writer c) as [|a]; [|destruct (writer c); discriminate].
  unfold bind at 1.
  destruct (time_Since_events (startTime s) w1) as (w2 & d & -> & E2 & _).
  unfold bind at 1. cbn [io_WriteString]. unfold lift.
  eexists _, _. split; [reflexivity|]. rewrite E2. exact E1.
Qed.



Lemma Repeat_negative s count :
  count < 0 -> strings.Repeat s count = Panicked "strings: negative Repeat count".
Proof.
  intros H. unfold strings.Repeat.
  destruct (Z.ltb_spec count 0); [reflexivity|lia].
Qed.

Lemma Repeat_returns s count :
  0 <= count -> strings.len s * count <= GoInt.max_int ->
  strings.len s * count <= max_alloc ->
  strings.Repeat s count = Returned (strings.replicate (Z.to_nat count) s).
Proof.
  intros H H' H''. unfold strings.Repeat.
  destruct (Z.ltb_spec count 0); [lia|].
  destruct (Z.ltb_spec GoInt.max_int (strings.len s * count)); [lia|].
  destruct (Z.ltb_spec max_alloc (strings.len s * count)); [lia|reflexivity].
Qed.

(** A result of at most a page is always granted. *)
Lemma Repeat_small s count :
  0 <= count -> strings.len s * count <= 4096 ->
  strings.Repeat s count = Returned (strings.replicate (Z.to_nat count) s).
Proof.
  intros H H'. pose proof max_alloc_page.
  apply Repeat_returns; unfold GoInt.max_int; lia.
Qed.



Lemma render_ok_negative_count c s :
  currentSaucerSize s < 0 \/ GoInt.sub (width c) (currentSaucerSize s) < 0 ->
  render_ok c s = false.
Proof.
  intros [H|H]; unfold render_ok.
  - rewrite (Repeat_negative _ _ H). destruct (writer c); reflexivity.
  - rewrite (Repeat_negative (SaucerPadding (theme c)) _ H).
    destruct (writer c); [reflexivity|].
    destruct (strings.Repeat (Saucer (theme c)) (currentSaucerSize s)); reflexivity.
Qed.

End Renderer.

(** ** The tracker *)

Section Tracker.

Context {W : Type} {writer_W : Writer W} {platform : Platform}.

Lemma Add_max_zero p num (w : world W) :
  max (p_config p) = 0 -> Add p num w = (w, p, Returned (Some max_zero)).
Proof. intros H. unfold Add. rewrite H. reflexivity. Qed.

(** With a maximum other than zero [Add] stores the [advanced] state and
    then decides between the error, a render and nothing. *)
Lemma Add_nonzero p num (w : world W) :
  max (p_config p) <> 0 ->
  Add p num w =
  let s := advanced p num in
  let p' := {| p_state := s; p_config := p_config p |} in
  if max (p_config p) <? currentNum s then (w, p', Returned (Some exceeds_max))
  else if negb (currentPercent s =? lastPercent (p_state p))
               && (0 <? currentPercent s)
       then let '(w', r) := renderProgressBar (p_config p) s w in (w', p', r)
       else (w, p', Returned None).
Proof.
  intros H. unfold Add. apply Z.eqb_neq in H. rewrite H. reflexivity.
Qed.

(** The configuration is never touched after construction. *)
Lemma Add_config p num (w : world W) :
  p_config (after_Add p num w) = p_config p.
Proof.
  unfold after_Add.
  destruct (Z.eq_dec (max (p_config p)) 0) as [H0 | H0].
  - rewrite (Add_max_zero _ _ _ H0). reflexivity.
  - rewrite (Add_nonzero _ _ _ H0). cbv zeta.
    destruct (max (p_config p) <? currentNum (advanced p num)); [reflexivity|].
    destruct (negb _ && _); [|reflexivity].
    destruct (renderProgressBar _ _ w). reflexivity.
Qed.

Lemma Add_state p num (w : world W) :
  max (p_config p) <> 0 -> p_state (after_Add p num w) = advanced p num.
Proof.
  intros H0. unfold after_Add. rewrite (Add_nonzero _ _ _ H0). cbv zeta.
  destruct (max (p_config p) <? currentNum (advanced p num)); [reflexivity|].
  destruct (negb _ && _); [|reflexivity].
  destruct (renderProgressBar _ _ w). reflexivity.
Qed.

Lemma getBlankState_eq (w : world W) :
  exists w', getBlankState w =
    (w', Returned {| currentNum := 0; currentPercent := 0; lastPercent := 0;
                     currentSaucerSize := 0; lastShown := clock w (ticks w);
                     startTime := clock w (ticks w) |}) /\
    events w' = events w /\ sinks w' = sinks w.
Proof. unfold getBlankState, bind, time_Now, ret. cbn. eauto. Qed.

Lemma apply_Option_state p o : p_state (apply_Option p o) = p_state p.
Proof. destruct o; reflexivity. Qed.

Lemma apply_Option_max p o : max (p_config (apply_Option p o)) = max (p_config p).
Proof. destruct o; reflexivity. Qed.

Lemma apply_Option_config p q o :
  p_config p = p_config q ->
  p_config (apply_Option p o) = p_config (apply_Option q o).
Proof. intros H. destruct o; cbn; rewrite H; reflexivity. Qed.

Lemma fold_Options_state options : forall p,
  p_state (fold_left apply_Option options p) = p_state p.
Proof.
  induction options as [|o options IH]; intros p; cbn [fold_left]; [reflexivity|].
  rewrite IH. apply apply_Option_state.
Qed.

Lemma fold_Options_max options : forall p,
  max (p_config (fold_left apply_Option options p)) = max (p_config p).
Proof.
  induction options as [|o options IH]; intros p; cbn [fold_left]; [reflexivity|].
  rewrite IH. apply apply_Option_max.
Qed.

Lemma fold_Options_config options : forall p q,
  p_config p = p_config q ->
  p_config (fold_left apply_Option options p)
  = p_config (fold_left apply_Option options q).
Proof.
  induction options as [|o options IH]; intros p q H; cbn [fold_left]; [exact H|].
  apply IH. apply apply_Option_config. exact H.
Qed.

(** [NewOptions] unfolded: a blank tracker stamped with the clock and
    configured by the options, rendered once when asked to. *)
Lemma NewOptions_eq max_ options (w : world W) :
  exists w1 b,
    NewOptions max_ options w =
      (if renderWithBlankState (p_config b)
       then match RenderBlank b w1 with
            | (w2, Returned _) => (w2, Returned b)
            | (w2, Panicked msg) => (w2, Panicked msg)
            end
       else (w1, Returned b)) /\
    p_state b = {| currentNum := 0; currentPercent := 0; lastPercent := 0;
                   currentSaucerSize := 0; lastShown := clock w (ticks w);
                   startTime := clock w (ticks w) |} /\
    p_config b = p_config (fresh max_ options) /\
    events w1 = events w.
Proof.
  unfold NewOptions. unfold bind at 1.
  destruct (getBlankState_eq w) as (w1 & -> & Ev & _).
  cbv zeta.
  set (b := fold_left apply_Option options _).
  exists w1, b. split; [|split; [|split]].
  - destruct (renderWithBlankState (p_config b)); [|reflexivity].
    unfold bind. destruct (RenderBlank b w1) as [w2 [r|msg]]; reflexivity.
  - unfold b. rewrite fold_Options_state. reflexivity.
  - unfold b, fresh. apply fold_Options_config. reflexivity.
  - exact Ev.
Qed.

(** What [NewOptions] returns when it does. *)
Lemma NewOptions_returns max_ options (w w' : world W) p :
  NewOptions max_ options w = (w', Returned p) ->
  blank (p_state p) /\
  startTime (p_state p) = clock w (ticks w) /\
  lastShown (p_state p) = clock w (ticks w) /\
  p_config p = p_config (fresh max_ options).
Proof.
  destruct (NewOptions_eq max_ options w) as (w1 & b & -> & Hs & Hc & _).
  assert (Hb : blank (p_state b) /\
               startTime (p_state b) = clock w (ticks w) /\
               lastShown (p_state b) = clock w (ticks w) /\
               p_config b = p_config (fresh max_ options)).
  { rewrite Hs. unfold blank. cbn. auto. }
  destruct (renderWithBlankState (p_config b)).
  - destruct (RenderBlank b w1) as [w2 [r|msg]]; [|discriminate].
    intros H. injection H as _ <-. exact Hb.
  - intros H. injection H as _ <-. exact Hb.
Qed.

Lemma fresh_max max_ options : max (p_config (fresh max_ options)) = max_.
Proof. unfold fresh. rewrite fold_Options_max. reflexivity. Qed.

Lemma Reset_eq p (w : world W) :
  exists w', Reset p w =
    (w', {| p_state := {| currentNum := 0; currentPercent := 0;
                          lastPercent := 0; currentSaucerSize := 0;
                          lastShown := clock w (ticks w);
                          startTime := clock w (ticks w) |};
            p_config := p_config p |}) /\
    events w' = events w /\ sinks w' = sinks w.
Proof.
  unfold Reset. destruct (getBlankState_eq w) as (w' & -> & E & S). eauto.
Qed.

Lemma in_range_100 : GoInt.in_range 100 = true.
Proof. reflexivity. Qed.

Lemma consistent_blank p :
  GoInt.in_range (max (p_config p)) = true -> blank (p_state p) ->
  consistent p.
Proof.
  intros Hm (Hn & Hp & Hl & _). unfold consistent. cbv zeta.
  rewrite Hn, Hp, Hl. repeat split; try reflexivity; try assumption.
  intros H0. symmetry. apply to_int_scaled_zero; [assumption | assumption | reflexivity].
Qed.

Lemma consistent_Add p num (w : world W) :
  consistent p -> consistent (after_Add p num w).
Proof.
  intros (Hm & Hn & Hl & Hp & H0). unfold consistent. cbv zeta.
  rewrite Add_config.
  destruct (Z.eq_dec (max (p_config p)) 0) as [E0 | E0].
  - unfold after_Add. rewrite (Add_max_zero _ _ _ E0). cbn [fst snd]. auto.
  - rewrite (Add_state _ _ _ E0). unfold advanced. cbn.
    split; [assumption|]. split; [apply wrap_in_range|].
    split; [reflexivity|]. split; [reflexivity|]. intros; contradiction.
Qed.

(** Every tracker a program can hold is consistent. *)
Lemma reachable_consistent p : reachable p -> consistent p.
Proof.
  induction 1 as [max_ options w w' p Hr Hn | p num w w' p' r _ IH HA
                 | p w w' p' _ IH HR].
  - destruct (NewOptions_returns _ _ _ _ _ Hn) as (B & _ & _ & C).
    apply consistent_blank; [|exact B]. rewrite C, fresh_max. exact Hr.
  - replace p' with (after_Add p num w) by (unfold after_Add; rewrite HA; reflexivity).
    apply consistent_Add. exact IH.
  - destruct (Reset_eq p w) as (w1 & E & _). rewrite E in HR. injection HR as _ <-.
    destruct IH as (Hm & _). apply consistent_blank; [exact Hm|].
    unfold blank. cbn. auto.
Qed.

Lemma reachable_after_Add p num (w : world W) :
  reachable p -> reachable (after_Add p num w).
Proof.
  intros H. unfold after_Add.
  destruct (Add p num w) as [[w' p'] r] eqn:E. cbn [fst snd].
  exact (reach_Add p num w w' p' r H E).
Qed.

(** One advance by a non-negative amount, short of overflow. *)
Lemma Add_step_monotone p num (w : world W) :
  consistent p -> 0 < max (p_config p) ->
  0 <= currentNum (p_state p) -> 0 <= num ->
  currentNum (p_state p) + num <= GoInt.max_int ->
  fits_int (scaled (currentNum (p_state p) + num) (max (p_config p)) 100) = true ->
  currentNum (p_state (after_Add p num w)) = currentNum (p_state p) + num /\
  currentPercent (p_state p) <= currentPercent (p_state (after_Add p num w)).
Proof.
  intros (Hm & Hn & Hl & Hp & H0) Hmax Hc Hnum Hov Hfit.
  assert (E0 : max (p_config p) <> 0) by lia.
  rewrite (Add_state _ _ _ E0). unfold advanced. cbn [currentNum currentPercent].
  apply in_range_iff in Hm, Hn. unfold GoInt.max_int in Hov.
  assert (Ew : GoInt.add (currentNum (p_state p)) num = currentNum (p_state p) + num).
  { unfold GoInt.add. apply wrap_id, in_range_iff. lia. }
  rewrite Ew. split; [reflexivity|].
  rewrite (Hp E0).
  assert (P64 : 2 ^ 64 = 2 * 2 ^ 63) by reflexivity.
  apply (to_int_scaled_mono (currentNum (p_state p))
           (currentNum (p_state p) + num)); try lia. exact Hfit.
Qed.

(** Up to the maximum the percentage fits whatever the platform. *)
Lemma fits_int_up_to_max n mx :
  0 <= n <= mx -> mx <= GoInt.max_int -> 0 < mx ->
  fits_int (scaled n mx 100) = true.
Proof.
  intros Hn Hm H0. unfold GoInt.max_int in Hm.
  destruct (to_int_scaled_bounds n mx 100) as (F & _); try lia. exact F.
Qed.

(** An advance that brings the count to the maximum leaves 100 percent and
    a full bar. *)
Lemma Add_reaches_max p num (w : world W) :
  0 < max (p_config p) <= GoInt.max_int ->
  0 <= width (p_config p) <= 2 ^ 53 ->
  GoInt.add (currentNum (p_state p)) num = max (p_config p) ->
  currentPercent (p_state (after_Add p num w)) = 100 /\
  currentSaucerSize (p_state (after_Add p num w)) = width (p_config p).
Proof.
  intros Hm Hw Hn. unfold GoInt.max_int in Hm.
  rewrite Add_state by lia. unfold advanced. cbn [currentPercent currentSaucerSize].
  rewrite Hn. split; apply to_int_scaled_full; lia.
Qed.

End Tracker.

(** ** The claims *)

Section Claims.

Context {W : Type} {writer_W : Writer W} {platform : Platform}.

(** C1.  When a call of [Add] makes the count exceed the maximum, on a
    tracker a program can hold or on any tracker whose maximum is not zero,
    the call returns the error "current number exceeds max", leaves the
    world as it was, so writes nothing, and keeps the state it computed:
    the count is the old one plus [num], the percentage, the last
    percentage and the fill width are those of that count, and the time
    stamps and the configuration are untouched. *)
Theorem Add_beyond_max p num (w w' : world W) p' r :
  Add p num w = (w', p', r) ->
  max (p_config p) <> 0 \/ reachable p ->
  max (p_config p) < currentNum (p_state p') ->
  r = Returned (Some exceeds_max) /\ w' = w /\
  p_config p' = p_config p /\
  currentNum (p_state p') = GoInt.add (currentNum (p_state p)) num /\
  currentPercent (p_state p')
    = to_int (Float64.mul
                (Float64.div (of_int (currentNum (p_state p')))
                             (of_int (max (p_config p))))
                (of_int 100)) /\
  lastPercent (p_state p') = currentPercent (p_state p') /\
  currentSaucerSize (p_state p')
    = to_int (Float64.mul
                (Float64.div (of_int (currentNum (p_state p')))
                             (of_int (max (p_config p))))
                (of_int (width (p_config p)))) /\
  startTime (p_state p') = startTime (p_state p) /\
  lastShown (p_state p') = lastShown (p_state p).
Proof.
  intros HA Hmax Hex.
  assert (H0 : max (p_config p) <> 0).
  { destruct Hmax as [H0 | Hr]; [exact H0|]. intros E0.
    rewrite (Add_max_zero _ _ _ E0) in HA. injection HA as _ <- _.
    destruct (reachable_consistent p Hr) as (_ & _ & _ & _ & Hz).
    rewrite (Hz E0) in Hex. lia. }
  rewrite (Add_nonzero _ _ _ H0) in HA. cbv zeta in HA.
  destruct (max (p_config p) <? currentNum (advanced p num)) eqn:Hlt.
  - injection HA as <- <- <-. cbn. repeat split; reflexivity.
  - exfalso. apply Z.ltb_ge in Hlt.
    assert (Ep : p' = {| p_state := advanced p num; p_config := p_config p |}).
    { destruct (negb _ && _).
      - destruct (renderProgressBar _ _ w). injection HA as _ <- _. reflexivity.
      - injection HA as _ <-. reflexivity. }
    subst p'. cbn [p_state] in Hex. lia.
Qed.

(** C4.  With a maximum of zero [Add] returns the error "max must be greater
    than 0" and gives back the tracker and the world untouched. *)
Theorem Add_zero_max p num (w : world W) :
  max (p_config p) = 0 -> Add p num w = (w, p, Returned (Some max_zero)).
Proof. apply Add_max_zero. Qed.

(** C6.  [Reset] zeroes count, percentage, last percentage and fill width,
    stamps [startTime] and [lastShown] with the clock reading it takes,
    keeps the configuration, and writes nothing; time elapsed is from then
    on measured from that reading. *)
Theorem Reset_blanks p (w : world W) :
  exists w',
    Reset p w =
      (w', {| p_state := {| currentNum := 0; currentPercent := 0;
                            lastPercent := 0; currentSaucerSize := 0;
                            lastShown := clock w (ticks w);
                            startTime := clock w (ticks w) |};
              p_config := p_config p |}) /\
    events w' = events w /\ sinks w' = sinks w /\
    forall w2 : world W,
      exists w3,
        time_Since (clock w (ticks w)) w2
        = (w3, Returned (time.Sub (clock w2 (ticks w2)) (clock w (ticks w)))).
Proof.
  destruct (Reset_eq p w) as (w' & E & Ev & Sk).
  exists w'. repeat split; try assumption.
  intros w2. unfold time_Since, bind, time_Now, ret. eauto.
Qed.

(** C7.  On a tracker a program can hold, with a positive maximum, [Add 0]
    leaves the percentage and the world as they are: nothing is written.
    It returns nil, or the excess error when the count was already beyond
    the maximum. *)
Theorem Add_zero_idle p (w : world W) :
  reachable p -> 0 < max (p_config p) ->
  exists p' r,
    Add p 0 w = (w, p', r) /\
    currentPercent (p_state p') = currentPercent (p_state p) /\
    (r = Returned None \/ r = Returned (Some exceeds_max)).
Proof.
  intros Hr Hmax. destruct (reachable_consistent p Hr) as (Hm & Hn & Hl & Hp & _).
  assert (E0 : max (p_config p) <> 0) by lia.
  rewrite (Add_nonzero _ _ _ E0). cbv zeta.
  assert (En : GoInt.add (currentNum (p_state p)) 0 = currentNum (p_state p)).
  { unfold GoInt.add. rewrite Z.add_0_r. apply wrap_id. exact Hn. }
  assert (Ep : currentPercent (advanced p 0) = currentPercent (p_state p)).
  { unfold advanced. cbn [currentPercent]. rewrite En. symmetry. apply Hp. exact E0. }
  destruct (max (p_config p) <? currentNum (advanced p 0)).
  - eexists _, _. split; [reflexivity|]. cbn [p_state]. auto.
  - rewrite Ep, Hl, Z.eqb_refl. cbn [negb andb].
    eexists _, _. split; [reflexivity|]. cbn [p_state]. auto.
Qed.



(** C3, amended.  After a successful advance with a positive maximum and a
    count that is not negative, the percentage is the floor of the float64
    value [float64(count) / float64(max) * 100], each operation rounded,
    and lies between 0 and 100; when the width is between 0 and 2^53 the
    fill width is the floor of [float64(count) / float64(max) *
    float64(width)] and lies between 0 and the width.  After
    [NewOptions(100, OptionSetWidth(10))] and [Add(30)] the fill width is 3
    and the line written shows three filled cells and seven of padding
    between the borders. *)
Theorem Add_percent_and_fill :
  (forall p num (w w' : world W) p',
     Add p num w = (w', p', Returned None) ->
     0 < max (p_config p) <= GoInt.max_int ->
     0 <= currentNum (p_state p') ->
     let n := currentNum (p_state p') in
     (Some (currentPercent (p_state p')) = floor (scaled n (max (p_config p)) 100) /\
      0 <= currentPercent (p_state p') <= 100) /\
     (0 <= width (p_config p) <= 2 ^ 53 ->
      Some (currentSaucerSize (p_state p'))
        = floor (scaled n (max (p_config p)) (width (p_config p))) /\
      0 <= currentSaucerSize (p_state p') <= width (p_config p))) /\
  (forall w : world W,
     exists w1 p0 w2 p1 r elapsed left rest,
       NewOptions 100 [OptionSetWidth 10] w = (w1, Returned p0) /\
       Add p0 30 w1 = (w2, p1, r) /\
       currentSaucerSize (p_state p1) = 3 /\
       events w2 =
         (events w ++
          ev_WriteString 1
            (carriage_return ++ "  30% |███       | [" ++ elapsed ++ ":"
               ++ left ++ "]            ")
          :: rest)%list).
Proof.
  split.
  - intros p num w w' p' HA Hm Hn.
    assert (E0 : max (p_config p) <> 0) by lia.
    rewrite (Add_nonzero _ _ _ E0) in HA. cbv zeta in HA.
    destruct (max (p_config p) <? currentNum (advanced p num)) eqn:Hex;
      [discriminate|].
    apply Z.ltb_ge in Hex.
    assert (Ep : p' = {| p_state := advanced p num; p_config := p_config p |}).
    { destruct (negb _ && _).
      - destruct (renderProgressBar _ _ w). injection HA as _ <- _. reflexivity.
      - injection HA as _ <-. reflexivity. }
    subst p'. cbn [p_state] in *. cbv zeta.
    set (n := currentNum (advanced p num)) in *.
    unfold GoInt.max_int in Hm.
    assert (M64 : 0 < max (p_config p) < 2 ^ 64)
      by (change (2 ^ 64) with (2 * 2 ^ 63); lia).
    split.
    + destruct (to_int_scaled_bounds n (max (p_config p)) 100)
        as (_ & B & F); try lia.
      split; assumption.
    + intros Hw.
      destruct (to_int_scaled_bounds n (max (p_config p)) (width (p_config p)))
        as (_ & B & F); try lia.
      split; assumption.
  - intros w.
    destruct (NewOptions_eq 100 [OptionSetWidth 10] w)
      as (w1 & p0 & EN & Hs & Hc & Ev1).
    cbn in Hc. rewrite Hc in EN. cbn [renderWithBlankState] in EN.
    assert (E0 : max (p_config p0) <> 0) by (rewrite Hc; cbn; lia).
    pose proof (Add_nonzero p0 30 w1 E0) as HA. cbv zeta in HA.
    assert (Es : advanced p0 30 =
                 {| currentNum := 30; currentPercent := 30; lastPercent := 30;
                    currentSaucerSize := 3; lastShown := clock w (ticks w);
                    startTime := clock w (ticks w) |}).
    { unfold advanced. rewrite Hs, Hc.
      cbn [p_state p_config currentNum max width lastShown startTime].
      f_equal; vm_compute; reflexivity. }
    rewrite Es, Hs, Hc in HA.
    cbn [currentNum currentPercent lastPercent p_config p_state max] in HA.
    change (100 <? 30) with false in HA.
    change (negb (30 =? 0) && (0 <? 30)) with true in HA.
    cbv iota in HA.
    match type of HA with
    | context [renderProgressBar ?c ?s w1] =>
        destruct (render_writes_line c s 1%nat "███" "       " w1)
          as (w2 & r & elapsed & left & rest & ER & Ev2);
          [reflexivity
          | apply (Repeat_small "█" 3); [lia | vm_compute; discriminate]
          | apply (Repeat_small " " 7); [lia | vm_compute; discriminate] |]
    end.
    rewrite ER in HA.
    eexists w1, p0, w2, _, (Returned r), elapsed, left, rest.
    split; [exact EN|]. split; [exact HA|]. split; [reflexivity|].
    rewrite Ev2, Ev1. reflexivity.
Qed.

(** The step of C5's proof: over consistent trackers. *)
Lemma AddAll_sorted nums : forall p (w : world W),
  consistent p -> 0 < max (p_config p) ->
  0 <= currentNum (p_state p) ->
  Forall (Z.le 0) nums ->
  currentNum (p_state p) + sum nums <= GoInt.max_int ->
  fits_int (scaled (currentNum (p_state p) + sum nums) (max (p_config p)) 100)
    = true ->
  Sorted Z.le (currentPercent (p_state p) :: snd (AddAll p nums w)).
Proof.
  induction nums as [|num rest IH]; intros p w Hc Hmax Hn Hall Hov Hfit.
  - cbn. constructor; constructor.
  - inversion Hall as [|? ? Hnum Hrest]; subst.
    assert (Hsum : 0 <= sum rest).
    { clear -Hrest.
      induction Hrest as [|x l Hx Hl IHl]; [cbn; lia|].
      change (sum (x :: l)) with (x + sum l). lia. }
    change (sum (num :: rest)) with (num + sum rest) in Hov, Hfit.
    pose proof Hc as (Hm & Hr & _).
    apply in_range_iff in Hm, Hr. unfold GoInt.max_int in Hov.
    assert (Hfit1 : fits_int (scaled (currentNum (p_state p) + num)
                                     (max (p_config p)) 100) = true).
    { destruct (to_int_scaled_mono (currentNum (p_state p) + num)
                  (currentNum (p_state p) + (num + sum rest))
                  (max (p_config p)) 100
                  ltac:(lia) ltac:(lia) ltac:(lia) ltac:(lia) Hfit) as [F _].
      exact F. }
    destruct (Add_step_monotone p num w Hc Hmax Hn Hnum
                ltac:(unfold GoInt.max_int; lia) Hfit1) as [En Ele].
    pose proof (consistent_Add p num w Hc) as Hc1.
    pose proof (Add_config p num w) as Ecfg.
    cbn [AddAll]. unfold after_Add in *.
    destruct (Add p num w) as [[w1 p1] r1]. cbn [fst snd] in *.
    specialize (IH p1 w1 Hc1).
    rewrite Ecfg, En in IH.
    specialize (IH Hmax ltac:(lia) Hrest).
    replace (currentNum (p_state p) + num + sum rest)
      with (currentNum (p_state p) + (num + sum rest)) in IH by lia.
    specialize (IH ltac:(unfold GoInt.max_int; lia) Hfit).
    destruct (AddAll p1 rest w1) as [[w2 p2] percents]. cbn [snd] in *.
    constructor; [exact IH|]. constructor. exact Ele.
Qed.

(** C5, amended.  On a tracker a program can hold, with a positive maximum
    and a count that is not negative, advances by non-negative amounts
    never lower the percentage, as long as the count does not pass the
    largest [int] and the float64 percentage of the last count fits in an
    [int]. *)
Theorem percent_non_decreasing p nums (w : world W) :
  reachable p -> 0 < max (p_config p) ->
  0 <= currentNum (p_state p) ->
  Forall (Z.le 0) nums ->
  currentNum (p_state p) + sum nums <= GoInt.max_int ->
  fits_int (scaled (currentNum (p_state p) + sum nums) (max (p_config p)) 100)
    = true ->
  Sorted Z.le (currentPercent (p_state p) :: snd (AddAll p nums w)).
Proof.
  intros Hr. apply AddAll_sorted. apply reachable_consistent. exact Hr.
Qed.


(** C10, amended.  The renderer panics, and writes nothing, whenever the
    fill width is negative, or exceeds the width by an amount an [int]
    holds, so that the padding count [width - fill] is negative.  An advance
    beyond the maximum can leave such a state: after [NewOptions(10)] and
    [Add(11)], which returns the excess error, the fill width is 44 of 40
    and [RenderBlank] panics instead of returning an error. *)
Theorem render_panics :
  (forall c s (w : world W),
     currentSaucerSize s < 0 \/
     (width c < currentSaucerSize s /\
      GoInt.min_int <= width c - currentSaucerSize s) ->
     exists w' msg,
       renderProgressBar c s w = (w', Panicked msg) /\ events w' = events w) /\
  (forall w : world W,
     exists w1 p0 p1 w2 msg,
       NewOptions 10 [] w = (w1, Returned p0) /\
       Add p0 11 w1 = (w1, p1, Returned (Some exceeds_max)) /\
       currentSaucerSize (p_state p1) = 44 /\
       width (p_config p1) = 40 /\
       RenderBlank p1 w1 = (w2, Panicked msg) /\
       events w2 = events w).
Proof.
  assert (Hpanic : forall c s (w : world W),
     currentSaucerSize s < 0 \/
     (width c < currentSaucerSize s /\
      GoInt.min_int <= width c - currentSaucerSize s) ->
     exists w' msg,
       renderProgressBar c s w = (w', Panicked msg) /\ events w' = events w).
  { intros c s w H. apply render_not_ok_panics, render_ok_negative_count.
    destruct H as [H | [H1 H2]]; [left; exact H|].
    destruct (Z_lt_le_dec (currentSaucerSize s) 0) as [Hneg | Hpos];
      [left; exact Hneg | right].
    unfold GoInt.sub. rewrite wrap_id; [lia|].
    apply in_range_iff. unfold GoInt.min_int in H2. lia. }
  split; [exact Hpanic|].
  intros w.
  destruct (NewOptions_eq 10 [] w) as (w1 & p0 & EN & Hs & Hc & Ev1).
  cbn in Hc. rewrite Hc in EN. cbn [renderWithBlankState] in EN.
  assert (E0 : max (p_config p0) <> 0) by (rewrite Hc; cbn; lia).
  assert (Ex : max (p_config p0) < GoInt.add (currentNum (p_state p0)) 11)
    by (rewrite Hs, Hc; vm_compute; reflexivity).
  pose proof (Add_nonzero p0 11 w1 E0) as HA. cbv zeta in HA.
  apply Z.ltb_lt in Ex. unfold advanced at 1 in HA. cbn [currentNum] in HA.
  rewrite Ex in HA.
  set (p1 := {| p_state := advanced p0 11; p_config := p_config p0 |}) in *.
  assert (Ef : currentSaucerSize (p_state p1) = 44).
  { unfold p1, advanced. rewrite Hs, Hc. vm_compute. reflexivity. }
  assert (Ew : width (p_config p1) = 40) by (unfold p1; rewrite Hc; reflexivity).
  destruct (Hpanic (p_config p1) (p_state p1) w1) as (w2 & msg & ER & Ev2).
  { right. rewrite Ef, Ew. unfold GoInt.min_int. lia. }
  exists w1, p0, p1, w2, msg.
  split; [exact EN|]. split; [exact HA|]. split; [exact Ef|].
  split; [exact Ew|]. split; [exact ER|]. rewrite Ev2. exact Ev1.
Qed.

End Claims.

(** ** The model on small inputs *)

Example d4_examples :
  fmt.d4 5 = "   5" /\ fmt.d4 100 = " 100" /\ fmt.d4 (-20) = " -20" /\
  fmt.d4 12345 = "12345".
Proof. repeat split. Qed.

Example Duration_String_examples :
  time.String_ 0 = "0s" /\ time.String_ 1500000000 = "1.5s" /\
  time.String_ 3723000000000 = "1h2m3s" /\
  time.String_ (-61000000000) = "-1m1s" /\ time.String_ 999 = "999ns" /\
  time.String_ 20000000 = "20ms".
Proof. repeat split. Qed.

Example Repeat_examples :
  @strings.Repeat amd64 "ab" 3 = Returned "ababab" /\
  @strings.Repeat amd64 "ab" 0 = Returned "" /\
  @strings.Repeat amd64 "ab" (-1)
  = Panicked "strings: negative Repeat count" /\
  @strings.Repeat amd64 "ab" (2 ^ 62)
  = Panicked "strings: Repeat output length overflow" /\
  @strings.Repeat amd64 "ab" (2 ^ 50)
  = Panicked "runtime error: makeslice: len out of range".
Proof. repeat split. Qed.

(** A bar too wide for the memory.  With a width of 2^53 and a maximum of
    10, [Add(5)] stores a fill width of 2^52 and panics in [strings.Repeat]
    before anything is written; with the blank render on, the construction
    itself panics on the padding. *)
Example wide_bar_panics :
  let A := @Add sink _ amd64 (fresh 10 [OptionSetWidth (2 ^ 53)]) 5
                quiet_world in
  let N := @NewOptions sink _ amd64 100
             [OptionSetWidth (2 ^ 53); OptionSetRenderBlankState true]
             quiet_world in
  snd A = Panicked "runtime error: makeslice: len out of range" /\
  currentSaucerSize (p_state (snd (fst A))) = 2 ^ 52 /\
  events (fst (fst A)) = [] /\
  snd N = Panicked "runtime error: makeslice: len out of range" /\
  events (fst N) = [].
Proof. vm_compute. repeat split. Qed.

(** [New(10)], then [Add(5)], [Add(5)] and [Add(1)], one second going by
    between two readings of the clock: two lines are written, and the third
    call returns the excess error with a count of 11. *)
Example three_advances :
  let '(w, p, percents) :=
    @AddAll sink _ amd64 (fresh 10 []) [5; 5; 1]
            {| clock := clock quiet_world; ticks := 1;
               sinks := sinks quiet_world; events := [] |} in
  events w =
    [ev_WriteString 1
       (carriage_return
        ++ "  50% |████████████████████                    | [2s:1s]            ");
     ev_WriteString 1
       (carriage_return
        ++ " 100% |████████████████████████████████████████| [4s:0s]            ")]
  /\ percents = [50; 100; 110] /\ currentNum (p_state p) = 11.
Proof. vm_compute. repeat split. Qed.

(** ** The claims on concrete trackers *)

(** In the quiet world [NewOptions] returns [fresh], unless it has to
    render first. *)
Lemma NewOptions_fresh max_ options :
  renderWithBlankState (p_config (fresh max_ options)) = false ->
  exists w',
    @NewOptions sink _ amd64 max_ options quiet_world
    = (w', Returned (fresh max_ options)).
Proof.
  intros Hr.
  destruct (@NewOptions_eq sink _ amd64 max_ options quiet_world)
    as (w1 & b & E & Hs & Hc & _).
  rewrite Hc, Hr in E. exists w1. rewrite E. do 2 f_equal.
  assert (Hf : p_state (fresh max_ options) = p_state b).
  { unfold fresh. rewrite fold_Options_state, Hs. reflexivity. }
  destruct b as [sb cb], (fresh max_ options) as [sf cf].
  cbn [p_state p_config] in *. congruence.
Qed.

Lemma fresh_reachable max_ options :
  GoInt.in_range max_ = true ->
  renderWithBlankState (p_config (fresh max_ options)) = false ->
  @reachable sink _ amd64 (fresh max_ options).
Proof.
  intros Hm Hr. destruct (NewOptions_fresh max_ options Hr) as (w' & E).
  exact (reach_NewOptions max_ options quiet_world w' _ Hm E).
Qed.

Lemma Add_beyond_max_witness :
  let p := fresh 10 [] in
  let A := @Add sink _ amd64 p 11 quiet_world in
  A = (fst (fst A), snd (fst A), snd A) /\
  (max (p_config p) <> 0 \/ @reachable sink _ amd64 p) /\
  max (p_config p) < currentNum (p_state (snd (fst A))) /\
  snd A = Returned (Some exceeds_max) /\ fst (fst A) = quiet_world /\
  currentNum (p_state (snd (fst A))) = 11 /\
  currentPercent (p_state (snd (fst A))) = 110 /\
  lastPercent (p_state (snd (fst A))) = 110 /\
  currentSaucerSize (p_state (snd (fst A))) = 44.
Proof.
  intros p A.
  assert (H0 : A = (fst (fst A), snd (fst A), snd A))
    by (destruct A as [[w' p'] r]; reflexivity).
  assert (H1 : max (p_config p) <> 0 \/ @reachable sink _ amd64 p)
    by (left; vm_compute; discriminate).
  assert (H2 : max (p_config p) < currentNum (p_state (snd (fst A))))
    by (vm_compute; reflexivity).
  split; [exact H0|]. split; [exact H1|]. split; [exact H2|].
  destruct (Add_beyond_max p 11 quiet_world _ _ _ H0 H1 H2)
    as (Er & Ew & _ & En & Ep & El & Ef & _).
  split; [exact Er|]. split; [exact Ew|].
  split; [rewrite En; vm_compute; reflexivity|].
  split; [rewrite Ep; vm_compute; reflexivity|].
  split; [rewrite El, Ep; vm_compute; reflexivity|].
  rewrite Ef; vm_compute; reflexivity.
Defined.

Lemma Add_zero_max_witness :
  max (p_config (fresh 0 [])) = 0 /\
  @Add sink _ amd64 (fresh 0 []) 5 quiet_world
  = (quiet_world, fresh 0 [], Returned (Some max_zero)).
Proof.
  split; [reflexivity|].
  exact (Add_zero_max (fresh 0 []) 5 quiet_world eq_refl).
Defined.

Lemma Add_zero_idle_witness :
  let p := @after_Add sink _ amd64 (fresh 10 []) 5 quiet_world in
  @reachable sink _ amd64 p /\ 0 < max (p_config p) /\
  exists p' r,
    @Add sink _ amd64 p 0 quiet_world = (quiet_world, p', r) /\
    currentPercent (p_state p') = currentPercent (p_state p) /\
    (r = Returned None \/ r = Returned (Some exceeds_max)).
Proof.
  intros p.
  assert (H1 : @reachable sink _ amd64 p).
  { apply reachable_after_Add, fresh_reachable; reflexivity. }
  assert (H2 : 0 < max (p_config p)) by (vm_compute; reflexivity).
  split; [exact H1|]. split; [exact H2|].
  exact (Add_zero_idle p quiet_world H1 H2).
Defined.


Lemma Add_percent_and_fill_witness :
  let p := fresh 100 [] in
  let A := @Add sink _ amd64 p 29 quiet_world in
  A = (fst (fst A), snd (fst A), Returned None) /\
  0 < max (p_config p) <= GoInt.max_int /\
  0 <= currentNum (p_state (snd (fst A))) /\
  (Some (currentPercent (p_state (snd (fst A))))
     = floor (scaled (currentNum (p_state (snd (fst A)))) (max (p_config p)) 100) /\
   0 <= currentPercent (p_state (snd (fst A))) <= 100).
Proof.
  intros p A.
  assert (H0 : A = (fst (fst A), snd (fst A), Returned None))
    by (vm_compute; reflexivity).
  assert (H1 : 0 < max (p_config p) <= GoInt.max_int)
    by (split; vm_compute; [reflexivity | discriminate]).
  assert (H2 : 0 <= currentNum (p_state (snd (fst A))))
    by (vm_compute; discriminate).
  split; [exact H0|]. split; [exact H1|]. split; [exact H2|].
  exact (proj1 (proj1 (@Add_percent_and_fill sink _ amd64) p 29 quiet_world
                  _ _ H0 H1 H2)).
Defined.

Lemma percent_non_decreasing_witness :
  let p := fresh 10 [] in
  @reachable sink _ amd64 p /\ 0 < max (p_config p) /\
  0 <= currentNum (p_state p) /\ Forall (Z.le 0) [5; 5; 1] /\
  currentNum (p_state p) + sum [5; 5; 1] <= GoInt.max_int /\
  fits_int (scaled (currentNum (p_state p) + sum [5; 5; 1]) (max (p_config p)) 100)
    = true /\
  Sorted Z.le (currentPercent (p_state p)
               :: snd (@AddAll sink _ amd64 p [5; 5; 1] quiet_world)).
Proof.
  intros p.
  assert (H1 : @reachable sink _ amd64 p) by (apply fresh_reachable; reflexivity).
  assert (H2 : 0 < max (p_config p)) by (vm_compute; reflexivity).
  assert (H3 : 0 <= currentNum (p_state p)) by (vm_compute; discriminate).
  assert (H4 : Forall (Z.le 0) [5; 5; 1])
    by (repeat constructor; vm_compute; discriminate).
  assert (H5 : currentNum (p_state p) + sum [5; 5; 1] <= GoInt.max_int)
    by (vm_compute; discriminate).
  assert (H6 : fits_int (scaled (currentNum (p_state p) + sum [5; 5; 1])
                                (max (p_config p)) 100) = true)
    by (vm_compute; reflexivity).
  split; [exact H1|]. split; [exact H2|]. split; [exact H3|].
  split; [exact H4|]. split; [exact H5|]. split; [exact H6|].
  exact (percent_non_decreasing p [5; 5; 1] quiet_world H1 H2 H3 H4 H5 H6).
Defined.


Lemma render_panics_witness :
  let c := p_config (fresh 10 []) in
  let s := @advanced amd64 (fresh 10 []) 11 in
  (currentSaucerSize s < 0 \/
   (width c < currentSaucerSize s /\
    GoInt.min_int <= width c - currentSaucerSize s)) /\
  exists w' msg,
    @renderProgressBar sink _ amd64 c s quiet_world = (w', Panicked msg) /\
    events w' = events quiet_world.
Proof.
  intros c s.
  assert (H : currentSaucerSize s < 0 \/
              (width c < currentSaucerSize s /\
               GoInt.min_int <= width c - currentSaucerSize s)).
  { right. split; [vm_compute; reflexivity | vm_compute; discriminate]. }
  split; [exact H|].
  exact (proj1 (@render_panics sink _ amd64) c s quiet_world H).
Defined.


(** C3 as worded fails, whether the quotient is taken exactly or in
    float64: with a maximum of 200, [Add(-1)] succeeds and leaves a
    percentage of 0, the conversion to [int] dropping the fraction of -0.5,
    where the floor is -1. *)
Lemma floor_counterexample :
  ~ @percent_is_exact_floor sink _ amd64 (fresh 200 []) (-1) quiet_world /\
  ~ @percent_is_float_floor sink _ amd64 (fresh 200 []) (-1) quiet_world.
Proof.
  split; intros H; vm_compute in H;
    destruct (H eq_refl eq_refl) as [H1 _]; discriminate.
Qed.

(** The exact floor is missed on ordinary counts too: 29 of 100 is 28
    percent, because 0.29 * 100 rounds below 29. *)
Example percent_29_of_100 :
  currentPercent (p_state (@after_Add sink _ amd64 (fresh 100 []) 29 quiet_world))
  = 28.
Proof. vm_compute. reflexivity. Qed.

(** C5 as worded fails at the end of the [int] range: with the maximum at
    the largest [int] and the count brought to it, one more unit wraps the
    count to the smallest [int] and the percentage falls from 100 to
    -100. *)
Lemma percent_decrease_counterexample :
  ~ @percent_never_decreases sink _ amd64
      (@after_Add sink _ amd64 (fresh GoInt.max_int []) GoInt.max_int quiet_world)
      1 quiet_world.
Proof.
  intros H.
  assert (Hr : @reachable sink _ amd64
                 (@after_Add sink _ amd64 (fresh GoInt.max_int [])
                    GoInt.max_int quiet_world)).
  { apply reachable_after_Add, fresh_reachable; reflexivity. }
  specialize (H Hr ltac:(vm_compute; reflexivity) ltac:(vm_compute; discriminate)).
  vm_compute in H. apply H. reflexivity.
Qed.

(** Nor does the percentage survive a count so far beyond the maximum that
    the float no longer fits in an [int]: what the conversion then gives
    depends on the platform. *)
Example percent_out_of_range :
  currentPercent
    (p_state (@after_Add sink _ amd64 (fresh 1 []) (2 ^ 62) quiet_world))
  = GoInt.min_int /\
  currentPercent
    (p_state (@after_Add sink _ arm64 (fresh 1 []) (2 ^ 62) quiet_world))
  = GoInt.max_int.
Proof. split; vm_compute; reflexivity. Qed.

(** C8 at its failing input: with a maximum of -5, [Add(1)] is not rejected
    for the maximum; it stores the count with -20 percent, a fill width of
    -8, and returns the excess error. *)
Lemma Add_negative_max :
  @Add sink _ amd64 (fresh (-5) []) 1 quiet_world =
    (quiet_world,
     {| p_state := {| currentNum := 1; currentPercent := -20;
                      lastPercent := -20; currentSaucerSize := -8;
                      lastShown := 0; startTime := 0 |};
        p_config := p_config (fresh (-5) []) |},
     Returned (Some exceeds_max)).
Proof. reflexivity. Qed.


(** A state whose fill width exceeds a width so negative that their
    difference wraps around: the largest [int] for maximum, the smallest
    for width, and [Add(-1)]. *)
Example wrapping_padding_state :
  let p := @after_Add sink _ amd64
             (fresh GoInt.max_int
                [OptionSetWidth GoInt.min_int;
                 OptionSetTheme {| Saucer := "█"; SaucerPadding := "";
                                   BarStart := "|"; BarEnd := "|" |}])
             (-1) quiet_world in
  p_state p = {| currentNum := -1; currentPercent := 0; lastPercent := 0;
                 currentSaucerSize := 1; lastShown := 0; startTime := 0 |} /\
  p_config p = {| max := GoInt.max_int; width := GoInt.min_int;
                  writer := os_Stdout;
                  theme := {| Saucer := "█"; SaucerPadding := "";
                              BarStart := "|"; BarEnd := "|" |};
                  renderWithBlankState := false |}.
Proof. vm_compute. split; reflexivity. Qed.

(** C10 as worded fails twice.  After [NewOptions(100)], [Add(101)] returns
    the excess error with a fill width of 40, the width itself, and
    [RenderBlank] writes a line.  And a fill width above the width does not
    panic when [width - fill] wraps around: in the state of
    [wrapping_padding_state], with the smallest [int] for width, a fill
    width of 1 and an empty padding string, the padding count is the
    largest [int] and the repetition is the empty string. *)
Lemma render_counterexample :
  ~ @render_after_excess_panics sink _ amd64 (fresh 100 []) 101 quiet_world /\
  ~ @overfull_render_panics sink _ amd64
      {| max := GoInt.max_int; width := GoInt.min_int; writer := os_Stdout;
         theme := {| Saucer := "█"; SaucerPadding := ""; BarStart := "|";
                     BarEnd := "|" |};
         renderWithBlankState := false |}
      {| currentNum := -1; currentPercent := 0; lastPercent := 0;
         currentSaucerSize := 1; lastShown := 0; startTime := 0 |}
      quiet_world.
Proof.
  split.
  - intros H. vm_compute in H.
    destruct (H eq_refl) as (w2 & msg & E). discriminate.
  - unfold overfull_render_panics. intros H.
    destruct (H ltac:(left; vm_compute; reflexivity)) as (w' & msg & E).
    match type of E with
    | @renderProgressBar _ _ _ ?c ?s _ = _ =>
        assert (Hok : @render_ok amd64 c s = true)
    end.
    { unfold render_ok. cbn [writer theme Saucer SaucerPadding width currentSaucerSize].
      change (GoInt.sub GoInt.min_int 1) with GoInt.max_int.
      rewrite (Repeat_returns "█" 1) by (vm_compute; discriminate).
      rewrite (Repeat_returns "" GoInt.max_int) by (vm_compute; discriminate).
      reflexivity. }
    destruct (@render_ok_writes sink _ amd64 _ _ quiet_world Hok)
      as (w2 & r & E2 & _).
    rewrite E2 in E. discriminate.
Qed.

(** ** Negative counts: the operations commute with the change of sign *)

Lemma binary_round_aux_opp s m e l :
  binary_round_aux prec emax (negb s) m e l
  = SFopp (binary_round_aux prec emax s m e l).
Proof.
  unfold binary_round_aux.
  destruct (shr_fexp prec emax m e l) as [mrs' e'].
  destruct (shr_fexp prec emax _ e' loc_Exact) as [mrs'' e''].
  destruct (shr_m mrs''); [reflexivity| |reflexivity].
  destruct (e'' <=? emax - prec); reflexivity.
Qed.

Lemma of_int_opp n : n <> 0 -> of_int (- n) = SFopp (of_int n).
Proof.
  intros Hn. unfold of_int. destruct n as [|p|p]; [contradiction| |];
    cbn [Z.opp binary_normalize]; unfold binary_round;
    destruct (shl_align _ _ _) as [mz ez].
  - apply (binary_round_aux_opp false).
  - change true with (negb false). rewrite (binary_round_aux_opp false).
    destruct (binary_round_aux prec emax false (Z.pos mz) ez loc_Exact)
      as [[]|[]| |[] ? ?]; reflexivity.
Qed.

Lemma mul_opp_l x y : Float64.mul (SFopp x) y = SFopp (Float64.mul x y).
Proof.
  destruct x as [sx|sx| |sx mx ex], y as [sy|sy| |sy my ey];
    cbn [Float64.mul SFmul SFopp]; rewrite <- ?negb_xorb_l; try reflexivity.
  apply binary_round_aux_opp.
Qed.

Lemma div_opp_l x y : Float64.div (SFopp x) y = SFopp (Float64.div x y).
Proof.
  destruct x as [sx|sx| |sx mx ex], y as [sy|sy| |sy my ey];
    cbn [Float64.div SFdiv SFopp]; rewrite <- ?negb_xorb_l; try reflexivity.
  destruct (SFdiv_core_binary prec emax (Z.pos mx) ex (Z.pos my) ey)
    as [[mz ez] lz].
  apply binary_round_aux_opp.
Qed.

Lemma scaled_opp n mx c : n <> 0 -> scaled (- n) mx c = SFopp (scaled n mx c).
Proof.
  intros Hn. unfold scaled, ratio.
  rewrite (of_int_opp n Hn), div_opp_l, mul_opp_l. reflexivity.
Qed.

Lemma trunc_opp x : trunc (SFopp x) = option_map Z.opp (trunc x).
Proof.
  destruct x as [s|s| |s m e]; cbn [trunc SFopp option_map]; try reflexivity.
  destruct s; cbn [negb cond_Zopp]; f_equal; lia.
Qed.

Section NegativeCounts.

Context {platform : Platform}.

(** The conversion rounds toward zero: the percentage of a negative count
    is the opposite of that of the count without its sign. *)
Lemma to_int_scaled_opp n mx c :
  0 < n <= mx -> 0 < mx < 2 ^ 64 -> 0 <= c <= 2 ^ 53 ->
  to_int (scaled (- n) mx c) = - to_int (scaled n mx c).
Proof.
  intros Hn Hm Hc.
  destruct (to_int_scaled_bounds n mx c ltac:(lia) Hm Hc) as (F & B & _).
  pose proof (to_int_fits _ F) as T. symmetry in T.
  rewrite (scaled_opp n mx c ltac:(lia)). unfold to_int at 1.
  rewrite trunc_opp, T. cbn [option_map].
  assert (R : GoInt.in_range (- to_int (scaled n mx c)) = true).
  { apply in_range_iff. change (2 ^ 63) with (2 ^ 10 * 2 ^ 53). lia. }
  rewrite R. reflexivity.
Qed.

End NegativeCounts.

(** ** How far the float percentage is from the exact one *)

Lemma rounds_to_rel v r :
  rounds_to v r -> (v * (1 - eps) <= r /\ r <= v * (1 + eps))%Q.
Proof.
  intros (e & n & x & Hv & [Hx1 Hx2] & [[Hn1 Hn2] _] & Hr).
  rewrite Hv, Hr. pose proof (bpow_pos e) as Hb.
  change (inject_Z (2 ^ 52)) with (4503599627370496 # 1)%Q in Hx1.
  unfold eps.
  split.
  - assert (0 <= (inject_Z n - x * (1 - (1 # 9007199254740992))) * bpow e)%Q
      by (apply Qmult_le_0_compat; lra).
    lra.
  - assert (0 <= (x * (1 + (1 # 9007199254740992)) - inject_Z n) * bpow e)%Q
      by (apply Qmult_le_0_compat; lra).
    lra.
Qed.

Lemma scaled_error n mx c :
  0 < n <= mx -> 0 < c -> mx * (c + 1) <= 2 ^ 50 ->
  (inject_Z (n * c) * (1 - eps) * (1 - eps)
     <= inject_Z mx * SF2Q (scaled n mx c) /\
   inject_Z mx * SF2Q (scaled n mx c)
     <= inject_Z (n * c) * (1 + eps) * (1 + eps))%Q.
Proof.
  intros Hn Hc Hb.
  assert (Hmx : mx <= 2 ^ 49) by nia.
  assert (Hc' : c < 2 ^ 50) by nia.
  assert (H53 : 2 ^ 50 < 2 ^ 53) by reflexivity.
  assert (H64 : 2 ^ 53 < 2 ^ 64) by reflexivity.
  assert (H49 : 2 ^ 49 < 2 ^ 50) by reflexivity.
  destruct (ratio_pos_normal n mx ltac:(lia) ltac:(lia)) as [_ R1].
  destruct (scaled_pos_normal n mx c ltac:(lia) ltac:(lia) ltac:(lia))
    as [_ R2].
  pose proof (of_int_exact n ltac:(lia)) as En.
  pose proof (of_int_exact mx ltac:(lia)) as Em.
  pose proof (of_int_exact c ltac:(lia)) as Ec.
  apply rounds_to_rel in R1, R2.
  rewrite En, Em in R1. rewrite Ec in R2.
  set (r1 := SF2Q (ratio n mx)) in *. set (r2 := SF2Q (scaled n mx c)) in *.
  rewrite inject_Z_mult.
  assert (HM : (0 < inject_Z mx)%Q)
    by (change 0%Q with (inject_Z 0); rewrite <- Zlt_Qlt; lia).
  assert (HN : (0 < inject_Z n)%Q)
    by (change 0%Q with (inject_Z 0); rewrite <- Zlt_Qlt; lia).
  assert (HC : (0 < inject_Z c)%Q)
    by (change 0%Q with (inject_Z 0); rewrite <- Zlt_Qlt; lia).
  set (M := inject_Z mx) in *. set (N := inject_Z n) in *.
  set (C := inject_Z c) in *.
  assert (EA : (M * (N / M) == N)%Q) by (field; lra).
  destruct R1 as [R1l R1u]. destruct R2 as [R2l R2u].
  assert (He : (0 < eps /\ eps < 1)%Q) by (unfold eps; split; reflexivity).
  assert (M1l : (N * (1 - eps) <= M * r1)%Q).
  { assert (0 <= M * (r1 - N / M * (1 - eps)))%Q
      by (apply Qmult_le_0_compat; lra).
    assert (M * (r1 - N / M * (1 - eps))
            == M * r1 - M * (N / M) * (1 - eps))%Q by ring.
    rewrite EA in *. lra. }
  assert (M1u : (M * r1 <= N * (1 + eps))%Q).
  { assert (0 <= M * (N / M * (1 + eps) - r1))%Q
      by (apply Qmult_le_0_compat; lra).
    assert (M * (N / M * (1 + eps) - r1)
            == M * (N / M) * (1 + eps) - M * r1)%Q by ring.
    rewrite EA in *. lra. }
  split.
  - assert (0 <= M * (r2 - r1 * C * (1 - eps)))%Q
      by (apply Qmult_le_0_compat; lra).
    assert (0 <= (M * r1 - N * (1 - eps)) * (C * (1 - eps)))%Q.
    { apply Qmult_le_0_compat; [lra|]. apply Qmult_le_0_compat; lra. }
    lra.
  - assert (0 <= M * (r1 * C * (1 + eps) - r2))%Q
      by (apply Qmult_le_0_compat; lra).
    assert (0 <= (N * (1 + eps) - M * r1) * (C * (1 + eps)))%Q.
    { apply Qmult_le_0_compat; [lra|]. apply Qmult_le_0_compat; lra. }
    lra.
Qed.

Section WithinOne.

Context {platform : Platform}.

(** The truncated float is the exact quotient rounded down, or one less. *)
Lemma to_int_scaled_within_one n mx c :
  0 <= n <= mx -> 0 < mx -> 0 < c -> mx * (c + 1) <= 2 ^ 50 ->
  n * c / mx - 1 <= to_int (scaled n mx c) <= n * c / mx.
Proof.
  intros Hn Hm Hc Hb.
  assert (Hmx : mx <= 2 ^ 49) by nia.
  assert (Hc' : c < 2 ^ 50) by nia.
  assert (H53 : 2 ^ 50 < 2 ^ 53) by reflexivity.
  assert (H64 : 2 ^ 53 < 2 ^ 64) by reflexivity.
  assert (H49 : 2 ^ 49 < 2 ^ 50) by reflexivity.
  destruct (Z.eq_dec n 0) as [-> | Hn0].
  { rewrite to_int_scaled_zero; [cbn; lia|lia| |];
      apply in_range_iff; change (2 ^ 63) with (2 ^ 10 * 2 ^ 53); lia. }
  destruct (to_int_scaled_bounds n mx c Hn ltac:(lia) ltac:(lia))
    as (F & _ & _).
  destruct (trunc_scaled n mx c ltac:(lia) ltac:(lia) ltac:(lia))
    as (t & T & _ & _ & Lt & Ut).
  pose proof (to_int_fits _ F) as E. rewrite T in E. injection E as ->.
  destruct (scaled_error n mx c ltac:(lia) Hc Hb) as [El Eu].
  set (r2 := SF2Q (scaled n mx c)) in *.
  pose proof (Z.div_mod (n * c) mx ltac:(lia)) as Hdm.
  pose proof (Z.mod_pos_bound (n * c) mx Hm) as Hrem.
  set (q := n * c / mx) in *. set (rem := (n * c) mod mx) in *.
  assert (HP : 0 <= n * c <= 2 ^ 50) by nia.
  assert (HPq : (0 <= inject_Z (n * c) /\ inject_Z (n * c) <= 1125899906842624)%Q).
  { change 0%Q with (inject_Z 0).
    change (1125899906842624)%Q with (inject_Z (2 ^ 50)).
    rewrite <- !Zle_Qle. exact HP. }
  assert (HM : (1 <= inject_Z mx)%Q)
    by (change 1%Q with (inject_Z 1); rewrite <- Zle_Qle; lia).
  assert (EP : (inject_Z (n * c) == inject_Z mx * inject_Z q + inject_Z rem)%Q).
  { rewrite <- inject_Z_mult, <- inject_Z_plus. rewrite <- Hdm. reflexivity. }
  assert (HR : (0 <= inject_Z rem /\ inject_Z rem + 1 <= inject_Z mx)%Q).
  { change 0%Q with (inject_Z 0). rewrite <- Zle_Qle.
    split; [lia|]. change 1%Q with (inject_Z 1).
    rewrite <- inject_Z_plus, <- Zle_Qle. lia. }
  set (P := inject_Z (n * c)) in *. set (M := inject_Z mx) in *.
  unfold eps in *.
  split.
  - destruct (Z_le_gt_dec (q - 1) t) as [|Hgt]; [assumption|exfalso].
    assert (Hq : (inject_Z t + 1 + 1 <= inject_Z q)%Q).
    { change 1%Q with (inject_Z 1).
      rewrite <- !inject_Z_plus, <- Zle_Qle. lia. }
    assert (0 <= M * (inject_Z q - 1 - r2))%Q
      by (apply Qmult_le_0_compat; lra).
    lra.
  - destruct (Z_le_gt_dec t q) as [|Hgt]; [assumption|exfalso].
    assert (Hq : (inject_Z q + 1 <= inject_Z t)%Q).
    { change 1%Q with (inject_Z 1).
      rewrite <- !inject_Z_plus, <- Zle_Qle. lia. }
    assert (0 <= M * (r2 - (inject_Z q + 1)))%Q
      by (apply Qmult_le_0_compat; lra).
    lra.
Qed.

End WithinOne.

(** ** Addition, and the seconds of a duration *)

Lemma shl_align_fst m e ez :
  ez <= e -> Z.pos (fst (shl_align m e ez)) = Z.pos m * 2 ^ (e - ez).
Proof.
  intros H. unfold shl_align.
  destruct (ez - e) as [|k|k] eqn:Ek; try lia.
  - cbn [fst]. replace (e - ez) with 0 by lia. lia.
  - cbn [fst]. rewrite Pos_iter_xO. f_equal. f_equal. lia.
Qed.

Lemma pow2_pos a : 0 <= a -> 0 < 2 ^ a.
Proof. intros. apply Z.pow_pos_nonneg; lia. Qed.

Lemma digits2_pos_between p a :
  0 <= a -> 2 ^ (52 + a) <= Z.pos p < 2 ^ (54 + a) ->
  53 + a <= Z.pos (digits2_pos p) <= 54 + a.
Proof.
  intros Ha [L U]. pose proof (digits2_pos_bounds p) as [L' U'].
  set (d := Z.pos (digits2_pos p)) in *.
  split.
  - destruct (Z_le_gt_dec (53 + a) d) as [|G]; [assumption|exfalso].
    assert (2 ^ d <= 2 ^ (52 + a)) by (apply Z.pow_le_mono_r; lia). lia.
  - destruct (Z_le_gt_dec d (54 + a)) as [|G]; [assumption|exfalso].
    assert (2 ^ (54 + a) <= 2 ^ (d - 1)) by (apply Z.pow_le_mono_r; lia). lia.
Qed.

(** The sum of two positive floats, away from the ends of the exponent
    range. *)
Lemma SFadd_correct mx ex my ey :
  Z.pos (digits2_pos mx) = 53 -> Z.pos (digits2_pos my) = 53 ->
  -1000 <= ex <= 900 -> -1000 <= ey <= 900 ->
  exists m e,
    SFadd prec emax (S754_finite false mx ex) (S754_finite false my ey)
      = S754_finite false m e /\
    Z.pos (digits2_pos m) = 53 /\
    Z.max ex ey <= e <= Z.max ex ey + 2 /\
    rounds_to (inject_Z (Z.pos mx) * bpow ex + inject_Z (Z.pos my) * bpow ey)
              (inject_Z (Z.pos m) * bpow e).
Proof.
  intros Dx Dy Hex Hey.
  pose proof (digits2_pos_bounds mx) as Bx. rewrite Dx in Bx.
  pose proof (digits2_pos_bounds my) as By. rewrite Dy in By.
  change (2 ^ (53 - 1)) with (2 ^ 52) in *.
  cbn [SFadd cond_Zopp].
  set (ez := Z.min ex ey).
  assert (Hez : ez <= ex /\ ez <= ey) by (unfold ez; lia).
  pose proof (shl_align_fst mx ex ez ltac:(lia)) as Ax.
  pose proof (shl_align_fst my ey ez ltac:(lia)) as Ay.
  set (ax := fst (shl_align mx ex ez)) in *.
  set (ay := fst (shl_align my ey ez)) in *.
  change (Z.pos ax + Z.pos ay) with (Z.pos (ax + ay)).
  cbn [binary_normalize].
  set (p := (ax + ay)%positive).
  assert (Ep : Z.pos p = Z.pos mx * 2 ^ (ex - ez) + Z.pos my * 2 ^ (ey - ez)).
  { unfold p. rewrite Pos2Z.inj_add, Ax, Ay. reflexivity. }
  set (a := Z.max ex ey - ez).
  assert (Ha : 0 <= a) by (unfold a; lia).
  assert (Hp : 2 ^ (52 + a) <= Z.pos p < 2 ^ (54 + a)).
  { rewrite Ep. unfold a, ez.
    destruct (Z.le_ge_cases ex ey) as [Hle|Hge].
    - rewrite Z.min_l, Z.max_r by lia. rewrite Z.sub_diag.
      change (2 ^ 0) with 1. rewrite !pow2_split by lia.
      pose proof (pow2_pos (ey - ex) ltac:(lia)).
      change (2 ^ 54) with (2 * 2 ^ 53). nia.
    - rewrite Z.min_r, Z.max_l by lia. rewrite Z.sub_diag.
      change (2 ^ 0) with 1. rewrite !pow2_split by lia.
      pose proof (pow2_pos (ex - ey) ltac:(lia)).
      change (2 ^ 54) with (2 * 2 ^ 53). nia. }
  pose proof (digits2_pos_between p a Ha Hp) as Hd.
  set (d := Z.pos (digits2_pos p)) in *.
  unfold binary_round, shl_align. fold d.
  rewrite fexp_normal by (unfold a in Hd; lia).
  destruct (d + ez - 53 - ez) as [|k|k] eqn:Ek; try lia.
  - destruct (binary_round_aux_correct false p ez loc_Exact
                (inject_Z (Z.pos p)) d)
      as (m & e & R & D & E & H); try reflexivity;
      try (unfold a in Hd; lia).
    exists m, e. split; [exact R|]. split; [exact D|].
    split; [unfold a in Hd; lia|].
    eapply rounds_to_ext; [|reflexivity|exact H].
    rewrite Ep, inject_Z_plus, !inject_Z_mult.
    rewrite <- !bpow_inject by lia.
    rewrite Qmult_plus_distr_l, <- !Qmult_assoc, <- !bpow_add.
    replace (ex - ez + ez) with ex by lia.
    replace (ey - ez + ez) with ey by lia. reflexivity.
  - destruct (binary_round_aux_correct false p ez loc_Exact
                (inject_Z (Z.pos p)) d)
      as (m & e & R & D & E & H); try reflexivity;
      try (unfold a in Hd; lia).
    exists m, e. split; [exact R|]. split; [exact D|].
    split; [unfold a in Hd; lia|].
    eapply rounds_to_ext; [|reflexivity|exact H].
    rewrite Ep, inject_Z_plus, !inject_Z_mult.
    rewrite <- !bpow_inject by lia.
    rewrite Qmult_plus_distr_l, <- !Qmult_assoc, <- !bpow_add.
    replace (ex - ez + ez) with ex by lia.
    replace (ey - ez + ez) with ey by lia. reflexivity.
Qed.

Lemma add_pos_normal x y lx hx ly hy :
  pos_normal x lx hx -> pos_normal y ly hy ->
  -1000 <= lx -> -1000 <= ly -> hx <= 900 -> hy <= 900 ->
  pos_normal (Float64.add x y) (Z.min lx ly) (Z.max hx hy + 2) /\
  rounds_to (SF2Q x + SF2Q y) (SF2Q (Float64.add x y)).
Proof.
  intros (mx & ex & -> & Dx & Ex) (my & ey & -> & Dy & Ey) Hlx Hly Hhx Hhy.
  destruct (SFadd_correct mx ex my ey Dx Dy ltac:(lia) ltac:(lia))
    as (m & e & R & D & E & H).
  unfold Float64.add. rewrite R. split.
  - exists m, e. split; [reflexivity|]. split; [exact D|]. lia.
  - exact H.
Qed.

Lemma rounds_to_scale v r k :
  rounds_to v r -> rounds_to (v * bpow k) (r * bpow k).
Proof.
  intros (e & n & x & Hv & Hx & Hn & Hr).
  exists (e + k), n, x. split; [|split; [exact Hx|split; [exact Hn|]]].
  - rewrite Hv, bpow_add. ring.
  - rewrite Hr, bpow_add. ring.
Qed.

Lemma dyadic_representable c k :
  0 < c <= 2 ^ 53 -> rounds_to (inject_Z c * bpow k) (inject_Z c * bpow k).
Proof. intros H. apply rounds_to_scale, int_representable. exact H. Qed.

Lemma of_int_0 : of_int 0 = S754_zero false.
Proof. reflexivity. Qed.

Lemma add_zero_l x lo hi :
  pos_normal x lo hi -> Float64.add (S754_zero false) x = x.
Proof. intros (m & e & -> & _). reflexivity. Qed.

Lemma add_zero_r x lo hi :
  pos_normal x lo hi -> Float64.add x (S754_zero false) = x.
Proof. intros (m & e & -> & _). reflexivity. Qed.

Lemma div_zero_l x lo hi :
  pos_normal x lo hi -> Float64.div (S754_zero false) x = S754_zero false.
Proof. intros (m & e & -> & _). reflexivity. Qed.

Lemma Second_pos_normal : pos_normal (of_int 1000000000) (-52) 12.
Proof. apply of_int_pos_normal. split; reflexivity. Qed.

(** The fraction of a second: below one by at least 2^-30. *)
Lemma fraction_below_one r :
  0 < r < 1000000000 ->
  pos_normal (ratio r 1000000000) (-117) 13 /\
  (SF2Q (ratio r 1000000000) <= 1073741823 * bpow (-30))%Q.
Proof.
  intros Hr.
  destruct (ratio_pos_normal r 1000000000 ltac:(lia) ltac:(split; reflexivity))
    as [N R].
  split; [exact N|].
  pose proof (dyadic_representable 1073741823 (-30)
                ltac:(split; [reflexivity|discriminate]))
    as R'.
  change (inject_Z 1073741823) with 1073741823%Q in R'.
  apply (rounds_to_mono _ _ _ _ R R').
  rewrite (of_int_exact r ltac:(lia)).
  rewrite (of_int_exact 1000000000 ltac:(split; [reflexivity|discriminate])).
  change (inject_Z 1000000000) with 1000000000%Q.
  change (bpow (-30)) with (1 # 1073741824)%Q.
  assert (H : (inject_Z r <= 999999999)%Q).
  { change 999999999%Q with (inject_Z 999999999). rewrite <- Zle_Qle. lia. }
  assert (H0 : (0 <= inject_Z r)%Q).
  { change 0%Q with (inject_Z 0). rewrite <- Zle_Qle. lia. }
  apply Qle_shift_div_r; [reflexivity|]. lra.
Qed.

(** [d.Seconds()] of a duration that is not negative is zero or a positive
    float. *)
Lemma Seconds_cases d :
  0 <= d <= GoInt.max_int ->
  time.Seconds d = S754_zero false \/ pos_normal (time.Seconds d) (-117) 15.
Proof.
  intros Hd. unfold GoInt.max_int in Hd. unfold time.Seconds, time.Second.
  rewrite Z.quot_div_nonneg, Z.rem_mod_nonneg by lia.
  pose proof (Z.mod_pos_bound d 1000000000 ltac:(lia)) as Hr.
  assert (Hq : 0 <= d / 1000000000 < 2 ^ 64).
  { split; [apply Z.div_pos; lia|].
    apply Z.div_lt_upper_bound; [lia|]. change (2 ^ 63) with 9223372036854775808 in Hd.
    change (2 ^ 64) with 18446744073709551616. lia. }
  set (q := d / 1000000000) in *. set (r := d mod 1000000000) in *.
  fold (ratio r 1000000000).
  destruct (Z.eq_dec q 0) as [-> | Hq0]; destruct (Z.eq_dec r 0) as [-> | Hr0].
  - left. reflexivity.
  - right. destruct (fraction_below_one r ltac:(lia)) as [N _].
    rewrite of_int_0, (add_zero_l _ _ _ N).
    eapply pos_normal_weaken; [exact N|lia|lia].
  - right. destruct (of_int_pos_normal q ltac:(lia)) as [N _].
    unfold ratio. rewrite of_int_0, (div_zero_l _ _ _ Second_pos_normal).
    rewrite (add_zero_r _ _ _ N).
    eapply pos_normal_weaken; [exact N|lia|lia].
  - right. destruct (of_int_pos_normal q ltac:(lia)) as [Nq _].
    destruct (fraction_below_one r ltac:(lia)) as [Nr _].
    destruct (add_pos_normal _ _ _ _ _ _ Nq Nr) as [N _]; try lia.
    eapply pos_normal_weaken; [exact N|lia|lia].
Qed.

(** Its integer part is the number of whole seconds, for durations under
    2^23 seconds. *)
Lemma Seconds_trunc d :
  0 <= d < 2 ^ 23 * 1000000000 ->
  trunc (time.Seconds d) = Some (d / 1000000000).
Proof.
  intros Hd. unfold time.Seconds, time.Second.
  rewrite Z.quot_div_nonneg, Z.rem_mod_nonneg by lia.
  pose proof (Z.mod_pos_bound d 1000000000 ltac:(lia)) as Hr.
  assert (Hq : 0 <= d / 1000000000 < 2 ^ 23).
  { split; [apply Z.div_pos; lia|].
    apply Z.div_lt_upper_bound; lia. }
  set (q := d / 1000000000) in *. set (r := d mod 1000000000) in *.
  fold (ratio r 1000000000).
  assert (H23 : 2 ^ 23 = 8388608) by reflexivity.
  assert (H53 : 2 ^ 53 = 9007199254740992) by reflexivity.
  assert (H64 : 2 ^ 64 = 18446744073709551616) by reflexivity.
  destruct (Z.eq_dec q 0) as [E | Hq0]; destruct (Z.eq_dec r 0) as [E' | Hr0].
  - rewrite E, E'. reflexivity.
  - rewrite E. destruct (fraction_below_one r ltac:(lia)) as [N B].
    rewrite of_int_0, (add_zero_l _ _ _ N).
    destruct (trunc_pos_normal _ _ _ N) as (t & -> & Ht & L & U).
    f_equal. change (bpow (-30)) with (1 # 1073741824)%Q in B.
    destruct (Z_le_gt_dec t 0) as [|G]; [lia|exfalso].
    assert (1 <= inject_Z t)%Q
      by (change 1%Q with (inject_Z 1); rewrite <- Zle_Qle; lia).
    lra.
  - rewrite E'. destruct (of_int_pos_normal q ltac:(lia)) as [N _].
    unfold ratio. rewrite of_int_0, (div_zero_l _ _ _ Second_pos_normal).
    rewrite (add_zero_r _ _ _ N).
    destruct (trunc_pos_normal _ _ _ N) as (t & -> & Ht & L & U).
    f_equal. rewrite (of_int_exact q ltac:(lia)) in L, U.
    rewrite <- Zle_Qle in L.
    change 1%Q with (inject_Z 1) in U.
    rewrite <- inject_Z_plus, <- Zlt_Qlt in U. lia.
  - destruct (of_int_pos_normal q ltac:(lia)) as [Nq _].
    destruct (fraction_below_one r ltac:(lia)) as [Nr B].
    destruct (add_pos_normal _ _ _ _ _ _ Nq Nr) as [N R0]; try lia.
    assert (R : rounds_to (inject_Z q + SF2Q (ratio r 1000000000))
                  (SF2Q (Float64.add (of_int q) (ratio r 1000000000)))).
    { eapply rounds_to_ext; [|reflexivity|exact R0].
      rewrite (of_int_exact q ltac:(lia)). reflexivity. }
    clear R0.
    destruct (trunc_pos_normal _ _ _ N) as (t & -> & Ht & L & U).
    f_equal.
    set (v := SF2Q (Float64.add (of_int q) (ratio r 1000000000))) in *.
    set (f := SF2Q (ratio r 1000000000)) in *.
    pose proof (pos_normal_pos _ _ _ Nr) as Hf. fold f in Hf.
    assert (Lv : (inject_Z q <= v)%Q).
    { apply (rounds_to_mono (inject_Z q) (inject_Z q + f) _ _
               (int_representable q ltac:(lia)) R). lra. }
    assert (Uv : (v <= inject_Z ((q + 1) * 1073741824 - 1) * bpow (-30))%Q).
    { apply (rounds_to_mono (inject_Z q + f) _ _ _ R
               (dyadic_representable ((q + 1) * 1073741824 - 1) (-30)
                  ltac:(lia))).
      change (bpow (-30)) with (1 # 1073741824)%Q in *.
      unfold Z.sub.
      rewrite inject_Z_plus, inject_Z_mult, inject_Z_plus, inject_Z_opp.
      change (inject_Z 1) with 1%Q.
      change (inject_Z 1073741824) with 1073741824%Q. lra. }
    change (bpow (-30)) with (1 # 1073741824)%Q in Uv.
    unfold Z.sub in Uv.
    rewrite inject_Z_plus, inject_Z_mult, inject_Z_plus, inject_Z_opp in Uv.
    change (inject_Z 1) with 1%Q in Uv.
    change (inject_Z 1073741824) with 1073741824%Q in Uv.
    assert (Hlt : (inject_Z t < inject_Z (q + 1))%Q).
    { rewrite inject_Z_plus. change (inject_Z 1) with 1%Q. lra. }
    assert (Hgt : (inject_Z q < inject_Z (t + 1))%Q).
    { rewrite inject_Z_plus. change (inject_Z 1) with 1%Q. lra. }
    rewrite <- Zlt_Qlt in Hlt, Hgt. lia.
Qed.

Lemma sub_self x lo hi :
  pos_normal x lo hi -> Float64.sub x x = S754_zero false.
Proof.
  intros (m & e & -> & _). cbn [Float64.sub SFsub].
  rewrite Z.sub_diag. reflexivity.
Qed.

Lemma Sub_nonneg t u :
  u <= t -> 0 <= time.Sub t u <= GoInt.max_int.
Proof.
  intros H. unfold time.Sub, GoInt.max_int, GoInt.min_int.
  destruct (Z.ltb_spec (t - u) (- 2 ^ 63)); [lia|].
  destruct (Z.ltb_spec (2 ^ 63 - 1) (t - u)); lia.
Qed.

Lemma Sub_small t u :
  0 <= t - u < 2 ^ 23 * 1000000000 -> time.Sub t u = t - u.
Proof.
  intros H. unfold time.Sub, GoInt.max_int, GoInt.min_int.
  assert (2 ^ 23 * 1000000000 < 2 ^ 63 - 1) by reflexivity.
  destruct (Z.ltb_spec (t - u) (- 2 ^ 63)); [lia|].
  destruct (Z.ltb_spec (2 ^ 63 - 1) (t - u)); lia.
Qed.

Section Durations.

Context {platform : Platform}.

Lemma whole_seconds_of_zero s : whole_seconds (S754_zero s) = "0s".
Proof. reflexivity. Qed.

(** The time to go once the count has reached the maximum. *)
Lemma nothing_left d n :
  0 <= d <= GoInt.max_int -> 0 < n < 2 ^ 64 ->
  exists s,
    Float64.mul (Float64.div (time.Seconds d) (of_int n))
                (Float64.sub (of_int n) (of_int n)) = S754_zero s.
Proof.
  intros Hd Hn. destruct (of_int_pos_normal n Hn) as [N _].
  rewrite (sub_self _ _ _ N).
  destruct (Seconds_cases d Hd) as [-> | S].
  - rewrite (div_zero_l _ _ _ N). eexists. reflexivity.
  - destruct (div_pos_normal _ _ _ _ _ _ S N) as [(m & e & -> & _) _];
      try lia.
    eexists. reflexivity.
Qed.

(** The elapsed time as the line shows it. *)
Lemma whole_seconds_Seconds d :
  0 <= d < 2 ^ 23 * 1000000000 ->
  whole_seconds (time.Seconds d)
  = time.String_ (d / 1000000000 * 1000000000).
Proof.
  intros Hd. unfold whole_seconds, to_int. rewrite (Seconds_trunc d Hd).
  assert (Hq : 0 <= d / 1000000000 < 2 ^ 23).
  { split; [apply Z.div_pos; lia|]. apply Z.div_lt_upper_bound; lia. }
  assert (H23 : 2 ^ 23 = 8388608) by reflexivity.
  assert (H63 : 2 ^ 63 = 9223372036854775808) by reflexivity.
  replace (GoInt.in_range (d / 1000000000)) with true
    by (symmetry; apply in_range_iff; lia).
  unfold GoInt.mul, time.Second. rewrite wrap_id; [reflexivity|].
  apply in_range_iff. lia.
Qed.

End Durations.

(** ** More on the renderer *)

Section RendererTrace.

Context {W : Type} {writer_W : Writer W} {platform : Platform}.

(** The renderer, when neither repetition panics and the writer is at
    [a]: the clock is read, the line is written, and the writer is synced
    when the write went through and it is a file. *)
Lemma render_exact c s a (w : world W) :
  writer c = Writer_at a ->
  render_ok c s = true ->
  renderProgressBar c s w =
    let line := line_of c s w in
    let '(k, err) := WriteString (sinks w a) line in
    let w3 := update_sink (later w (readings s)) a k (ev_WriteString a line) in
    match err with
    | Some e => (w3, Returned (Some e))
    | None =>
        if is_os_File k then
          let '(k', err') := Sync k in
          (update_sink w3 a k' (ev_Sync a), Returned err')
        else (w3, Returned None)
    end.
Proof.
  intros Hw Hok. unfold render_ok in Hok. rewrite Hw in Hok.
  unfold renderProgressBar, line_of, elapsed_of, leftTime_of, readings.
  unfold strings.Repeat in *.
  destruct (currentSaucerSize s <? 0); [discriminate|].
  destruct (GoInt.max_int <? _); [discriminate|].
  destruct (max_alloc <? _); [discriminate|].
  destruct (GoInt.sub (width c) (currentSaucerSize s) <? 0); [discriminate|].
  destruct (GoInt.max_int <? _); [discriminate|].
  destruct (max_alloc <? _); [discriminate|].
  rewrite Hw. destruct w as [ck tk sk ev].
  destruct (0 <? currentNum s).
  - cbv beta iota zeta delta [bind lift ret time_Since time_Now io_WriteString
                                later].
    cbn [clock ticks sinks events].
    replace (tk + 2 - 1)%nat with (S tk) by lia.
    replace (tk + 2)%nat with (S (S tk)) by lia.
    match goal with
    | |- context [WriteString (sk a) ?l] =>
        destruct (WriteString (sk a) l) as [k [e|]]
    end; [reflexivity|].
    unfold sync_if_File, update_sink. cbn [sinks clock ticks events].
    rewrite Nat.eqb_refl. destruct (is_os_File k); [|reflexivity].
    destruct (Sync k). reflexivity.
  - cbv beta iota zeta delta [bind lift ret time_Since time_Now io_WriteString
                                later].
    cbn [clock ticks sinks events].
    replace (tk + 1 - 1)%nat with tk by lia.
    replace (tk + 1)%nat with (S tk) by lia.
    match goal with
    | |- context [WriteString (sk a) ?l] =>
        destruct (WriteString (sk a) l) as [k [e|]]
    end; [reflexivity|].
    unfold sync_if_File, update_sink. cbn [sinks clock ticks events].
    rewrite Nat.eqb_refl. destruct (is_os_File k); [|reflexivity].
    destruct (Sync k). reflexivity.
Qed.

Lemma render_ok_writer c s :
  render_ok c s = true -> exists a, writer c = Writer_at a.
Proof.
  unfold render_ok. destruct (writer c) as [|a]; [discriminate|]. eauto.
Qed.

(** What a render that did not panic added to the calls: the line, and a
    sync or nothing. *)
Lemma render_events c s a (w w' : world W) r :
  writer c = Writer_at a ->
  renderProgressBar c s w = (w', Returned r) ->
  exists rest,
    events w' = (events w ++ ev_WriteString a (line_of c s w) :: rest)%list /\
    (rest = [] \/ rest = [ev_Sync a]).
Proof.
  intros Hw H.
  assert (Hok : render_ok c s = true).
  { destruct (render_ok c s) eqn:Hok; [reflexivity|].
    destruct (render_not_ok_panics c s w Hok) as (w1 & msg & E & _).
    rewrite E in H. discriminate. }
  rewrite (render_exact c s a w Hw Hok) in H. cbv zeta in H.
  destruct (WriteString (sinks w a) _) as [k [e|]].
  - injection H as <- _. exists []. cbn. auto.
  - destruct (is_os_File k).
    + destruct (Sync k) as [k' err']. injection H as <- _.
      exists [ev_Sync a]. cbn. rewrite <- app_assoc. auto.
    + injection H as <- _. exists []. cbn. auto.
Qed.

Lemma render_returned_ok c s (w w' : world W) r :
  renderProgressBar c s w = (w', Returned r) -> render_ok c s = true.
Proof.
  intros H. destruct (render_ok c s) eqn:Hok; [reflexivity|].
  destruct (render_not_ok_panics c s w Hok) as (w1 & msg & E & _).
  rewrite E in H. discriminate.
Qed.

(** X7.  A render that returns made exactly one write, of the line, on the
    configured writer.  When the write failed its error is returned and the
    writer is not synced; when it went through and the writer is an
    [os.File] the file is synced once and what [Sync] returns is returned;
    otherwise nil is returned.  No other writer is touched, and the clock
    was read twice when the count is positive and once otherwise. *)
Theorem render_one_write c s a (w w' : world W) r :
  writer c = Writer_at a ->
  renderProgressBar c s w = (w', Returned r) ->
  let line := line_of c s w in
  let k := fst (WriteString (sinks w a) line) in
  ticks w' = (ticks w + (if (0 <? currentNum s)%Z then 2 else 1))%nat /\
  (forall b, b <> a -> sinks w' b = sinks w b) /\
  match snd (WriteString (sinks w a) line) with
  | Some e =>
      r = Some e /\ sinks w' a = k /\
      events w' = (events w ++ [ev_WriteString a line])%list
  | None =>
      if is_os_File k
      then r = snd (Sync k) /\ sinks w' a = fst (Sync k) /\
           events w' = (events w ++ [ev_WriteString a line; ev_Sync a])%list
      else r = None /\ sinks w' a = k /\
           events w' = (events w ++ [ev_WriteString a line])%list
  end.
Proof.
  intros Hw H line k. pose proof (render_returned_ok _ _ _ _ _ H) as Hok.
  rewrite (render_exact c s a w Hw Hok) in H. cbv zeta in H.
  fold line in H. unfold k. clear k.
  assert (Hne : forall b : nat, b <> a -> Nat.eqb b a = false)
    by (intros b Hb; apply Nat.eqb_neq; exact Hb).
  assert (Et : ticks (later w (readings s))
               = (ticks w + (if (0 <? currentNum s)%Z then 2 else 1))%nat)
    by reflexivity.
  destruct (WriteString (sinks w a) line) as [k [e|]]; cbn [fst snd].
  - injection H as <- <-. cbn [update_sink sinks events ticks].
    rewrite Nat.eqb_refl. split; [exact Et|]. split; [|auto].
    intros b Hb. rewrite (Hne b Hb). reflexivity.
  - destruct (is_os_File k).
    + destruct (Sync k) as [k' err']. injection H as <- <-.
      cbn [update_sink sinks events ticks fst snd]. rewrite Nat.eqb_refl.
      split; [exact Et|]. split; [|rewrite <- app_assoc; auto].
      intros b Hb. rewrite (Hne b Hb). reflexivity.
    + injection H as <- <-. cbn [update_sink sinks events ticks].
      rewrite Nat.eqb_refl. split; [exact Et|]. split; [|auto].
      intros b Hb. rewrite (Hne b Hb). reflexivity.
Qed.

Lemma len_append s t : strings.len (s ++ t) = strings.len s + strings.len t.
Proof.
  unfold strings.len. rewrite <- Nat2Z.inj_add. f_equal.
  induction s as [|ch s IH]; cbn; [reflexivity|]. rewrite IH. reflexivity.
Qed.

Lemma len_replicate n s :
  strings.len (strings.replicate n s) = Z.of_nat n * strings.len s.
Proof.
  induction n as [|n IH]; [reflexivity|].
  cbn [strings.replicate]. rewrite len_append, IH. lia.
Qed.

(** X8.  A render that returns, for a width that is not negative, found
    the fill width between 0 and the width, and wrote the percentage, then
    between the two borders the saucer repeated fill-width times followed
    by the padding repeated over the rest of the width, then the two
    durations. *)
Theorem returned_render_fills_width c s (w w' : world W) r :
  renderProgressBar c s w = (w', Returned r) ->
  0 <= width c <= GoInt.max_int ->
  GoInt.in_range (currentSaucerSize s) = true ->
  let n := currentSaucerSize s in
  let saucers := strings.replicate (Z.to_nat n) (Saucer (theme c)) in
  let padding :=
    strings.replicate (Z.to_nat (width c - n)) (SaucerPadding (theme c)) in
  0 <= n <= width c /\
  strings.len (saucers ++ padding)
    = n * strings.len (Saucer (theme c))
      + (width c - n) * strings.len (SaucerPadding (theme c)) /\
  exists a elapsed left rest,
    writer c = Writer_at a /\
    events w' =
      (events w ++
       ev_WriteString a
         (Sprintf_line (currentPercent s) (BarStart (theme c)) saucers padding
                       (BarEnd (theme c)) elapsed left) :: rest)%list.
Proof.
  intros H Hwd Hn n saucers padding.
  pose proof (render_returned_ok _ _ _ _ _ H) as Hok.
  apply in_range_iff in Hn. fold n in Hn. unfold GoInt.max_int in Hwd.
  assert (Hn0 : 0 <= n).
  { destruct (Z.lt_ge_cases n 0) as [Hlt|]; [|assumption].
    rewrite (render_ok_negative_count c s (or_introl Hlt)) in Hok.
    discriminate. }
  assert (Es : GoInt.sub (width c) n = width c - n).
  { apply wrap_id, in_range_iff. lia. }
  assert (Hn1 : n <= width c).
  { destruct (Z.lt_ge_cases (width c) n) as [Hlt|]; [|assumption].
    rewrite (render_ok_negative_count c s) in Hok; [discriminate|].
    right. fold n. rewrite Es. lia. }
  split; [lia|]. split.
  - unfold saucers, padding. rewrite len_append, !len_replicate.
    rewrite !Z2Nat.id by lia. reflexivity.
  - destruct (render_ok_writer c s Hok) as (a & Hw).
    destruct (render_events c s a w w' r Hw H) as (rest & Hev & _).
    unfold line_of in Hev. fold n in Hev. rewrite Es in Hev.
    fold saucers padding in Hev. eauto 6.
Qed.

End RendererTrace.

(** ** More on the tracker *)

Section Advances.

Context {W : Type} {writer_W : Writer W} {platform : Platform}.

Lemma wrap_wrap_add x y : GoInt.wrap (GoInt.wrap x + y) = GoInt.wrap (x + y).
Proof.
  unfold GoInt.wrap. f_equal.
  replace ((x + 2 ^ 63) mod 2 ^ 64 - 2 ^ 63 + y + 2 ^ 63)
    with ((x + 2 ^ 63) mod 2 ^ 64 + y) by lia.
  rewrite Z.add_mod_idemp_l by lia. f_equal. lia.
Qed.

Lemma add_add_assoc n a b :
  GoInt.add (GoInt.add n a) b = GoInt.add n (GoInt.add a b).
Proof.
  unfold GoInt.add. rewrite wrap_wrap_add.
  rewrite (Z.add_comm n (GoInt.wrap _)), wrap_wrap_add. f_equal. lia.
Qed.

Lemma after_Add_max_zero p num (w : world W) :
  max (p_config p) = 0 -> after_Add p num w = p.
Proof. intros H. unfold after_Add. rewrite (Add_max_zero _ _ _ H). reflexivity. Qed.

Lemma after_Add_eq p num (w : world W) :
  max (p_config p) <> 0 ->
  after_Add p num w = {| p_state := advanced p num; p_config := p_config p |}.
Proof.
  intros H. pose proof (Add_state p num w H) as Hs.
  pose proof (Add_config p num w) as Hc.
  destruct (after_Add p num w) as [s c]. cbn in Hs, Hc. congruence.
Qed.

Lemma sum_nonneg nums : Forall (Z.le 0) nums -> 0 <= sum nums.
Proof.
  induction 1 as [|x l Hx Hl IH]; [cbn; lia|].
  change (sum (x :: l)) with (x + sum l). lia.
Qed.

Lemma AddAll_cons p num rest (w : world W) :
  AddAll p (num :: rest) w =
  let '(w2, p2, percents) :=
    AddAll (after_Add p num w) rest (fst (fst (Add p num w))) in
  (w2, p2, currentPercent (p_state (after_Add p num w)) :: percents).
Proof.
  cbn [AddAll]. unfold after_Add. destruct (Add p num w) as [[w1 p1] r].
  reflexivity.
Qed.

Lemma run_cons p num rest (w : world W) :
  run p (num :: rest) w =
  let '(w2, p2, rs) :=
    run (after_Add p num w) rest (fst (fst (Add p num w))) in
  (w2, p2, snd (Add p num w) :: rs).
Proof.
  cbn [run]. unfold after_Add. destruct (Add p num w) as [[w1 p1] r].
  reflexivity.
Qed.

(** X1.  Two advances leave the tracker as one advance by their sum does,
    the sum being taken as Go adds two [int]s; only what was written on the
    way can differ.  This holds for every tracker, also with a maximum of
    zero, where no advance changes anything. *)
Theorem Add_twice p a b (w1 w2 w3 : world W) :
  after_Add (after_Add p a w1) b w2 = after_Add p (GoInt.add a b) w3.
Proof.
  destruct (Z.eq_dec (max (p_config p)) 0) as [H0|H0].
  - rewrite (after_Add_max_zero p a w1 H0), !after_Add_max_zero by exact H0.
    reflexivity.
  - rewrite (after_Add_eq p a w1 H0), (after_Add_eq p _ w3 H0).
    rewrite after_Add_eq by exact H0.
    cbn [p_config]. f_equal. unfold advanced. cbn [p_state p_config currentNum
      lastShown startTime]. rewrite add_add_assoc. reflexivity.
Qed.

Lemma after_Add_world p num (w w' : world W) :
  after_Add p num w = after_Add p num w'.
Proof.
  destruct (Z.eq_dec (max (p_config p)) 0) as [H0|H0].
  - rewrite !after_Add_max_zero by exact H0. reflexivity.
  - rewrite !after_Add_eq by exact H0. reflexivity.
Qed.

(** X2.  No run of advances touches the configuration or the two time
    stamps: they stay as the construction or the last [Reset] left them,
    whatever the calls return.  Nor does the tracker the run leaves depend
    on the world: a failing writer or a panic of the renderer does not
    undo or change the update of the state. *)
Theorem AddAll_keeps_configuration nums : forall p (w w' : world W),
  let p' := snd (fst (AddAll p nums w)) in
  p_config p' = p_config p /\
  startTime (p_state p') = startTime (p_state p) /\
  lastShown (p_state p') = lastShown (p_state p) /\
  p' = snd (fst (AddAll p nums w')).
Proof.
  induction nums as [|num rest IH]; intros p w w'; [cbn; auto|].
  cbv zeta. rewrite !AddAll_cons.
  rewrite (after_Add_world p num w' w).
  specialize (IH (after_Add p num w) (fst (fst (Add p num w)))
                 (fst (fst (Add p num w')))).
  cbv zeta in IH.
  destruct (AddAll (after_Add p num w) rest (fst (fst (Add p num w))))
    as [[w2 p2] percents].
  destruct (AddAll (after_Add p num w) rest (fst (fst (Add p num w'))))
    as [[w2' p2'] percents'].
  cbn [fst snd] in *. destruct IH as (Ec & Es & El & Ep).
  rewrite Ec, Es, El. split; [apply Add_config|].
  split; [|split; [|exact Ep]].
  - destruct (Z.eq_dec (max (p_config p)) 0) as [H0|H0].
    + rewrite (after_Add_max_zero p num w H0). reflexivity.
    + rewrite (Add_state p num w H0). reflexivity.
  - destruct (Z.eq_dec (max (p_config p)) 0) as [H0|H0].
    + rewrite (after_Add_max_zero p num w H0). reflexivity.
    + rewrite (Add_state p num w H0). reflexivity.
Qed.

Lemma AddAll_config_only nums : forall p (w : world W),
  p_config (snd (fst (AddAll p nums w))) = p_config p.
Proof.
  induction nums as [|num rest IH]; intros p w; [reflexivity|].
  rewrite AddAll_cons.
  specialize (IH (after_Add p num w) (fst (fst (Add p num w)))).
  destruct (AddAll (after_Add p num w) rest _) as [[w2 p2] percents].
  cbn [fst snd] in *. rewrite IH. apply Add_config.
Qed.

(** X3.  Once the count is above the maximum, every further advance by a
    non-negative amount returns the error "current number exceeds max" and
    writes nothing, while the count keeps growing, as long as it does not
    pass the largest [int]. *)
Theorem exceeded_stays_exceeded nums : forall p (w : world W),
  max (p_config p) <> 0 ->
  max (p_config p) < currentNum (p_state p) ->
  GoInt.in_range (currentNum (p_state p)) = true ->
  Forall (Z.le 0) nums ->
  currentNum (p_state p) + sum nums <= GoInt.max_int ->
  exists p',
    run p nums w = (w, p', map (fun _ => Returned (Some exceeds_max)) nums) /\
    currentNum (p_state p') = currentNum (p_state p) + sum nums.
Proof.
  induction nums as [|num rest IH]; intros p w H0 Hex Hr Hall Hov.
  - exists p. cbn. split; [reflexivity|lia].
  - inversion Hall as [|? ? Hnum Hrest]; subst.
    pose proof (sum_nonneg rest Hrest) as Hs.
    change (sum (num :: rest)) with (num + sum rest) in *.
    apply in_range_iff in Hr. unfold GoInt.max_int in Hov.
    assert (En : GoInt.add (currentNum (p_state p)) num
                 = currentNum (p_state p) + num).
    { apply wrap_id, in_range_iff. lia. }
    assert (EA : Add p num w =
                 (w, {| p_state := advanced p num; p_config := p_config p |},
                  Returned (Some exceeds_max))).
    { rewrite (Add_nonzero _ _ _ H0). cbv zeta.
      unfold advanced at 1. cbn [currentNum]. rewrite En.
      destruct (Z.ltb_spec (max (p_config p)) (currentNum (p_state p) + num));
        [reflexivity|lia]. }
    rewrite run_cons. unfold after_Add. rewrite EA. cbn [fst snd].
    destruct (IH {| p_state := advanced p num; p_config := p_config p |} w)
      as (p' & Erun & Ecount).
    + exact H0.
    + cbn [p_state p_config advanced currentNum]. rewrite En. lia.
    + cbn [p_state advanced currentNum]. rewrite En. apply in_range_iff. lia.
    + exact Hrest.
    + cbn [p_state advanced currentNum]. rewrite En.
      unfold GoInt.max_int. lia.
    + exists p'. rewrite Erun. split; [reflexivity|].
      rewrite Ecount. cbn [p_state advanced currentNum]. rewrite En. lia.
Qed.

End Advances.

Section Invariants.

Context {W : Type} {writer_W : Writer W} {platform : Platform}.

Lemma in_sync_blank p :
  max (p_config p) <> 0 -> GoInt.in_range (max (p_config p)) = true ->
  GoInt.in_range (width (p_config p)) = true ->
  blank (p_state p) -> in_sync p.
Proof.
  intros H0 Hm Hw (En & Ep & El & Ef). unfold in_sync. cbv zeta.
  rewrite En, Ep, El, Ef.
  rewrite !to_int_scaled_zero by (assumption || reflexivity). auto.
Qed.

Lemma in_sync_Add p num (w : world W) :
  max (p_config p) <> 0 -> in_sync (after_Add p num w).
Proof.
  intros H0. rewrite (after_Add_eq p num w H0). unfold in_sync, advanced.
  cbn. auto.
Qed.

Lemma reachable_config_range p :
  reachable p -> GoInt.in_range (max (p_config p)) = true.
Proof. intros H. apply (reachable_consistent p H). Qed.

(** The derived fields of a tracker a program can hold are in step with
    its count. *)
Lemma reachable_sync p :
  reachable p -> max (p_config p) <> 0 ->
  GoInt.in_range (width (p_config p)) = true -> in_sync p.
Proof.
  intros Hr.
  induction Hr as [max_ options w w' p Hm HN | p num w w' p' r Hr IH HA
                  | p w w' p' Hr IH HR]; intros H0 Hw.
  - destruct (NewOptions_returns _ _ _ _ _ HN) as (Hb & _ & _ & Hc).
    apply in_sync_blank; try assumption.
    rewrite Hc, fresh_max. exact Hm.
  - assert (E : p' = after_Add p num w) by (unfold after_Add; rewrite HA; reflexivity).
    subst p'. rewrite Add_config in H0. apply in_sync_Add. exact H0.
  - destruct (Reset_eq p w) as (w1 & E & _). rewrite E in HR.
    injection HR as _ <-. cbn [p_config] in *.
    apply in_sync_blank; cbn [p_config p_state]; try assumption.
    + apply reachable_config_range. exact Hr.
    + unfold blank. cbn. auto.
Qed.

(** X4.  In every tracker a program can hold, with a maximum other than
    zero, the last percentage equals the current one, and the percentage
    and the fill width are the conversions of the current count: none of
    the three ever lags behind the count. *)
Theorem reachable_in_sync p :
  reachable p -> max (p_config p) <> 0 ->
  GoInt.in_range (width (p_config p)) = true ->
  lastPercent (p_state p) = currentPercent (p_state p) /\
  currentPercent (p_state p)
    = to_int (Float64.mul
                (Float64.div (of_int (currentNum (p_state p)))
                             (of_int (max (p_config p))))
                (of_int 100)) /\
  currentSaucerSize (p_state p)
    = to_int (Float64.mul
                (Float64.div (of_int (currentNum (p_state p)))
                             (of_int (max (p_config p))))
                (of_int (width (p_config p)))).
Proof.
  intros Hr H0 Hw. destruct (reachable_sync p Hr H0 Hw) as (El & Ep & Ef).
  split; [exact El|]. split; [exact Ep|exact Ef].
Qed.

(** X20.  The bar never shrinks and never outgrows its width: on a tracker
    a program can hold, with a positive maximum and a width between 0 and
    2^53, an advance by a non-negative amount that keeps the count within
    the maximum leaves a fill width that is at least the one before and at
    most the width. *)
Theorem bar_never_shrinks p num (w : world W) :
  reachable p -> 0 < max (p_config p) ->
  0 <= width (p_config p) <= 2 ^ 53 ->
  0 <= currentNum (p_state p) -> 0 <= num ->
  currentNum (p_state p) + num <= max (p_config p) ->
  0 <= currentSaucerSize (p_state p) /\
  currentSaucerSize (p_state p)
    <= currentSaucerSize (p_state (after_Add p num w)) /\
  currentSaucerSize (p_state (after_Add p num w)) <= width (p_config p).
Proof.
  intros Hr Hm Hw Hn Hnum Hle.
  pose proof (reachable_config_range p Hr) as Hmr. apply in_range_iff in Hmr.
  assert (Hwr : GoInt.in_range (width (p_config p)) = true).
  { apply in_range_iff. change (2 ^ 63) with (2 ^ 10 * 2 ^ 53). lia. }
  destruct (reachable_sync p Hr ltac:(lia) Hwr) as (_ & _ & Ef).
  rewrite Ef, (Add_state p num w ltac:(lia)).
  cbn [advanced currentSaucerSize].
  replace (GoInt.add (currentNum (p_state p)) num)
    with (currentNum (p_state p) + num)
    by (symmetry; apply wrap_id, in_range_iff; lia).
  assert (H64 : 2 ^ 53 < 2 ^ 64) by reflexivity.
  assert (H63 : 2 ^ 63 < 2 ^ 64) by reflexivity.
  destruct (to_int_scaled_bounds (currentNum (p_state p) + num)
              (max (p_config p)) (width (p_config p)))
    as (F & B & _); try lia.
  destruct (to_int_scaled_mono (currentNum (p_state p))
              (currentNum (p_state p) + num) (max (p_config p))
              (width (p_config p)) ltac:(lia) ltac:(lia) ltac:(lia)
              ltac:(lia) F) as (_ & M).
  lia.
Qed.

Lemma AddAll_count nums : forall p (w : world W),
  max (p_config p) <> 0 ->
  GoInt.in_range (currentNum (p_state p)) = true ->
  Forall (Z.le 0) nums ->
  currentNum (p_state p) + sum nums <= GoInt.max_int ->
  currentNum (p_state (snd (fst (AddAll p nums w))))
  = currentNum (p_state p) + sum nums.
Proof.
  induction nums as [|num rest IH]; intros p w H0 Hr Hall Hov.
  - cbn. lia.
  - inversion Hall as [|? ? Hnum Hrest]; subst.
    pose proof (sum_nonneg rest Hrest) as Hs.
    change (sum (num :: rest)) with (num + sum rest) in *.
    apply in_range_iff in Hr. unfold GoInt.max_int in Hov.
    assert (En : GoInt.add (currentNum (p_state p)) num
                 = currentNum (p_state p) + num).
    { apply wrap_id, in_range_iff. lia. }
    rewrite AddAll_cons.
    specialize (IH (after_Add p num w) (fst (fst (Add p num w)))).
    rewrite Add_config, (Add_state p num w H0) in IH.
    cbn [advanced currentNum] in IH. rewrite En in IH.
    specialize (IH H0 ltac:(apply in_range_iff; lia) Hrest
                  ltac:(unfold GoInt.max_int; lia)).
    destruct (AddAll (after_Add p num w) rest _) as [[w2 p2] percents].
    cbn [fst snd] in *. lia.
Qed.

Lemma AddAll_last nums : forall p (w : world W),
  nums <> [] ->
  exists q num (w1 : world W),
    snd (fst (AddAll p nums w)) = after_Add q num w1 /\
    p_config q = p_config p.
Proof.
  induction nums as [|num rest IH]; intros p w Hne; [contradiction|].
  rewrite AddAll_cons. destruct rest as [|num' rest'].
  - cbn [AddAll fst snd]. exists p, num, w. auto.
  - destruct (IH (after_Add p num w) (fst (fst (Add p num w)))
                 ltac:(discriminate)) as (q & n & w1 & E & Ec).
    destruct (AddAll (after_Add p num w) (num' :: rest') _)
      as [[w2 p2] percents].
    cbn [fst snd] in *. exists q, n, w1. split; [exact E|].
    rewrite Ec. apply Add_config.
Qed.

(** X5.  Advances by non-negative amounts that bring the count to exactly
    the maximum end at 100 percent with the bar full: the fill width is the
    width.  The count may start anywhere from zero, the maximum is positive
    and the width at most 2^53. *)
Theorem advances_to_max p nums (w : world W) :
  0 < max (p_config p) <= GoInt.max_int ->
  0 <= width (p_config p) <= 2 ^ 53 ->
  0 <= currentNum (p_state p) ->
  Forall (Z.le 0) nums -> nums <> [] ->
  currentNum (p_state p) + sum nums = max (p_config p) ->
  let p' := snd (fst (AddAll p nums w)) in
  currentNum (p_state p') = max (p_config p) /\
  currentPercent (p_state p') = 100 /\
  currentSaucerSize (p_state p') = width (p_config p).
Proof.
  intros Hmax Hwd Hn Hall Hne Hsum p'.
  pose proof (sum_nonneg nums Hall) as Hs.
  assert (H0 : max (p_config p) <> 0) by lia.
  assert (Ec : currentNum (p_state p') = max (p_config p)).
  { unfold p'. rewrite AddAll_count; try assumption; try lia.
    apply in_range_iff. unfold GoInt.max_int in Hmax. lia. }
  split; [exact Ec|].
  destruct (AddAll_last nums p w Hne) as (q & num & w1 & E & Eq).
  fold p' in E. rewrite E in Ec |- *.
  rewrite <- Eq in *.
  rewrite (Add_state q num w1 H0) in Ec. cbn [advanced currentNum] in Ec.
  apply Add_reaches_max; assumption.
Qed.

End Invariants.

Section Writes.

Context {W : Type} {writer_W : Writer W} {platform : Platform}.

Lemma writes_app l l' : writes (l ++ l') = writes l + writes l'.
Proof.
  unfold writes. rewrite filter_app, length_app. lia.
Qed.


(** A render writes one line or, when it panics, none. *)
Lemma render_writes_at_most_one c s (w w' : world W) r :
  renderProgressBar c s w = (w', r) ->
  writes (events w') <= writes (events w) + 1.
Proof.
  intros H. destruct (render_ok c s) eqn:Hok.
  - destruct (render_ok_writer c s Hok) as (a & Hw).
    rewrite (render_exact c s a w Hw Hok) in H. cbv zeta in H.
    destruct (WriteString (sinks w a) _) as [k [e|]].
    + injection H as <- _. cbn. rewrite writes_app. cbn. lia.
    + destruct (is_os_File k).
      * destruct (Sync k) as [k' err']. injection H as <- _. cbn.
        rewrite !writes_app. cbn. lia.
      * injection H as <- _. cbn. rewrite writes_app. cbn. lia.
  - destruct (render_not_ok_panics c s w Hok) as (w1 & msg & E & Ev).
    rewrite E in H. injection H as <- _. rewrite Ev. lia.
Qed.

Lemma Add_writes_step p num (w : world W) :
  consistent p -> 0 < max (p_config p) ->
  0 <= currentNum (p_state p) -> 0 <= num ->
  currentNum (p_state p) + num <= max (p_config p) ->
  let w' := fst (fst (Add p num w)) in
  let p' := after_Add p num w in
  currentNum (p_state p') = currentNum (p_state p) + num /\
  0 <= currentPercent (p_state p) <= currentPercent (p_state p') /\
  currentPercent (p_state p') <= 100 /\
  writes (events w') - writes (events w)
    <= currentPercent (p_state p') - currentPercent (p_state p).
Proof.
  intros Hc Hmax Hn Hnum Hle w' p'.
  pose proof Hc as (Hm & Hr & Hl & Hp & _).
  apply in_range_iff in Hm.
  assert (H0 : max (p_config p) <> 0) by lia.
  assert (Hfit : fits_int (scaled (currentNum (p_state p) + num)
                                  (max (p_config p)) 100) = true).
  { apply fits_int_up_to_max; unfold GoInt.max_int; lia. }
  destruct (Add_step_monotone p num w Hc Hmax Hn Hnum
              ltac:(unfold GoInt.max_int; lia) Hfit) as [En Ele].
  fold p' in En, Ele.
  assert (Hb : 0 <= currentPercent (p_state p)).
  { rewrite (Hp H0).
    apply (to_int_scaled_bounds (currentNum (p_state p)) (max (p_config p)) 100);
      lia. }
  assert (Hb' : currentPercent (p_state p') <= 100).
  { unfold p'. rewrite (Add_state p num w H0). cbn [advanced currentPercent].
    fold (after_Add p num w) in *.
    replace (GoInt.add (currentNum (p_state p)) num)
      with (currentNum (p_state p) + num).
    - apply (to_int_scaled_bounds (currentNum (p_state p) + num)
               (max (p_config p)) 100); lia.
    - symmetry. apply wrap_id, in_range_iff. lia. }
  split; [exact En|]. split; [lia|]. split; [exact Hb'|].
  unfold w', p' in *. clear w' p'.
  rewrite (Add_state p num w H0) in *.
  rewrite (Add_nonzero p num w H0). cbv zeta.
  destruct (max (p_config p) <? currentNum (advanced p num));
    [cbn [fst]; lia|].
  destruct (negb (currentPercent (advanced p num) =? lastPercent (p_state p)))
    eqn:Hne; cbn [andb].
  - apply negb_true_iff, Z.eqb_neq in Hne. rewrite Hl in Hne.
    destruct (0 <? currentPercent (advanced p num)); [|cbn [fst]; lia].
    destruct (renderProgressBar (p_config p) (advanced p num) w)
      as [w1 r1] eqn:ER.
    cbn [fst]. pose proof (render_writes_at_most_one _ _ _ _ _ ER). lia.
  - cbn [fst]. lia.
Qed.

(** X6.  On a tracker a program can hold, with a positive maximum, a run
    of advances by non-negative amounts that stays within the maximum
    writes at most as many lines as the percentage rose by; the percentage
    stays between 0 and 100, so the run writes at most 100 lines however
    many calls it makes. *)
Theorem writes_bounded nums : forall p (w : world W),
  reachable p -> 0 < max (p_config p) ->
  0 <= currentNum (p_state p) ->
  Forall (Z.le 0) nums ->
  currentNum (p_state p) + sum nums <= max (p_config p) ->
  let w' := fst (fst (AddAll p nums w)) in
  let p' := snd (fst (AddAll p nums w)) in
  writes (events w') - writes (events w)
    <= currentPercent (p_state p') - currentPercent (p_state p) /\
  0 <= currentPercent (p_state p) /\ currentPercent (p_state p') <= 100 /\
  writes (events w') - writes (events w) <= 100.
Proof.
  intros p w Hr. pose proof (reachable_consistent p Hr) as Hc. clear Hr.
  revert p w Hc.
  assert (Main : forall p (w : world W),
    consistent p -> 0 < max (p_config p) ->
    0 <= currentNum (p_state p) ->
    Forall (Z.le 0) nums ->
    currentNum (p_state p) + sum nums <= max (p_config p) ->
    let w' := fst (fst (AddAll p nums w)) in
    let p' := snd (fst (AddAll p nums w)) in
    writes (events w') - writes (events w)
      <= currentPercent (p_state p') - currentPercent (p_state p) /\
    0 <= currentPercent (p_state p) <= currentPercent (p_state p') /\
    currentPercent (p_state p') <= 100).
  { induction nums as [|num rest IH]; intros p w Hc Hmax Hn Hall Hle.
    - cbn. pose proof Hc as (Hm & _ & _ & Hp & _). apply in_range_iff in Hm.
      change (sum []) with 0 in Hle.
      rewrite (Hp ltac:(lia)).
      pose proof (to_int_scaled_bounds (currentNum (p_state p))
                    (max (p_config p)) 100 ltac:(lia) ltac:(lia) ltac:(lia)).
      lia.
    - inversion Hall as [|? ? Hnum Hrest]; subst.
      pose proof (sum_nonneg rest Hrest) as Hs.
      change (sum (num :: rest)) with (num + sum rest) in *.
      destruct (Add_writes_step p num w Hc Hmax Hn Hnum ltac:(lia))
        as (En & Hp & _ & Hw).
      cbv zeta. rewrite AddAll_cons.
      specialize (IH (after_Add p num w) (fst (fst (Add p num w)))
                     (consistent_Add p num w Hc)).
      rewrite Add_config, En in IH.
      specialize (IH Hmax ltac:(lia) Hrest ltac:(lia)). cbv zeta in IH.
      destruct (AddAll (after_Add p num w) rest _) as [[w2 p2] percents].
      cbn [fst snd] in *. lia. }
  intros p w Hc Hmax Hn Hall Hle.
  pose proof (Main p w Hc Hmax Hn Hall Hle) as H. cbv zeta in *. lia.
Qed.

(** When the renderer panics only the clock has moved. *)
Lemma render_panics_exact c s (w : world W) :
  render_ok c s = false ->
  exists n msg, renderProgressBar c s w = (later w n, Panicked msg).
Proof.
  unfold render_ok, renderProgressBar. intros Hok. destruct w as [ck tk sk ev].
  assert (L : forall k n, k = (tk + n)%nat ->
            {| clock := ck; ticks := k; sinks := sk; events := ev |}
            = later {| clock := ck; ticks := tk; sinks := sk; events := ev |} n)
    by (intros k n ->; reflexivity).
  destruct (strings.Repeat (Saucer (theme c)) (currentSaucerSize s))
    as [saucers|msg1].
  - destruct (strings.Repeat (SaucerPadding (theme c))
                (GoInt.sub (width c) (currentSaucerSize s)))
      as [padding|msg2].
    + destruct (writer c) as [|a]; [|discriminate].
      destruct (0 <? currentNum s);
        cbv beta iota zeta delta [bind lift ret time_Since time_Now
                                  io_WriteString];
        cbn [clock ticks sinks events].
      * exists 2%nat. eexists. apply (f_equal2 pair); [apply L; lia|reflexivity].
      * exists 1%nat. eexists. apply (f_equal2 pair); [apply L; lia|reflexivity].
    + destruct (0 <? currentNum s);
        cbv beta iota zeta delta [bind lift ret time_Since time_Now];
        cbn [clock ticks sinks events].
      * exists 1%nat. eexists. apply (f_equal2 pair); [apply L; lia|reflexivity].
      * exists 0%nat. eexists. apply (f_equal2 pair); [apply L; lia|reflexivity].
  - destruct (0 <? currentNum s);
      cbv beta iota zeta delta [bind lift ret time_Since time_Now];
      cbn [clock ticks sinks events].
    + exists 1%nat. eexists. apply (f_equal2 pair); [apply L; lia|reflexivity].
    + exists 0%nat. eexists. apply (f_equal2 pair); [apply L; lia|reflexivity].
Qed.

(** Whatever the renderer does, it leaves the clock's readings as they
    are, and calls the configured writer only. *)
Lemma render_frame c s (w w' : world W) r :
  renderProgressBar c s w = (w', r) ->
  clock w' = clock w /\
  (forall b, writer c <> Writer_at b -> sinks w' b = sinks w b) /\
  exists evs, events w' = (events w ++ evs)%list /\
              Forall (fun e => writer c = Writer_at (addr_of e)) evs.
Proof.
  intros H. destruct (render_ok c s) eqn:Hok.
  - destruct (render_ok_writer c s Hok) as (a & Hw).
    rewrite (render_exact c s a w Hw Hok) in H. cbv zeta in H.
    assert (Hne : forall b, writer c <> Writer_at b -> Nat.eqb b a = false).
    { intros b Hb. apply Nat.eqb_neq. intros ->. apply Hb. exact Hw. }
    destruct (WriteString (sinks w a) _) as [k [e|]].
    + injection H as <- _. cbn [update_sink later clock sinks events].
      split; [reflexivity|]. split.
      * intros b Hb. rewrite (Hne b Hb). reflexivity.
      * eexists. split; [reflexivity|]. repeat constructor. exact Hw.
    + destruct (is_os_File k).
      * destruct (Sync k) as [k' err']. injection H as <- _.
        cbn [update_sink later clock sinks events].
        split; [reflexivity|]. split.
        -- intros b Hb. rewrite (Hne b Hb). reflexivity.
        -- exists [ev_WriteString a (line_of c s w); ev_Sync a].
           split; [rewrite <- app_assoc; reflexivity|].
           repeat constructor; exact Hw.
      * injection H as <- _. cbn [update_sink later clock sinks events].
        split; [reflexivity|]. split.
        -- intros b Hb. rewrite (Hne b Hb). reflexivity.
        -- eexists. split; [reflexivity|]. repeat constructor. exact Hw.
  - destruct (render_panics_exact c s w Hok) as (n & msg & E).
    rewrite E in H. injection H as <- _. cbn [later clock sinks events].
    split; [reflexivity|]. split; [reflexivity|].
    exists []. split; [symmetry; apply app_nil_r|constructor].
Qed.

Lemma Add_frame p num (w : world W) :
  let w' := fst (fst (Add p num w)) in
  clock w' = clock w /\
  (forall b, writer (p_config p) <> Writer_at b -> sinks w' b = sinks w b) /\
  exists evs, events w' = (events w ++ evs)%list /\
              Forall (fun e => writer (p_config p) = Writer_at (addr_of e)) evs.
Proof.
  assert (Same : clock w = clock w /\
    (forall b, writer (p_config p) <> Writer_at b -> sinks w b = sinks w b) /\
    exists evs, events w = (events w ++ evs)%list /\
      Forall (fun e => writer (p_config p) = Writer_at (addr_of e)) evs).
  { split; [reflexivity|]. split; [reflexivity|].
    exists []. split; [symmetry; apply app_nil_r|constructor]. }
  cbv zeta. destruct (Z.eq_dec (max (p_config p)) 0) as [H0|H0].
  - rewrite (Add_max_zero p num w H0). exact Same.
  - rewrite (Add_nonzero p num w H0). cbv zeta.
    destruct (max (p_config p) <? _); [exact Same|].
    destruct (negb _ && _); [|exact Same].
    destruct (renderProgressBar (p_config p) (advanced p num) w)
      as [w1 r1] eqn:E.
    cbn [fst]. exact (render_frame _ _ _ _ _ E).
Qed.

(** X22.  A tracker calls no writer but its own: whatever the advances of
    a run and whatever they return, the calls the run adds are all on the
    configured writer, every other writer is left as it was, and so are the
    readings of the clock.  With a nil writer no call is made at all. *)
Theorem only_the_writer nums : forall p (w : world W),
  let w' := fst (fst (AddAll p nums w)) in
  clock w' = clock w /\
  (forall b, writer (p_config p) <> Writer_at b -> sinks w' b = sinks w b) /\
  exists evs, events w' = (events w ++ evs)%list /\
              Forall (fun e => writer (p_config p) = Writer_at (addr_of e)) evs.
Proof.
  induction nums as [|num rest IH]; intros p w.
  - cbn. split; [reflexivity|]. split; [reflexivity|].
    exists []. split; [symmetry; apply app_nil_r|constructor].
  - cbv zeta. rewrite AddAll_cons.
    destruct (Add_frame p num w) as (Ec & Es & evs1 & Ee & Ef).
    specialize (IH (after_Add p num w) (fst (fst (Add p num w)))).
    cbv zeta in IH. rewrite Add_config in IH.
    destruct (AddAll (after_Add p num w) rest _) as [[w2 p2] percents].
    cbn [fst snd] in *.
    destruct IH as (Ec2 & Es2 & evs2 & Ee2 & Ef2).
    split; [congruence|]. split.
    + intros b Hb. rewrite (Es2 b Hb). apply Es. exact Hb.
    + exists (evs1 ++ evs2)%list. split.
      * rewrite Ee2, Ee, app_assoc. reflexivity.
      * apply Forall_app. split; assumption.
Qed.

End Writes.

(** ** More on the construction *)

Section Construction.

Context {W : Type} {writer_W : Writer W} {platform : Platform}.

Lemma ProgressBar_eta p : p = {| p_state := p_state p; p_config := p_config p |}.
Proof. destruct p. reflexivity. Qed.

(** [NewOptions] in full: the clock is read once, and the options only
    matter through the configuration they build. *)
Lemma NewOptions_exact max_ options (w : world W) :
  NewOptions max_ options w =
  let b := {| p_state := {| currentNum := 0; currentPercent := 0;
                            lastPercent := 0; currentSaucerSize := 0;
                            lastShown := clock w (ticks w);
                            startTime := clock w (ticks w) |};
              p_config := p_config (fresh max_ options) |} in
  if renderWithBlankState (p_config b)
  then match RenderBlank b (later w 1) with
       | (w2, Returned _) => (w2, Returned b)
       | (w2, Panicked msg) => (w2, Panicked msg)
       end
  else (later w 1, Returned b).
Proof.
  unfold NewOptions, bind at 1. unfold getBlankState, bind, time_Now, ret.
  cbv zeta.
  match goal with
  | |- context [fold_left apply_Option options ?p0] =>
      set (b0 := fold_left apply_Option options p0)
  end.
  assert (E : b0 = {| p_state := {| currentNum := 0; currentPercent := 0;
                            lastPercent := 0; currentSaucerSize := 0;
                            lastShown := clock w (ticks w);
                            startTime := clock w (ticks w) |};
              p_config := p_config (fresh max_ options) |}).
  { rewrite (ProgressBar_eta b0). f_equal.
    - unfold b0. rewrite fold_Options_state. reflexivity.
    - unfold b0, fresh. apply fold_Options_config. reflexivity. }
  rewrite E. unfold later. rewrite Nat.add_1_r.
  destruct (renderWithBlankState _); [|reflexivity].
  destruct (RenderBlank _ _) as [w2 [r|msg]]; reflexivity.
Qed.

Lemma apply_Option_comm p x y :
  field_of x <> field_of y ->
  apply_Option (apply_Option p x) y = apply_Option (apply_Option p y) x.
Proof.
  destruct x, y; cbn [field_of]; intros H; try congruence; reflexivity.
Qed.

Lemma apply_Option_same p x y :
  field_of x = field_of y ->
  apply_Option (apply_Option p x) y = apply_Option p y.
Proof.
  destruct x, y; cbn [field_of]; intros H; try discriminate; reflexivity.
Qed.

Lemma fold_Options_perm l l' :
  Permutation l l' -> NoDup (map field_of l) ->
  forall p, fold_left apply_Option l p = fold_left apply_Option l' p.
Proof.
  induction 1 as [|x l l' HP IH|x y l|l l' l'' HP1 IH1 HP2 IH2];
    intros Hnd p.
  - reflexivity.
  - cbn [fold_left]. apply IH. cbn in Hnd. inversion Hnd. assumption.
  - cbn [fold_left]. f_equal. apply apply_Option_comm.
    cbn in Hnd. inversion Hnd as [|? ? Hin _]. subst.
    intros E. apply Hin. left. symmetry. exact E.
  - rewrite IH1 by exact Hnd. apply IH2.
    apply (Permutation_NoDup (Permutation_map field_of HP1) Hnd).
Qed.

(** X9.  Options that set different fields can be given in any order: two
    option lists that are permutations of each other, none setting a field
    twice, make [NewOptions] do the same. *)
Theorem options_commute max_ options options' (w : world W) :
  Permutation options options' -> NoDup (map field_of options) ->
  NewOptions max_ options w = NewOptions max_ options' w.
Proof.
  intros HP Hnd. rewrite !NewOptions_exact.
  unfold fresh. rewrite (fold_Options_perm _ _ HP Hnd). reflexivity.
Qed.

Lemma fold_Options_filter o l : forall p q,
  apply_Option p o = apply_Option q o ->
  apply_Option (fold_left apply_Option l p) o
  = apply_Option (fold_left apply_Option (filter (other_field o) l) q) o.
Proof.
  induction l as [|x l IH]; intros p q H; [exact H|].
  cbn [fold_left filter]. unfold other_field at 1.
  destruct (Nat.eqb_spec (field_of x) (field_of o)) as [E|E]; cbn [negb].
  - apply IH. rewrite (apply_Option_same p x o E). exact H.
  - cbn [fold_left]. apply IH.
    rewrite !(apply_Option_comm _ x o E), H. reflexivity.
Qed.

(** X10.  The last option that sets a field wins: before an option, the
    earlier options that set the same field can be dropped without changing
    what [NewOptions] does. *)
Theorem last_option_wins max_ options o (w : world W) :
  NewOptions max_ (options ++ [o]) w
  = NewOptions max_ (filter (other_field o) options ++ [o]) w.
Proof.
  rewrite !NewOptions_exact. unfold fresh.
  rewrite !fold_left_app. cbn [fold_left].
  rewrite (fold_Options_filter o options _ _ eq_refl). reflexivity.
Qed.


End Construction.

Section BelowZero.

Context {W : Type} {writer_W : Writer W} {platform : Platform}.

(** X12.  While an advance leaves the count between minus the maximum and
    zero, nothing is written and nil is returned.  The conversion to [int]
    rounds toward zero, so the percentage stored is the opposite of the
    percentage of the count without its sign, between -100 and 0. *)
Theorem Add_below_zero p num (w : world W) :
  0 < max (p_config p) <= GoInt.max_int ->
  let n := GoInt.add (currentNum (p_state p)) num in
  - max (p_config p) <= n <= 0 ->
  Add p num w = (w, after_Add p num w, Returned None) /\
  currentPercent (p_state (after_Add p num w))
    = - to_int (scaled (- n) (max (p_config p)) 100) /\
  -100 <= currentPercent (p_state (after_Add p num w)) <= 0.
Proof.
  intros Hmax n Hn. unfold GoInt.max_int in Hmax.
  assert (H0 : max (p_config p) <> 0) by lia.
  assert (Hm64 : 0 < max (p_config p) < 2 ^ 64).
  { change (2 ^ 64) with (2 * 2 ^ 63). lia. }
  assert (Ep : currentPercent (advanced p num)
               = - to_int (scaled (- n) (max (p_config p)) 100)).
  { cbn [advanced currentPercent]. fold n.
    destruct (Z.eq_dec n 0) as [E|E].
    - rewrite E. cbn [Z.opp].
      rewrite to_int_scaled_zero; [reflexivity|exact H0| |reflexivity].
      apply in_range_iff. lia.
    - rewrite <- (Z.opp_involutive n) at 1.
      apply to_int_scaled_opp; lia. }
  assert (Hb : 0 <= to_int (scaled (- n) (max (p_config p)) 100) <= 100).
  { apply (to_int_scaled_bounds (- n) (max (p_config p)) 100); lia. }
  rewrite (after_Add_eq p num w H0). cbn [p_state].
  split; [|split; [exact Ep|lia]].
  rewrite (Add_nonzero p num w H0). cbv zeta.
  replace (max (p_config p) <? currentNum (advanced p num)) with false.
  - replace (0 <? currentPercent (advanced p num)) with false.
    + rewrite andb_false_r. reflexivity.
    + symmetry. apply Z.ltb_ge. lia.
  - symmetry. apply Z.ltb_ge. cbn [advanced currentNum]. fold n. lia.
Qed.

End BelowZero.

(** ** The two durations of the line, and the percentage against the exact
    quotient *)

Section LineDetails.

Context {W : Type} {writer_W : Writer W} {platform : Platform}.

(** X13.  For a count between zero and a maximum of at most 2^50 / 101,
    the percentage [Add] stores is the exact quotient 100 * count / max
    rounded down, or one less, never more: the float arithmetic can lose
    one unit (29 out of 100 is stored as 28) but no more.  The same holds
    of the fill width against width * count / max. *)
Theorem percent_within_one p num (w : world W) :
  let mx := max (p_config p) in
  let wd := width (p_config p) in
  let n := GoInt.add (currentNum (p_state p)) num in
  let s := p_state (after_Add p num w) in
  0 < mx -> 0 <= n <= mx -> mx * 101 <= 2 ^ 50 ->
  n * 100 / mx - 1 <= currentPercent s <= n * 100 / mx /\
  (0 < wd -> mx * (wd + 1) <= 2 ^ 50 ->
   n * wd / mx - 1 <= currentSaucerSize s <= n * wd / mx).
Proof.
  intros mx wd n s Hm Hn Hb. unfold s.
  rewrite (Add_state p num w ltac:(fold mx; lia)).
  cbn [advanced currentPercent currentSaucerSize]. fold mx n wd.
  split.
  - apply to_int_scaled_within_one; lia.
  - intros Hw Hbw. apply to_int_scaled_within_one; lia.
Qed.

(** X21.  The bar is full only at the end: while the count is below a
    maximum of at most 2^50 / 101, and not negative, the percentage [Add]
    stores is below 100, and the fill width is below the width. *)
Theorem full_only_at_max p num (w : world W) :
  let mx := max (p_config p) in
  let wd := width (p_config p) in
  let n := GoInt.add (currentNum (p_state p)) num in
  let s := p_state (after_Add p num w) in
  0 <= n < mx -> mx * 101 <= 2 ^ 50 ->
  currentPercent s < 100 /\
  (0 < wd -> mx * (wd + 1) <= 2 ^ 50 -> currentSaucerSize s < wd).
Proof.
  intros mx wd n s Hn Hb. unfold s.
  rewrite (Add_state p num w ltac:(fold mx; lia)).
  cbn [advanced currentPercent currentSaucerSize]. fold mx n wd.
  split.
  - pose proof (to_int_scaled_within_one n mx 100 ltac:(lia) ltac:(lia)
                  ltac:(lia) ltac:(lia)) as [_ U].
    assert (n * 100 / mx < 100) by (apply Z.div_lt_upper_bound; lia).
    lia.
  - intros Hw Hbw.
    pose proof (to_int_scaled_within_one n mx wd ltac:(lia) ltac:(lia)
                  Hw Hbw) as [_ U].
    assert (n * wd / mx < wd) by (apply Z.div_lt_upper_bound; nia).
    lia.
Qed.

(** X14.  In the line a render wrote, the time to go reads 0s when the
    count is not positive, and when the count has reached the maximum and
    the clock has not gone back behind the start time. *)
Theorem nothing_left_at_the_end c s (w w' : world W) r :
  renderProgressBar c s w = (w', Returned r) ->
  currentNum s <= 0 \/
  (currentNum s = max c /\ max c <= GoInt.max_int /\
   startTime s <= clock w (ticks w)) ->
  exists a elapsed rest,
    writer c = Writer_at a /\
    events w' =
      (events w ++
       ev_WriteString a
         (Sprintf_line (currentPercent s) (BarStart (theme c))
            (strings.replicate (Z.to_nat (currentSaucerSize s))
                               (Saucer (theme c)))
            (strings.replicate
               (Z.to_nat (GoInt.sub (width c) (currentSaucerSize s)))
               (SaucerPadding (theme c)))
            (BarEnd (theme c)) elapsed "0s") :: rest)%list.
Proof.
  intros H Hc.
  pose proof (render_returned_ok _ _ _ _ _ H) as Hok.
  destruct (render_ok_writer c s Hok) as (a & Hw).
  destruct (render_events c s a w w' r Hw H) as (rest & Hev & _).
  exists a. eexists _, rest. split; [exact Hw|]. rewrite Hev.
  unfold line_of. do 4 f_equal.
  unfold leftTime_of.
  destruct (Z.ltb_spec 0 (currentNum s)) as [Hpos|Hle].
  - destruct Hc as [Hc | (En & Hmax & Hclock)]; [lia|].
    rewrite <- En.
    destruct (nothing_left (time.Sub (clock w (ticks w)) (startTime s))
                (currentNum s)) as [sg ->].
    + apply Sub_nonneg. exact Hclock.
    + unfold GoInt.max_int in Hmax. change (2 ^ 64) with (2 * 2 ^ 63). lia.
    + apply whole_seconds_of_zero.
  - apply whole_seconds_of_zero.
Qed.

(** X15.  In the line a render wrote, the elapsed time is the time from
    the start time to the reading of the clock, cut to whole seconds and
    printed as a duration; the reading is the second one the render takes
    when the count is positive and the first one otherwise.  This holds
    for elapsed times under 2^23 seconds. *)
Theorem elapsed_in_whole_seconds c s (w w' : world W) r :
  renderProgressBar c s w = (w', Returned r) ->
  let now := clock w (if 0 <? currentNum s then S (ticks w) else ticks w) in
  0 <= now - startTime s < 2 ^ 23 * 1000000000 ->
  exists a left rest,
    writer c = Writer_at a /\
    events w' =
      (events w ++
       ev_WriteString a
         (Sprintf_line (currentPercent s) (BarStart (theme c))
            (strings.replicate (Z.to_nat (currentSaucerSize s))
                               (Saucer (theme c)))
            (strings.replicate
               (Z.to_nat (GoInt.sub (width c) (currentSaucerSize s)))
               (SaucerPadding (theme c)))
            (BarEnd (theme c))
            (time.String_ ((now - startTime s) / 1000000000 * 1000000000))
            left) :: rest)%list.
Proof.
  intros H now Hd.
  pose proof (render_returned_ok _ _ _ _ _ H) as Hok.
  destruct (render_ok_writer c s Hok) as (a & Hw).
  destruct (render_events c s a w w' r Hw H) as (rest & Hev & _).
  exists a. eexists _, rest. split; [exact Hw|]. rewrite Hev.
  unfold line_of. do 3 f_equal.
  assert (En : clock w (ticks w + readings s - 1)%nat = now).
  { unfold now, readings. f_equal.
    destruct (0 <? currentNum s); lia. }
  unfold elapsed_of. rewrite En, (Sub_small _ _ Hd).
  rewrite (whole_seconds_Seconds _ Hd). reflexivity.
Qed.

End LineDetails.

(** ** Within bounds nothing panics *)

Section WithinBounds.

Context {W : Type} {writer_W : Writer W} {platform : Platform}.






(** X18.  Construction without the blank render touches no writer and
    cannot panic: [New], and [NewOptions] with options that leave the blank
    render off, read the clock once and return a blank tracker stamped with
    that reading.  [New] gives it the width 40, the default theme and
    standard output. *)
Theorem construction_is_silent max_ options (w : world W) :
  renderWithBlankState (p_config (fresh max_ options)) = false ->
  NewOptions max_ options w
  = (later w 1,
     Returned {| p_state := {| currentNum := 0; currentPercent := 0;
                               lastPercent := 0; currentSaucerSize := 0;
                               lastShown := clock w (ticks w);
                               startTime := clock w (ticks w) |};
                 p_config := p_config (fresh max_ options) |}) /\
  New max_ w
  = (later w 1,
     Returned {| p_state := {| currentNum := 0; currentPercent := 0;
                               lastPercent := 0; currentSaucerSize := 0;
                               lastShown := clock w (ticks w);
                               startTime := clock w (ticks w) |};
                 p_config := {| max := max_; width := 40;
                                writer := os_Stdout; theme := defaultTheme;
                                renderWithBlankState := false |} |}).
Proof.
  intros Hr. unfold New. rewrite !NewOptions_exact. cbv zeta.
  cbn [p_config]. rewrite Hr. split; reflexivity.
Qed.

(** X19.  [Reset] brings a tracker back to what its construction made:
    after any run of advances on a tracker that [NewOptions] returned
    without a blank render, a [Reset] leaves the very tracker, and the very
    world, that a new call of [NewOptions] with the same arguments would
    return from there. *)
Theorem Reset_is_reconstruction max_ options nums (w0 w1 w : world W) p0 :
  NewOptions max_ options w0 = (w1, Returned p0) ->
  renderWithBlankState (p_config p0) = false ->
  let p := snd (fst (AddAll p0 nums w1)) in
  NewOptions max_ options w
  = (fst (Reset p w), Returned (snd (Reset p w))).
Proof.
  intros HN Hrb p.
  destruct (NewOptions_returns _ _ _ _ _ HN) as (_ & _ & _ & Hc).
  pose proof (AddAll_config_only nums p0 w1) as Ec. fold p in Ec.
  rewrite NewOptions_exact. cbv zeta. cbn [p_config].
  rewrite <- Hc, Hrb.
  unfold Reset, getBlankState, bind, time_Now, ret, later.
  cbn [fst snd]. rewrite Nat.add_1_r, Ec. reflexivity.
Qed.

End WithinBounds.

(** ** The further properties on concrete trackers *)

Example Seconds_examples :
  trunc (time.Seconds 1999999999) = Some 1 /\
  trunc (time.Seconds 999999999) = Some 0 /\
  trunc (time.Seconds 3600000000000) = Some 3600.
Proof. repeat split. Qed.

Lemma exceeded_stays_exceeded_witness :
  let p := @after_Add sink _ amd64 (fresh 10 []) 11 quiet_world in
  max (p_config p) <> 0 /\
  max (p_config p) < currentNum (p_state p) /\
  GoInt.in_range (currentNum (p_state p)) = true /\
  Forall (Z.le 0) [1; 0; 2] /\
  currentNum (p_state p) + sum [1; 0; 2] <= GoInt.max_int /\
  exists p',
    @run sink _ amd64 p [1; 0; 2] quiet_world
    = (quiet_world, p',
       [Returned (Some exceeds_max); Returned (Some exceeds_max);
        Returned (Some exceeds_max)]) /\
    currentNum (p_state p') = 14.
Proof.
  intros p.
  assert (H1 : max (p_config p) <> 0) by (vm_compute; discriminate).
  assert (H2 : max (p_config p) < currentNum (p_state p))
    by (vm_compute; reflexivity).
  assert (H3 : GoInt.in_range (currentNum (p_state p)) = true)
    by (vm_compute; reflexivity).
  assert (H4 : Forall (Z.le 0) [1; 0; 2])
    by (repeat constructor; vm_compute; discriminate).
  assert (H5 : currentNum (p_state p) + sum [1; 0; 2] <= GoInt.max_int)
    by (vm_compute; discriminate).
  split; [exact H1|]. split; [exact H2|]. split; [exact H3|].
  split; [exact H4|]. split; [exact H5|].
  destruct (@exceeded_stays_exceeded sink _ amd64 [1; 0; 2] p quiet_world H1 H2 H3 H4 H5)
    as (p' & E & En).
  exists p'. split; [exact E|]. rewrite En. vm_compute. reflexivity.
Defined.

Lemma reachable_in_sync_witness :
  let p := @after_Add sink _ amd64 (fresh 10 []) 5 quiet_world in
  @reachable sink _ amd64 p /\ max (p_config p) <> 0 /\
  GoInt.in_range (width (p_config p)) = true /\
  lastPercent (p_state p) = currentPercent (p_state p) /\
  currentPercent (p_state p) = 50 /\ currentSaucerSize (p_state p) = 20.
Proof.
  intros p.
  assert (H1 : @reachable sink _ amd64 p)
    by (apply reachable_after_Add, fresh_reachable; reflexivity).
  assert (H2 : max (p_config p) <> 0) by (vm_compute; discriminate).
  assert (H3 : GoInt.in_range (width (p_config p)) = true)
    by (vm_compute; reflexivity).
  split; [exact H1|]. split; [exact H2|]. split; [exact H3|].
  destruct (@reachable_in_sync sink _ amd64 p H1 H2 H3) as (El & Ep & Ef).
  split; [exact El|].
  split; [rewrite Ep|rewrite Ef]; vm_compute; reflexivity.
Defined.

Lemma bar_never_shrinks_witness :
  let p := @after_Add sink _ amd64 (fresh 10 []) 3 quiet_world in
  @reachable sink _ amd64 p /\ 0 < max (p_config p) /\
  0 <= width (p_config p) <= 2 ^ 53 /\
  0 <= currentNum (p_state p) /\ 0 <= 4 /\
  currentNum (p_state p) + 4 <= max (p_config p) /\
  0 <= currentSaucerSize (p_state p) /\
  currentSaucerSize (p_state p)
    <= currentSaucerSize (p_state (@after_Add sink _ amd64 p 4 quiet_world)) /\
  currentSaucerSize (p_state (@after_Add sink _ amd64 p 4 quiet_world))
    <= width (p_config p).
Proof.
  intros p.
  assert (H1 : @reachable sink _ amd64 p)
    by (apply reachable_after_Add, fresh_reachable; reflexivity).
  assert (H2 : 0 < max (p_config p)) by reflexivity.
  assert (H3 : 0 <= width (p_config p) <= 2 ^ 53)
    by (split; vm_compute; discriminate).
  assert (H4 : 0 <= currentNum (p_state p)) by (vm_compute; discriminate).
  assert (H5 : 0 <= 4) by discriminate.
  assert (H6 : currentNum (p_state p) + 4 <= max (p_config p))
    by (vm_compute; discriminate).
  split; [exact H1|]. split; [exact H2|]. split; [exact H3|].
  split; [exact H4|]. split; [exact H5|]. split; [exact H6|].
  exact (@bar_never_shrinks sink _ amd64 p 4 quiet_world H1 H2 H3 H4 H5 H6).
Defined.

Lemma full_only_at_max_witness :
  let p := fresh 1000 [] in
  let n := GoInt.add (currentNum (p_state p)) 999 in
  let s := p_state (@after_Add sink _ amd64 p 999 quiet_world) in
  0 <= n < max (p_config p) /\ max (p_config p) * 101 <= 2 ^ 50 /\
  currentPercent s < 100.
Proof.
  intros p n s.
  assert (H1 : 0 <= n < max (p_config p))
    by (split; vm_compute; [discriminate|reflexivity]).
  assert (H2 : max (p_config p) * 101 <= 2 ^ 50) by (vm_compute; discriminate).
  split; [exact H1|]. split; [exact H2|].
  pose proof (@full_only_at_max sink _ amd64 p 999 quiet_world H1 H2) as T.
  exact (proj1 T).
Defined.

Lemma advances_to_max_witness :
  let p := fresh 10 [] in
  0 < max (p_config p) <= GoInt.max_int /\
  0 <= width (p_config p) <= 2 ^ 53 /\
  0 <= currentNum (p_state p) /\
  Forall (Z.le 0) [3; 0; 7] /\ [3; 0; 7] <> [] /\
  currentNum (p_state p) + sum [3; 0; 7] = max (p_config p) /\
  let p' := snd (fst (@AddAll sink _ amd64 p [3; 0; 7] quiet_world)) in
  currentNum (p_state p') = 10 /\ currentPercent (p_state p') = 100 /\
  currentSaucerSize (p_state p') = 40.
Proof.
  intros p.
  assert (H1 : 0 < max (p_config p) <= GoInt.max_int)
    by (split; vm_compute; [reflexivity|discriminate]).
  assert (H2 : 0 <= width (p_config p) <= 2 ^ 53)
    by (split; vm_compute; discriminate).
  assert (H3 : 0 <= currentNum (p_state p)) by (vm_compute; discriminate).
  assert (H4 : Forall (Z.le 0) [3; 0; 7])
    by (repeat constructor; vm_compute; discriminate).
  assert (H5 : [3; 0; 7] <> []) by discriminate.
  assert (H6 : currentNum (p_state p) + sum [3; 0; 7] = max (p_config p))
    by reflexivity.
  split; [exact H1|]. split; [exact H2|]. split; [exact H3|].
  split; [exact H4|]. split; [exact H5|]. split; [exact H6|].
  exact (@advances_to_max sink _ amd64 p [3; 0; 7] quiet_world H1 H2 H3 H4 H5 H6).
Defined.

Lemma writes_bounded_witness :
  let p := fresh 10 [] in
  @reachable sink _ amd64 p /\ 0 < max (p_config p) /\
  0 <= currentNum (p_state p) /\ Forall (Z.le 0) [5; 0; 5] /\
  currentNum (p_state p) + sum [5; 0; 5] <= max (p_config p) /\
  writes (events (fst (fst (@AddAll sink _ amd64 p [5; 0; 5] quiet_world))))
    - writes (events quiet_world) <= 100.
Proof.
  intros p.
  assert (H1 : @reachable sink _ amd64 p) by (apply fresh_reachable; reflexivity).
  assert (H2 : 0 < max (p_config p)) by (vm_compute; reflexivity).
  assert (H3 : 0 <= currentNum (p_state p)) by (vm_compute; discriminate).
  assert (H4 : Forall (Z.le 0) [5; 0; 5])
    by (repeat constructor; vm_compute; discriminate).
  assert (H5 : currentNum (p_state p) + sum [5; 0; 5] <= max (p_config p))
    by (vm_compute; discriminate).
  split; [exact H1|]. split; [exact H2|]. split; [exact H3|].
  split; [exact H4|]. split; [exact H5|].
  exact (proj2 (proj2 (proj2
           (@writes_bounded sink _ amd64 [5; 0; 5] p quiet_world H1 H2 H3 H4 H5)))).
Defined.

Lemma render_one_write_witness :
  let c := p_config (fresh 10 []) in
  let s := p_state (@after_Add sink _ amd64 (fresh 10 []) 5 quiet_world) in
  let R := @renderProgressBar sink _ amd64 c s quiet_world in
  writer c = Writer_at 1 /\ R = (fst R, Returned None) /\
  ticks (fst R) = 2%nat /\
  exists line, events (fst R) = [ev_WriteString 1 line].
Proof.
  intros c s R.
  assert (H1 : writer c = Writer_at 1) by reflexivity.
  assert (H2 : @renderProgressBar sink _ amd64 c s quiet_world
               = (fst R, Returned None)) by (vm_compute; reflexivity).
  split; [exact H1|]. split; [exact H2|].
  pose proof (@render_one_write sink _ amd64 c s 1%nat quiet_world (fst R)
                None H1 H2) as T.
  destruct T as (Et & _ & H).
  split; [exact Et|]. eexists. exact (proj2 (proj2 H)).
Defined.

Lemma returned_render_fills_width_witness :
  let c := p_config (fresh 10 []) in
  let s := p_state (@after_Add sink _ amd64 (fresh 10 []) 5 quiet_world) in
  let R := @renderProgressBar sink _ amd64 c s quiet_world in
  R = (fst R, Returned None) /\ 0 <= width c <= GoInt.max_int /\
  GoInt.in_range (currentSaucerSize s) = true /\
  0 <= currentSaucerSize s <= width c.
Proof.
  intros c s R.
  assert (H1 : @renderProgressBar sink _ amd64 c s quiet_world
               = (fst R, Returned None)) by (vm_compute; reflexivity).
  assert (H2 : 0 <= width c <= GoInt.max_int)
    by (split; vm_compute; discriminate).
  assert (H3 : GoInt.in_range (currentSaucerSize s) = true)
    by (vm_compute; reflexivity).
  split; [exact H1|]. split; [exact H2|]. split; [exact H3|].
  pose proof (@returned_render_fills_width sink _ amd64 c s quiet_world
                (fst R) None H1 H2 H3) as T.
  exact (proj1 T).
Defined.

Lemma options_commute_witness :
  let options := [OptionSetWidth 10; OptionSetRenderBlankState true] in
  let options' := [OptionSetRenderBlankState true; OptionSetWidth 10] in
  Permutation options options' /\ NoDup (map field_of options) /\
  @NewOptions sink _ amd64 7 options quiet_world
  = @NewOptions sink _ amd64 7 options' quiet_world.
Proof.
  intros options options'.
  assert (H1 : Permutation options options') by apply perm_swap.
  assert (H2 : NoDup (map field_of options)).
  { cbn. constructor; [|constructor; [|constructor]].
    - intros [E|[]]. discriminate E.
    - intros []. }
  split; [exact H1|]. split; [exact H2|].
  exact (@options_commute sink _ amd64 7 options options' quiet_world H1 H2).
Defined.


Lemma Add_below_zero_witness :
  let p := fresh 10 [] in
  0 < max (p_config p) <= GoInt.max_int /\
  - max (p_config p) <= GoInt.add (currentNum (p_state p)) (-3) <= 0 /\
  @Add sink _ amd64 p (-3) quiet_world
  = (quiet_world, @after_Add sink _ amd64 p (-3) quiet_world, Returned None) /\
  currentPercent (p_state (@after_Add sink _ amd64 p (-3) quiet_world)) = -30.
Proof.
  intros p.
  assert (H1 : 0 < max (p_config p) <= GoInt.max_int)
    by (split; vm_compute; [reflexivity|discriminate]).
  assert (H2 : - max (p_config p)
               <= GoInt.add (currentNum (p_state p)) (-3) <= 0)
    by (split; vm_compute; discriminate).
  split; [exact H1|]. split; [exact H2|].
  destruct (@Add_below_zero sink _ amd64 p (-3) quiet_world H1 H2) as (E & Ep & _).
  split; [exact E|]. rewrite Ep. vm_compute. reflexivity.
Defined.

Lemma percent_within_one_witness :
  let p := fresh 100 [] in
  let n := GoInt.add (currentNum (p_state p)) 29 in
  let s := p_state (@after_Add sink _ amd64 p 29 quiet_world) in
  0 < max (p_config p) /\ 0 <= n <= max (p_config p) /\
  max (p_config p) * 101 <= 2 ^ 50 /\
  n * 100 / max (p_config p) - 1 <= currentPercent s
    <= n * 100 / max (p_config p).
Proof.
  intros p n s.
  assert (H1 : 0 < max (p_config p)) by reflexivity.
  assert (H2 : 0 <= n <= max (p_config p))
    by (split; vm_compute; discriminate).
  assert (H3 : max (p_config p) * 101 <= 2 ^ 50) by (vm_compute; discriminate).
  split; [exact H1|]. split; [exact H2|]. split; [exact H3|].
  pose proof (@percent_within_one sink _ amd64 p 29 quiet_world H1 H2 H3)
    as T.
  exact (proj1 T).
Defined.

Lemma nothing_left_at_the_end_witness :
  let c := p_config (fresh 10 []) in
  let s := p_state (@after_Add sink _ amd64 (fresh 10 []) 10 quiet_world) in
  let R := @renderProgressBar sink _ amd64 c s quiet_world in
  R = (fst R, Returned None) /\
  (currentNum s <= 0 \/
   (currentNum s = max c /\ max c <= GoInt.max_int /\
    startTime s <= clock quiet_world (ticks quiet_world))) /\
  exists a elapsed rest,
    writer c = Writer_at a /\
    events (fst R) =
      ev_WriteString a
        (Sprintf_line (currentPercent s) (BarStart (theme c))
           (strings.replicate (Z.to_nat (currentSaucerSize s))
                              (Saucer (theme c)))
           (strings.replicate
              (Z.to_nat (GoInt.sub (width c) (currentSaucerSize s)))
              (SaucerPadding (theme c)))
           (BarEnd (theme c)) elapsed "0s") :: rest.
Proof.
  intros c s R.
  assert (H1 : @renderProgressBar sink _ amd64 c s quiet_world
               = (fst R, Returned None)) by (vm_compute; reflexivity).
  assert (H2 : currentNum s <= 0 \/
               (currentNum s = max c /\ max c <= GoInt.max_int /\
                startTime s <= clock quiet_world (ticks quiet_world))).
  { right. split; [reflexivity|]. split; vm_compute; discriminate. }
  split; [exact H1|]. split; [exact H2|].
  pose proof (@nothing_left_at_the_end sink _ amd64 c s quiet_world (fst R)
                None H1 H2) as T.
  exact T.
Defined.

Lemma elapsed_in_whole_seconds_witness :
  let c := p_config (fresh 10 []) in
  let s := p_state (@after_Add sink _ amd64 (fresh 10 []) 10 quiet_world) in
  let w := {| clock := fun n => 1500000000 * Z.of_nat n; ticks := 1;
              sinks := sinks quiet_world; events := [] |} in
  let R := @renderProgressBar sink _ amd64 c s w in
  R = (fst R, Returned None) /\
  0 <= clock w 2 - startTime s < 2 ^ 23 * 1000000000 /\
  exists a left rest,
    writer c = Writer_at a /\
    events (fst R) =
      ev_WriteString a
        (Sprintf_line (currentPercent s) (BarStart (theme c))
           (strings.replicate (Z.to_nat (currentSaucerSize s))
                              (Saucer (theme c)))
           (strings.replicate
              (Z.to_nat (GoInt.sub (width c) (currentSaucerSize s)))
              (SaucerPadding (theme c)))
           (BarEnd (theme c)) "3s" left) :: rest.
Proof.
  intros c s w R.
  assert (H1 : @renderProgressBar sink _ amd64 c s w
               = (fst R, Returned None)) by (vm_compute; reflexivity).
  assert (H2 : 0 <= clock w 2 - startTime s < 2 ^ 23 * 1000000000)
    by (split; vm_compute; [discriminate|reflexivity]).
  split; [exact H1|]. split; [exact H2|].
  pose proof (@elapsed_in_whole_seconds sink _ amd64 c s w (fst R) None
                H1 H2) as T.
  exact T.
Defined.



Lemma Reset_is_reconstruction_witness :
  let w1 := later quiet_world 1 in
  let p0 := fresh 10 [OptionSetWidth 20] in
  @NewOptions sink _ amd64 10 [OptionSetWidth 20] quiet_world
  = (w1, Returned p0) /\
  renderWithBlankState (p_config p0) = false /\
  let p := snd (fst (@AddAll sink _ amd64 p0 [5; 6] w1)) in
  @NewOptions sink _ amd64 10 [OptionSetWidth 20] w1
  = (fst (Reset p w1), Returned (snd (Reset p w1))).
Proof.
  intros w1 p0.
  assert (H1 : @NewOptions sink _ amd64 10 [OptionSetWidth 20] quiet_world
               = (w1, Returned p0)) by reflexivity.
  assert (H2 : renderWithBlankState (p_config p0) = false) by reflexivity.
  split; [exact H1|]. split; [exact H2|].
  exact (@Reset_is_reconstruction sink _ amd64 10 [OptionSetWidth 20] [5; 6]
           quiet_world w1 w1 p0 H1 H2).
Defined.

Lemma construction_is_silent_witness :
  renderWithBlankState (p_config (fresh 10 [OptionSetWidth 20])) = false /\
  exists p,
    @NewOptions sink _ amd64 10 [OptionSetWidth 20] quiet_world
    = (later quiet_world 1, Returned p) /\
    width (p_config p) = 20.
Proof.
  assert (H1 : renderWithBlankState (p_config (fresh 10 [OptionSetWidth 20]))
               = false) by reflexivity.
  split; [exact H1|].
  eexists. split.
  - exact (proj1 (@construction_is_silent sink _ amd64 10 [OptionSetWidth 20]
                    quiet_world H1)).
  - reflexivity.
Defined.
